(** * js-assignments: a shallow embedding of the kata solutions

    The repository is a flat collection of independent JavaScript
    functions.  Each module below embeds the functions of one group of
    tasks; its definitions come first and the statements about them
    follow.

    - [Katas3]: findStringInSnakingPuzzle and UrlShortener;
    - [Katas1]: createCompassPoints and extractRanges
      (10-katas-1-tasks.js);
    - [Objects]: the CssSelector class (08-objects-tasks.js);
    - [Katas2]: parseBankAccount, wrapText and getPokerHandRank (the
      second half of 08-objects-tasks.js);
    - [Yield]: mergeSortedSequences (07-yield-tasks.js);
    - [Urls], [Bank], [Wrap], [Selectors]: further properties of
      UrlShortener, parseBankAccount, wrapText and the selector builder;
    - [Stock], [Snake]: getMostProfitFromStockQuotes and the search of
      findStringInSnakingPuzzle;
    - [Sequences], [Trees]: getFibonacciSequence, merging of arrays and
      the two tree traversals (07-yield-tasks.js);
    - [Braces], [Dominoes], [ZigZag]: expandBraces, canDominoesMakeRow
      and getZigZagMatrix (10-katas-1-tasks.js);
    - [Figure]: getFigureRectangles (08-objects-tasks.js).

    Not embedded: getPermutations, whose inner function [permute] uses
    [yield] without being a generator, so that the strict-mode source has
    no reading; Rectangle, getJSON and fromJSON, which rest on JSON and
    prototypes; get99BottlesOfBeer, which takes no input.

    Conventions of the embedding:
    - a JavaScript string of ASCII characters is a [string]; the poker
      cards, which carry a suit symbol outside ASCII, are lists of UTF-16
      code units;
    - a JavaScript number that holds an integer and a BigInt are both
      [Z]; BigInt arithmetic is exact, and so is that of numbers up to
      2^53 in magnitude; where the input can take a number beyond
      (extractRanges, getMostProfitFromStockQuotes,
      getFibonacciSequence) the operations round as doubles do
      ([to_double]), and the statements bound their inputs; the
      counter of getZigZagMatrix is exact, and the statements on the
      matrix bound the dimension; lengths and indices are far below; an
      azimuth is a rational;
    - [null] and [undefined] are [None];
    - a generator over a finite loop is the list of the values it yields,
      in order; a generator that may run for ever is a step function on
      its local variables;
    - a [throw] is the [Throw] constructor of [completion]. *)

From Stdlib Require Import ZArith QArith List Lia Bool Ascii String Sorted.
From stdpp Require Import base list strings pretty gmap.
From Equations Require Import Equations.
Import ListNotations.

Local Open Scope Z_scope.

(** ** Fragments of the JavaScript runtime used by the sources *)

Module JS.

(** The outcome of a call that may throw. *)
Inductive completion (A : Type) : Type :=
| Return (a : A)
| Throw (message : string).
Arguments Return {A} a.
Arguments Throw {A} message.

(** [s.length] as a number. *)
Definition len (s : string) : Z := Z.of_nat (String.length s).

(** [s[i]] for a natural index: [None] is [undefined]. *)
Definition char_at (s : string) (i : nat) : option ascii := String.get i s.

(** [s[i]] for an arbitrary integer index. *)
Definition char_atZ (s : string) (i : Z) : option ascii :=
  if i <? 0 then None else char_at s (Z.to_nat i).

(** [s.indexOf(c)] for a one-character [c]: the scan from the left,
    [i] being the position of the first character of [s]; -1 when [c]
    does not occur. *)
Fixpoint index_from (i : Z) (c : ascii) (s : string) : Z :=
  match s with
  | EmptyString => -1
  | String d rest => if Ascii.eqb d c then i else index_from (i + 1) c rest
  end.

Definition index_of_char (c : ascii) (s : string) : Z := index_from 0 c s.

(** Sequencing of calls that may throw. *)
Definition bind {A B : Type} (c : completion A) (k : A -> completion B)
  : completion B :=
  match c with
  | Return a => k a
  | Throw message => Throw message
  end.

(** An array that may have holes: [None] is a missing element, which
    reads as [undefined]. *)
Definition array (A : Type) : Type := list (option A).

(** [a[idx] = v]: an index past the end extends the array, leaving
    holes before the new element. *)
Definition array_set {A : Type} (a : array A) (idx : nat) (v : A) : array A :=
  if (idx <? length a)%nat then <[idx := Some v]> a
  else a ++ replicate (idx - length a) None ++ [Some v].

(** Truthiness of a string value that may be [null]. *)
Definition truthy (v : option string) : bool :=
  match v with
  | None => false
  | Some s => negb (String.eqb s EmptyString)
  end.

(** *** Numbers that hold integers

    A number is a double.  The integers up to 2^53 in magnitude are all
    doubles; beyond, only the multiples of a power of two are: between
    2^e and 2^(e+1) the doubles are [2^(e-52)] apart.  The result of
    [+], [-] and [*] on doubles is the double nearest to the exact
    result, and of two equally near ones the one with the even
    significand.  [to_double] is this rounding on integers (of magnitude
    below 2^1024, where the doubles end). *)
Definition to_double (z : Z) : Z :=
  let m := Z.abs z in
  let e := Z.log2 m in
  if e <? 53 then z
  else
    let ulp := 2 ^ (e - 52) in
    let q := m / ulp in
    let r := m mod ulp in
    let q' := if 2 * r <? ulp then q
              else if ulp <? 2 * r then q + 1
              else if Z.even q then q else q + 1 in
    Z.sgn z * (q' * ulp).

(** [x + y], [x - y] and [x * y] on numbers that hold integers. *)
Definition num_add (x y : Z) : Z := to_double (x + y).
Definition num_sub (x y : Z) : Z := to_double (x - y).
Definition num_mul (x y : Z) : Z := to_double (x * y).

(** [Number.isSafeInteger(z)]: the magnitude is at most 2^53 - 1. *)
Definition safe_integer (z : Z) : Prop := Z.abs z < 2 ^ 53.

(** Up to 2^53 in magnitude nothing is rounded. *)
Lemma to_double_exact (z : Z) : Z.abs z <= 2 ^ 53 -> to_double z = z.
Proof.
  intros Hz. unfold to_double.
  destruct (Z.ltb_spec (Z.log2 (Z.abs z)) 53) as [_ | Hlog]; [reflexivity |].
  assert (Hpos : 0 < Z.abs z).
  { destruct (Z.eq_dec (Z.abs z) 0) as [H0 | ?]; [| lia].
    rewrite H0 in Hlog. change (Z.log2 0) with 0 in Hlog. lia. }
  apply (Z.log2_le_pow2 _ _ Hpos) in Hlog.
  assert (Habs : Z.abs z = 2 ^ 53) by lia.
  destruct (Z.abs_eq_or_opp z) as [Hz' | Hz'].
  - rewrite <- Hz', Habs. vm_compute. reflexivity.
  - assert (z = - 2 ^ 53) as -> by lia. vm_compute. reflexivity.
Qed.

(** Rounding gives 1 for 1 only. *)
Lemma to_double_eqb_one (z : Z) : (to_double z =? 1) = (z =? 1).
Proof.
  unfold to_double.
  destruct (Z.ltb_spec (Z.log2 (Z.abs z)) 53) as [_ | Hlog]; [reflexivity |].
  destruct (Z.eqb_spec z 1) as [-> | _];
    [change (Z.log2 (Z.abs 1)) with 0 in Hlog; lia |].
  apply Z.eqb_neq.
  set (e := Z.log2 (Z.abs z)) in *.
  replace (e - 52) with (Z.succ (e - 53)) by lia.
  rewrite Z.pow_succ_r by lia.
  set (half := 2 ^ (e - 53)). set (q' := if _ <? _ then _ else _).
  replace (Z.sgn z * (q' * (2 * half))) with (2 * (Z.sgn z * q' * half)) by ring.
  lia.
Qed.

End JS.

(** ** Katas 3: the snaking puzzle and the URL shortener *)

Module Katas3.
Import JS.

(** *** findStringInSnakingPuzzle *)

(** The two arrays the function works on: its argument [puzzle] and its
    local [visited].  Both are kept in one store that every call of
    [dfs] receives and returns, so that a write to either would show. *)
Record store : Type := Store {
  puzzle : list string;
  visited : list (list bool)
}.

(** [Array(rows).fill().map(() => Array(cols).fill(false))] *)
Definition fresh_visited (rows cols : Z) : list (list bool) :=
  replicate (Z.to_nat rows) (replicate (Z.to_nat cols) false).

(** [visited] has [rows] rows of [cols] cells, as [fresh_visited] makes
    it. *)
Definition shaped (rows cols : Z) (v : list (list bool)) : Prop :=
  Z.of_nat (length v) = rows /\
  Forall (fun r => Z.of_nat (length r) = cols) v.

(** [puzzle[row][col]], read after the bounds test. *)
Definition puzzle_at (h : store) (row col : Z) : option ascii :=
  match puzzle h !! Z.to_nat row with
  | Some line => char_at line (Z.to_nat col)
  | None => None
  end.

(** [visited[row][col]], read after the bounds test; a missing cell
    reads as [undefined], which is falsy. *)
Definition visited_at (h : store) (row col : Z) : bool :=
  match visited h !! Z.to_nat row with
  | Some r => match r !! Z.to_nat col with Some b => b | None => false end
  | None => false
  end.

(** [visited[row][col] = b].  The write follows the bounds test, so on a
    [shaped] array the cell exists; elsewhere the model leaves the
    array as it is. *)
Definition mark (row col : Z) (b : bool) (h : store) : store :=
  {| puzzle := puzzle h;
     visited := alter (fun r => <[Z.to_nat col := b]> r) (Z.to_nat row) (visited h) |}.

Definition same_char (a b : option ascii) : bool :=
  match a, b with
  | Some x, Some y => Ascii.eqb x y
  | None, None => true
  | _, _ => false
  end.

(** right, down, left, up *)
Definition directions : list (Z * Z) := [(0, 1); (1, 0); (0, -1); (-1, 0)].

(** [for (const [dr, dc] of directions)
       if (dfs(row + dr, col + dc, index + 1)) return true;]
    with [call] standing for [dfs]; the result [false] means that the
    loop ran to its end. *)
Fixpoint try_directions (call : Z -> Z -> nat -> store -> option (bool * store))
    (dirs : list (Z * Z)) (row col : Z) (index : nat) (h : store)
  : option (bool * store) :=
  match dirs with
  | [] => Some (false, h)
  | (dr, dc) :: rest =>
      match call (row + dr) (col + dc) (index + 1)%nat h with
      | None => None
      | Some (true, h') => Some (true, h')
      | Some (false, h') => try_directions call rest row col index h'
      end
  end.

Section Search.
Variable searchStr : string.
Variables rows cols : Z.

(** The inner function [dfs].  [fuel] bounds the depth of the
    recursion; [None] means that the bound was reached. *)
Fixpoint dfs (fuel : nat) (row col : Z) (index : nat) (h : store)
  : option (bool * store) :=
  match fuel with
  | O => None
  | S fuel' =>
      if (index =? String.length searchStr)%nat then Some (true, h)
      else if (row <? 0) || (row >=? rows) || (col <? 0) || (col >=? cols)
              || visited_at h row col
      then Some (false, h)
      else if negb (same_char (puzzle_at h row col) (char_at searchStr index))
      then Some (false, h)
      else
        let h1 := mark row col true h in
        match try_directions (dfs fuel') directions row col index h1 with
        | None => None
        | Some (true, h') => Some (true, h')
        | Some (false, h') => Some (false, mark row col false h')
        end
  end.

(** [for (let j = 0; j < cols; j++) if (dfs(i, j, 0)) return true;]
    from [j], with [n] rounds left. *)
Fixpoint scan_cols (fuel : nat) (i : Z) (n : nat) (j : Z) (h : store)
  : option (bool * store) :=
  match n with
  | O => Some (false, h)
  | S n' =>
      match dfs fuel i j 0 h with
      | None => None
      | Some (true, h') => Some (true, h')
      | Some (false, h') => scan_cols fuel i n' (j + 1) h'
      end
  end.

(** [for (let i = 0; i < rows; i++) ...] from [i], with [n] rounds
    left. *)
Fixpoint scan_rows (fuel : nat) (n : nat) (i : Z) (h : store)
  : option (bool * store) :=
  match n with
  | O => Some (false, h)
  | S n' =>
      match scan_cols fuel i (Z.to_nat cols) 0 h with
      | None => None
      | Some (true, h') => Some (true, h')
      | Some (false, h') => scan_rows fuel n' (i + 1) h'
      end
  end.
End Search.

(** The whole function; it returns its result and the store it leaves.
    [puzzle[0].length] throws on an empty puzzle.  The depth of [dfs]
    is at most the length of [searchStr] plus one. *)
Definition findStringInSnakingPuzzle (puzzle : list string) (searchStr : string)
  : option (completion (bool * store)) :=
  match puzzle with
  | [] => Some (Throw "TypeError: Cannot read properties of undefined (reading 'length')")
  | first :: _ =>
      let rows := Z.of_nat (length puzzle) in
      let cols := len first in
      let h := {| puzzle := puzzle; visited := fresh_visited rows cols |} in
      match scan_rows searchStr rows cols (S (String.length searchStr))
                      (Z.to_nat rows) 0 h with
      | None => None
      | Some r => Some (Return r)
      end
  end.

(** What a call started in [h] may leave behind: it ends, the puzzle is
    the one of [h], [visited] keeps its shape, and a call that answers
    [false] leaves [visited] as it found it. *)
Definition restores (rows cols : Z) (h : store) (r : option (bool * store)) : Prop :=
  exists (b : bool) (h' : store),
    r = Some (b, h') /\
    puzzle h' = puzzle h /\
    shaped rows cols (visited h') /\
    (b = false -> visited h' = visited h).

(** *** UrlShortener *)

Definition urlAllowedChars : string :=
  ("ABCDEFGHIJKLMNOPQRSTUVWXYZ" ++
   "abcdefghijklmnopqrstuvwxyz" ++
   "0123456789-_.~!*'();:@&=+$,/?#[]")%string.

Definition base : Z := len urlAllowedChars.

(** The first loop of [encode] and of [decode]:
    [num = num * BigInt(base) + BigInt(indexOf(url[i]))], started at
    [num]. A character outside the alphabet contributes -1. *)
Fixpoint to_num (num : Z) (url : string) : Z :=
  match url with
  | EmptyString => num
  | String c rest => to_num (num * base + index_of_char c urlAllowedChars) rest
  end.

(** [urlAllowedChars[Number(num % base)] + short]; an index outside the
    alphabet would read [undefined], which string concatenation prints. *)
Definition push_digit (num : Z) (short : string) : string :=
  match char_atZ urlAllowedChars (Z.rem num base) with
  | Some c => String c short
  | None => ("undefined" ++ short)%string
  end.

(** The second loop: [while (num > 0) { short = digit + short;
    num = num / base }], with BigInt division truncating.  The loop
    ends because every round at least halves [num]; the measure is the
    number of binary digits of [num]. *)
Definition bits (num : Z) : nat :=
  if 0 <? num then S (Z.to_nat (Z.log2 num)) else O.

Equations? from_num (num : Z) (short : string) : string
  by wf (bits num) lt :=
  from_num num short with Z_lt_dec 0 num => {
    | left _ => from_num (Z.quot num base) (push_digit num short)
    | right _ => short }.
Proof.
  unfold bits.
  destruct (Z.ltb_spec 0 num) as [_ | ?]; [| lia].
  destruct (Z.ltb_spec 0 (Z.quot num base)) as [Hq | Hq]; [| lia].
  assert (Hb : base = 84) by exact eq_refl.
  assert (Hle : base * Z.quot num base <= num)
    by (apply Z.mul_quot_le; lia).
  assert (Hd : Z.log2 (2 * Z.quot num base) <= Z.log2 num)
    by (apply Z.log2_le_mono; lia).
  rewrite Z.log2_double in Hd by lia.
  pose proof (Z.log2_nonneg (Z.quot num base)). lia.
Qed.

(** [short || this.urlAllowedChars[0]] *)
Definition or_first (short : string) : string :=
  if String.eqb short EmptyString then
    match char_at urlAllowedChars 0 with
    | Some c => String c EmptyString
    | None => EmptyString
    end
  else short.

Definition encode (url : string) : string :=
  or_first (from_num (to_num 0 url) EmptyString).

Definition decode (code : string) : string :=
  from_num (to_num 0 code) EmptyString.

(** Every character of [s] belongs to the alphabet. *)
Fixpoint over_alphabet (s : string) : bool :=
  match s with
  | EmptyString => true
  | String c rest => (0 <=? index_of_char c urlAllowedChars) && over_alphabet rest
  end.

(** The first character of [s], when there is one, is not the one of
    index 0 in the alphabet. *)
Definition no_leading_zero (s : string) : bool :=
  match s with
  | EmptyString => true
  | String c _ => negb (index_of_char c urlAllowedChars =? 0)
  end.

(** *** The store discipline of [dfs] *)

(** Splits a [restores] goal into its three obligations. *)
Ltac answer b h :=
  exists b, h; split; [reflexivity | split; [| split]].

Lemma restores_now (rows cols : Z) (h : store) (b : bool) :
  shaped rows cols (visited h) -> restores rows cols h (Some (b, h)).
Proof. intros Hs. answer b h; auto. Qed.

Lemma shaped_fresh (rows cols : Z) :
  0 <= rows -> 0 <= cols -> shaped rows cols (fresh_visited rows cols).
Proof.
  intros Hr Hc. unfold shaped, fresh_visited. split.
  - rewrite length_replicate. lia.
  - apply Forall_replicate. rewrite length_replicate. lia.
Qed.

Lemma shaped_mark (rows cols row col : Z) (b : bool) (h : store) :
  shaped rows cols (visited h) -> shaped rows cols (visited (mark row col b h)).
Proof.
  intros [Hlen Hall]. unfold mark; simpl. split.
  - rewrite length_alter. exact Hlen.
  - apply Forall_alter; [exact Hall |].
    intros r _ Hr. rewrite length_insert. exact Hr.
Qed.

(** Clearing a cell that was clear before it was set gives back the
    array. *)
Lemma unmark (row col : Z) (h : store) :
  visited_at h row col = false ->
  visited (mark row col false (mark row col true h)) = visited h.
Proof.
  unfold visited_at, mark; simpl. intros Hclear.
  rewrite list_alter_alter_eq.
  apply list_eq. intros i.
  destruct (decide (i = Z.to_nat row)) as [-> | Hne].
  - rewrite list_lookup_alter_eq.
    destruct (visited h !! Z.to_nat row) as [r |]; [| reflexivity].
    simpl. f_equal. rewrite list_insert_insert_eq.
    destruct (r !! Z.to_nat col) as [c |] eqn:Hcell.
    + subst c. apply list_insert_id. exact Hcell.
    + apply list_insert_ge. apply lookup_ge_None. exact Hcell.
  - apply list_lookup_alter_ne. auto.
Qed.

Lemma try_directions_restores (rows cols : Z)
    (call : Z -> Z -> nat -> store -> option (bool * store)) (index : nat) :
  (forall row col h, shaped rows cols (visited h) ->
                     restores rows cols h (call row col (index + 1)%nat h)) ->
  forall dirs row col h,
    shaped rows cols (visited h) ->
    restores rows cols h (try_directions call dirs row col index h).
Proof.
  intros Hcall dirs. induction dirs as [| [dr dc] rest IH]; intros row col h Hs.
  - apply restores_now. exact Hs.
  - simpl.
    destruct (Hcall (row + dr) (col + dc) h Hs) as (b & h1 & -> & Hp & Hs1 & Hv).
    destruct b.
    + answer true h1; auto; discriminate.
    + destruct (IH row col h1 Hs1) as (b2 & h2 & -> & Hp2 & Hs2 & Hv2).
      answer b2 h2; auto.
      * congruence.
      * intros Hb. rewrite (Hv2 Hb). auto.
Qed.

Lemma dfs_restores (searchStr : string) (rows cols : Z) :
  forall (fuel index : nat),
    (index <= String.length searchStr < fuel + index)%nat ->
    forall row col h,
      shaped rows cols (visited h) ->
      restores rows cols h (dfs searchStr rows cols fuel row col index h).
Proof.
  induction fuel as [| fuel IH]; intros index Hfuel row col h Hs; [lia |].
  cbn [dfs].
  destruct (Nat.eqb_spec index (String.length searchStr)) as [Hend | Hmore];
    [apply restores_now; exact Hs |].
  destruct ((row <? 0) || (row >=? rows) || (col <? 0) || (col >=? cols)
            || visited_at h row col) eqn:Hguard;
    [apply restores_now; exact Hs |].
  destruct (negb (same_char (puzzle_at h row col) (char_at searchStr index)));
    [apply restores_now; exact Hs |].
  apply orb_false_elim in Hguard as [_ Hclear].
  pose proof (shaped_mark rows cols row col true h Hs) as Hs1.
  assert (Hcall : forall r c h0, shaped rows cols (visited h0) ->
            restores rows cols h0 (dfs searchStr rows cols fuel r c (index + 1)%nat h0))
    by (intros r c h0 Hs0; apply IH; [lia | exact Hs0]).
  destruct (try_directions_restores rows cols _ index Hcall directions row col
              (mark row col true h) Hs1) as (b & h' & -> & Hp & Hs' & Hv).
  destruct b.
  - answer true h'; auto; discriminate.
  - answer false (mark row col false h').
    + simpl. exact Hp.
    + apply shaped_mark. exact Hs'.
    + intros _. rewrite <- (unmark row col h Hclear).
      unfold mark at 1 3; simpl. rewrite (Hv eq_refl). reflexivity.
Qed.

Lemma scan_cols_restores (searchStr : string) (rows cols : Z) (i : Z) :
  forall (n : nat) (j : Z) (h : store),
    shaped rows cols (visited h) ->
    restores rows cols h
      (scan_cols searchStr rows cols (S (String.length searchStr)) i n j h).
Proof.
  induction n as [| n IH]; intros j h Hs; [apply restores_now; exact Hs |].
  cbn [scan_cols].
  destruct (dfs_restores searchStr rows cols (S (String.length searchStr)) 0
              ltac:(lia) i j h Hs) as (b & h1 & -> & Hp & Hs1 & Hv).
  destruct b.
  - answer true h1; auto; discriminate.
  - destruct (IH (j + 1) h1 Hs1) as (b2 & h2 & -> & Hp2 & Hs2 & Hv2).
    answer b2 h2; auto; [congruence |].
    intros Hb. rewrite (Hv2 Hb). auto.
Qed.

Lemma scan_rows_restores (searchStr : string) (rows cols : Z) :
  forall (n : nat) (i : Z) (h : store),
    shaped rows cols (visited h) ->
    restores rows cols h
      (scan_rows searchStr rows cols (S (String.length searchStr)) n i h).
Proof.
  induction n as [| n IH]; intros i h Hs; [apply restores_now; exact Hs |].
  cbn [scan_rows].
  destruct (scan_cols_restores searchStr rows cols i (Z.to_nat cols) 0 h Hs)
    as (b & h1 & -> & Hp & Hs1 & Hv).
  destruct b.
  - answer true h1; auto; discriminate.
  - destruct (IH (i + 1) h1 Hs1) as (b2 & h2 & -> & Hp2 & Hs2 & Hv2).
    answer b2 h2; auto; [congruence |].
    intros Hb. rewrite (Hv2 Hb). auto.
Qed.

(** C8: [findStringInSnakingPuzzle] always completes, and when it returns
    the puzzle in the store is the argument it was given (it throws only
    on an empty puzzle); and every call of [dfs] on a [visited] array
    of the right shape, with the fuel the function gives it, ends, leaves
    the puzzle as it is and, when it answers [false], leaves [visited]
    equal to what it was on entry. *)
Theorem dfs_restores_visited :
  (forall (p : list string) (searchStr : string),
      match findStringInSnakingPuzzle p searchStr with
      | Some (Return (_, h')) => puzzle h' = p
      | Some (Throw _) => p = []
      | None => False
      end) /\
  (forall (searchStr : string) (rows cols row col : Z) (index : nat) (h : store),
      shaped rows cols (visited h) ->
      (index <= String.length searchStr)%nat ->
      exists (b : bool) (h' : store),
        dfs searchStr rows cols (S (String.length searchStr - index)) row col index h
        = Some (b, h') /\
        puzzle h' = puzzle h /\
        (b = false -> visited h' = visited h)).
Proof.
  split.
  - intros p searchStr. unfold findStringInSnakingPuzzle.
    destruct p as [| first rest]; [reflexivity |].
    set (p := first :: rest).
    set (h := {| puzzle := p; visited := fresh_visited (Z.of_nat (length p)) (len first) |}).
    assert (Hs : shaped (Z.of_nat (length p)) (len first) (visited h))
      by (apply shaped_fresh; unfold len; lia).
    destruct (scan_rows_restores searchStr (Z.of_nat (length p)) (len first)
                (Z.to_nat (Z.of_nat (length p))) 0 h Hs)
      as (b & h' & -> & Hp & _ & _).
    exact Hp.
  - intros searchStr rows cols row col index h Hs Hidx.
    destruct (dfs_restores searchStr rows cols
                (S (String.length searchStr - index)) index ltac:(lia) row col h Hs)
      as (b & h' & Heq & Hp & _ & Hv).
    exists b, h'. auto.
Qed.

(** A failing branch on the 2 x 2 puzzle AB/CD: the path A, B, D is
    entered and abandoned. *)
Lemma dfs_restores_visited_witness :
  let h := {| puzzle := ["AB"; "CD"]%string; visited := fresh_visited 2 2 |} in
  exists (b : bool) (h' : store),
    dfs "ABDX" 2 2 (S (String.length "ABDX" - 0)) 0 0 0 h = Some (b, h') /\
    puzzle h' = puzzle h /\
    (b = false -> visited h' = visited h).
Proof.
  intros h.
  apply (proj2 dfs_restores_visited "ABDX"%string 2 2 0 0 0%nat h).
  - unfold shaped. split; [reflexivity |]. repeat constructor.
  - simpl. lia.
Defined.

(** *** The loop of [from_num], one round at a time *)

Lemma from_num_pos (num : Z) (short : string) :
  0 < num -> from_num num short = from_num (Z.quot num base) (push_digit num short).
Proof.
  intros Hpos. rewrite from_num_equation_1.
  destruct (Z_lt_dec 0 num); [reflexivity | lia].
Qed.

Lemma from_num_nonpos (num : Z) (short : string) :
  num <= 0 -> from_num num short = short.
Proof.
  intros Hle. rewrite from_num_equation_1.
  destruct (Z_lt_dec 0 num); [lia | reflexivity].
Qed.

(** *** [indexOf] and indexing are inverse on the characters found *)

Lemma index_from_range (c : ascii) (s : string) :
  forall i, index_from i c s = -1 \/ i <= index_from i c s < i + len s.
Proof.
  unfold len. induction s as [| d rest IH]; intros i.
  - left. reflexivity.
  - change (index_from i c (String d rest))
      with (if Ascii.eqb d c then i else index_from (i + 1) c rest).
    change (String.length (String d rest)) with (S (String.length rest)).
    destruct (Ascii.eqb d c); [right; lia |].
    destruct (IH (i + 1)) as [-> | ?]; [left; reflexivity | right; lia].
Qed.

Lemma index_of_char_lt (c : ascii) (s : string) : index_of_char c s < len s.
Proof.
  unfold index_of_char. pose proof (Nat2Z.is_nonneg (String.length s)).
  fold (len s) in H. destruct (index_from_range c s 0); lia.
Qed.

Lemma get_index_from (c : ascii) (s : string) :
  forall i, 0 <= i -> index_from i c s <> -1 ->
            String.get (Z.to_nat (index_from i c s - i)) s = Some c.
Proof.
  induction s as [| d rest IH]; intros i Hi.
  - intros Hne. exfalso. apply Hne. reflexivity.
  - change (index_from i c (String d rest))
      with (if Ascii.eqb d c then i else index_from (i + 1) c rest).
    destruct (Ascii.eqb_spec d c) as [-> | Hne]; intros Hfound.
    + replace (i - i) with 0 by lia. reflexivity.
    + destruct (index_from_range c rest (i + 1)) as [? | Hrange]; [contradiction |].
      replace (Z.to_nat (index_from (i + 1) c rest - i))
        with (S (Z.to_nat (index_from (i + 1) c rest - (i + 1)))) by lia.
      apply IH; [lia | assumption].
Qed.

Lemma char_at_index_of_char (c : ascii) (s : string) :
  0 <= index_of_char c s -> char_atZ s (index_of_char c s) = Some c.
Proof.
  unfold char_atZ, char_at, index_of_char. intros Hfound.
  destruct (Z.ltb_spec (index_from 0 c s) 0) as [? | _]; [lia |].
  pose proof (get_index_from c s 0) as Hget.
  rewrite Z.sub_0_r in Hget. apply Hget; lia.
Qed.

(** One round of the rendering loop undoes one round of the reading
    loop, provided the character read is in the alphabet. *)
Lemma from_num_step (num : Z) (c : ascii) (short : string) :
  0 <= num -> 0 <= index_of_char c urlAllowedChars ->
  0 < num * base + index_of_char c urlAllowedChars ->
  from_num (num * base + index_of_char c urlAllowedChars) short
  = from_num num (String c short).
Proof.
  intros Hnum Hidx Hpos.
  pose proof (index_of_char_lt c urlAllowedChars) as Hlt. fold base in Hlt.
  rewrite from_num_pos by assumption.
  assert (Hb : 0 < base) by exact eq_refl.
  assert (Hrem : Z.rem (num * base + index_of_char c urlAllowedChars) base
                 = index_of_char c urlAllowedChars).
  { rewrite Z.rem_mod_nonneg by lia.
    rewrite Z.add_comm, Z.mod_add by lia. apply Z.mod_small. lia. }
  assert (Hquot : Z.quot (num * base + index_of_char c urlAllowedChars) base = num).
  { rewrite Z.quot_div_nonneg by lia.
    rewrite Z.add_comm, Z.div_add by lia.
    rewrite Z.div_small by lia. lia. }
  unfold push_digit. rewrite Hrem, Hquot.
  rewrite char_at_index_of_char by assumption. reflexivity.
Qed.

Lemma to_num_cons (num : Z) (c : ascii) (rest : string) :
  to_num num (String c rest)
  = to_num (num * base + index_of_char c urlAllowedChars) rest.
Proof. reflexivity. Qed.

Lemma over_alphabet_cons (c : ascii) (rest : string) :
  over_alphabet (String c rest) = true ->
  0 <= index_of_char c urlAllowedChars /\ over_alphabet rest = true.
Proof.
  change (over_alphabet (String c rest))
    with ((0 <=? index_of_char c urlAllowedChars) && over_alphabet rest).
  intros H. apply andb_prop in H as [Hc Hrest].
  split; [apply Z.leb_le |]; assumption.
Qed.

Lemma from_num_to_num (s : string) :
  forall (num : Z) (short : string),
    over_alphabet s = true -> 0 < num ->
    from_num (to_num num s) short = from_num num (s ++ short)%string.
Proof.
  induction s as [| c rest IH]; intros num short Hs Hpos.
  - reflexivity.
  - apply over_alphabet_cons in Hs as [Hc Hrest].
    assert (Hb : 0 < base) by exact eq_refl.
    rewrite to_num_cons, IH by (assumption || nia).
    change (String c rest ++ short)%string with (String c (rest ++ short)).
    apply from_num_step; nia.
Qed.

Lemma append_empty (s : string) : (s ++ "")%string = s.
Proof.
  induction s as [| c r IH]; [reflexivity |].
  change (String c r ++ "")%string with (String c (r ++ "")).
  now rewrite IH.
Qed.

Lemma decode_fixed (s : string) :
  over_alphabet s = true -> no_leading_zero s = true -> decode s = s.
Proof.
  unfold decode. destruct s as [| c rest]; intros Hs Hz.
  - apply from_num_nonpos. change (to_num 0 "") with 0. lia.
  - apply over_alphabet_cons in Hs as [Hc Hrest].
    change (negb (index_of_char c urlAllowedChars =? 0) = true) in Hz.
    apply negb_true_iff, Z.eqb_neq in Hz.
    rewrite to_num_cons, from_num_to_num by (assumption || lia).
    rewrite from_num_step by lia.
    rewrite from_num_nonpos by lia.
    rewrite append_empty. reflexivity.
Qed.

Lemma alphabet_size : base = 84.
Proof. reflexivity. Qed.

(** C1, as stated, fails: the string "A" is drawn from the alphabet,
    [encode] maps it to "A", and [decode] maps that to the empty string,
    because the numeral reading drops the digits of index 0 in front. *)
Lemma decode_encode_leading_A :
  over_alphabet "A" = true /\
  encode "A" = "A"%string /\
  decode (encode "A") = ""%string /\
  decode (encode "A") <> "A"%string.
Proof. vm_compute. repeat split; discriminate. Qed.

(** C1, amended: the alphabet has 84 characters, and for every string
    [s] over it that does not start with 'A', the character of index 0
    (the empty string included), [decode (encode s)] is [s]. *)
Theorem decode_encode_roundtrip (s : string) :
  over_alphabet s = true -> no_leading_zero s = true ->
  base = 84 /\ decode (encode s) = s.
Proof.
  intros Hs Hz. split; [reflexivity |].
  unfold encode. fold (decode s). rewrite (decode_fixed s Hs Hz).
  destruct s as [| c rest].
  - vm_compute. reflexivity.
  - unfold or_first. change (String c rest =? "")%string with false.
    apply decode_fixed; assumption.
Qed.

Lemma decode_encode_roundtrip_witness :
  base = 84 /\
  decode (encode "https://en.wikipedia.org/wiki/URL_shortening")
  = "https://en.wikipedia.org/wiki/URL_shortening"%string.
Proof.
  apply (decode_encode_roundtrip "https://en.wikipedia.org/wiki/URL_shortening");
    vm_compute; reflexivity.
Defined.

End Katas3.

(** ** Katas 1: the compass points and the range rendering *)

Module Katas1.
Import JS.

(** *** createCompassPoints *)

Record point : Type := Point {
  abbreviation : string;
  azimuth : Q
}.

Definition names : list (list string) :=
  [ [""; "b"; ""; "b"];
    ["N"; "N"; "NE"; "E"];
    ["E"; "N"; "E"; "E"];
    ["S"; "S"; "SE"; "E"];
    ["W"; "S"; "W"; "W"] ]%string.

(** [names[i][j]] as an operand of [+]; the loops keep [i] and [j]
    inside the table. *)
Definition names_at (i j : nat) : string :=
  match names !! i with
  | Some row => match row !! j with Some s => s | None => "undefined" end
  | None => "undefined"
  end.

(** The body of the inner loop: [points[idx] = {...}] with
    [idx = i * 4 + j]; 11.25 is 45/4. *)
Definition put_point (i : nat) (points : array point) (j : nat) : array point :=
  let idx := (i * 4 + j)%nat in
  array_set points idx
    {| abbreviation := (names_at 0 j ++ names_at (i + 1) j)%string;
       azimuth := Qred (inject_Z (Z.of_nat idx) * (45 # 4)) |}.

(** [for (let i = 0; i < 4; i++) for (let j = 0; j < 4; j++) ...],
    started on the empty array. *)
Definition filled_points : array point :=
  fold_left (fun points i => fold_left (put_point i) (seq 0 4) points) (seq 0 4) [].

(** [points[idx].abbreviation = s]: writing a property of [undefined]
    throws. *)
Definition set_abbreviation (idx : nat) (s : string) (points : array point)
  : completion (array point) :=
  match points !! idx with
  | Some (Some p) =>
      Return (<[idx := Some {| abbreviation := s; azimuth := azimuth p |}]> points)
  | _ => Throw "TypeError: Cannot set properties of undefined (setting 'abbreviation')"
  end.

Definition createCompassPoints : completion (array point) :=
  bind (set_abbreviation 4 "E" filled_points) (fun points =>
  bind (set_abbreviation 12 "S" points) (fun points =>
  set_abbreviation 20 "W" points)).

(** *** extractRanges *)

(** The variables of the loop. *)
Record ranges_state : Type := RangesState {
  result : list string;
  start : Z;
  prev : Z
}.

(** The three template strings pushed on [result].  A number that holds
    an integer of magnitude below 10^21 is printed with all its digits,
    as [pretty] does. *)
Definition piece (start prev : Z) : string :=
  if start =? prev then pretty start
  else if num_sub prev start =? 1 then (pretty start ++ "," ++ pretty prev)%string
  else (pretty start ++ "-" ++ pretty prev)%string.

(** [nums[i]] where the source has tested [i < nums.length]. *)
Definition num_at (nums : list Z) (i : nat) : Z := default 0 (nums !! i).

(** [nums[i] !== prev + 1]; [undefined] differs from every number. *)
Definition differs (x : option Z) (y : Z) : bool :=
  match x with
  | Some v => negb (v =? y)
  | None => true
  end.

(** One round of the loop, for the index [i]. *)
Definition ranges_round (nums : list Z) (st : ranges_state) (i : nat) : ranges_state :=
  if (i =? length nums)%nat || differs (nums !! i) (num_add (prev st) 1) then
    let pushed := result st ++ [piece (start st) (prev st)] in
    if (i <? length nums)%nat
    then {| result := pushed; start := num_at nums i; prev := num_at nums i |}
    else {| result := pushed; start := start st; prev := prev st |}
  else {| result := result st; start := start st; prev := num_at nums i |}.

Definition extractRanges (nums : list Z) : string :=
  if (length nums =? 0)%nat then ""
  else
    let st := {| result := []; start := num_at nums 0; prev := num_at nums 0 |} in
    (* for (let i = 1; i <= nums.length; i++) *)
    let final := fold_left (ranges_round nums) (seq 1 (length nums)) st in
    String.concat "," (result final).

(** *** The rendering the specification describes

    These definitions follow the words of the specification, not the
    code: the list is cut into its maximal runs of consecutive integers,
    and each run is written according to its length. *)

(** The maximal runs of consecutive integers of a list, from the right:
    an element joins the run that follows it when that run starts with
    its successor, and starts a run of its own otherwise. *)
Fixpoint maximal_runs (l : list Z) : list (list Z) :=
  match l with
  | [] => []
  | x :: rest =>
      match maximal_runs rest with
      | (y :: run) :: runs =>
          if y =? x + 1 then (x :: y :: run) :: runs
          else [x] :: (y :: run) :: runs
      | _ => [[x]]
      end
  end.

(** Every element of [l] but the first is the successor of the one
    before it. *)
Fixpoint consecutive (l : list Z) : Prop :=
  match l with
  | x :: (y :: _) as rest => y = x + 1 /\ consecutive rest
  | _ => True
  end.

(** No run can be extended by the run that follows it. *)
Fixpoint separated (runs : list (list Z)) : Prop :=
  match runs with
  | r1 :: (r2 :: _) as rest =>
      (forall a b, last r1 = Some a -> head r2 = Some b -> b <> a + 1) /\
      separated rest
  | _ => True
  end.

(** A run of one integer is written as it is, a run of two with a comma,
    a longer one as a dash range of its two ends. *)
Definition render_run (run : list Z) : string :=
  match run with
  | [] => ""
  | [a] => pretty a
  | [a; b] => (pretty a ++ "," ++ pretty b)%string
  | a :: b :: c :: more => (pretty a ++ "-" ++ pretty (List.last more c))%string
  end.

Definition render_ranges (nums : list Z) : string :=
  String.concat "," (map render_run (maximal_runs nums)).

(** The run [s, s + 1, ..., s + n]. *)
Fixpoint run_of (s : Z) (n : nat) : list Z :=
  match n with
  | O => [s]
  | S k => s :: run_of (s + 1) k
  end.

(** [walk start prev rest result]: the rounds of the loop that are left
    when [rest] is still to be read. *)
Fixpoint walk (start prev : Z) (rest : list Z) (result : list string) : list string :=
  match rest with
  | [] => result ++ [piece start prev]
  | y :: rest' =>
      if y =? prev + 1 then walk start y rest' result
      else walk y y rest' (result ++ [piece start prev])
  end.

(** *** The loop of [extractRanges] as a walk over the rest of the list *)

Lemma ranges_loop_walk (nums : list Z) :
  Forall safe_integer nums ->
  forall (rest read : list Z) (st : ranges_state),
    nums = read ++ rest ->
    safe_integer (prev st) ->
    result (fold_left (ranges_round nums) (seq (length read) (S (length rest))) st)
    = walk (start st) (prev st) rest (result st).
Proof.
  intros Hsafe.
  induction rest as [| y rest IH]; intros read st Hnums Hprev.
  - rewrite app_nil_r in Hnums. subst read. cbn [seq fold_left length walk].
    unfold ranges_round. rewrite Nat.eqb_refl, Nat.ltb_irrefl. reflexivity.
  - cbn [length]. rewrite <- cons_seq. cbn [fold_left walk].
    assert (Hysafe : safe_integer y).
    { rewrite List.Forall_forall in Hsafe. apply Hsafe. subst nums.
      apply in_or_app. right. left. reflexivity. }
    assert (Hnext : num_add (prev st) 1 = prev st + 1).
    { apply to_double_exact. unfold safe_integer in Hprev. lia. }
    assert (Hlen : (length read < length nums)%nat)
      by (subst nums; rewrite length_app; cbn [length]; lia).
    assert (Hy : nums !! length read = Some y)
      by (subst nums; apply list_lookup_middle; reflexivity).
    replace (S (length read)) with (length (read ++ [y]))
      by (rewrite length_app; cbn [length]; lia).
    unfold ranges_round, num_at. rewrite Hy, Hnext. cbn [differs default].
    destruct (Nat.eqb_spec (length read) (length nums)) as [? | _]; [lia |].
    destruct (Nat.ltb_spec (length read) (length nums)) as [_ | ?]; [| lia].
    cbn [orb].
    destruct (y =? prev st + 1); cbn [negb];
      (rewrite (IH (read ++ [y]));
       [reflexivity | rewrite <- app_assoc; exact Hnums | exact Hysafe]).
Qed.

Lemma extractRanges_walk (x : Z) (rest : list Z) :
  Forall safe_integer (x :: rest) ->
  extractRanges (x :: rest) = String.concat "," (walk x x rest []).
Proof.
  intros Hsafe. unfold extractRanges. cbn [length Nat.eqb]. f_equal.
  change (seq 1 (S (length rest))) with (seq (length [x]) (S (length rest))).
  rewrite (ranges_loop_walk (x :: rest) Hsafe rest [x]);
    [reflexivity | reflexivity |].
  cbn [prev num_at lookup list_lookup default].
  apply (List.Forall_inv Hsafe).
Qed.

(** *** The maximal runs are what their name says *)

Lemma maximal_runs_cons (x : Z) (rest : list Z) :
  exists run runs, maximal_runs (x :: rest) = (x :: run) :: runs.
Proof.
  cbn [maximal_runs]. destruct (maximal_runs rest) as [| [| y run] runs]; eauto.
  destruct (y =? x + 1); eauto.
Qed.

Lemma concat_maximal_runs (l : list Z) : concat (maximal_runs l) = l.
Proof.
  induction l as [| x rest IH]; [reflexivity |].
  destruct rest as [| y r]; [reflexivity |].
  destruct (maximal_runs_cons y r) as (run & runs & Hruns).
  change (maximal_runs (x :: y :: r))
    with (match maximal_runs (y :: r) with
          | (y' :: run') :: runs' =>
              if y' =? x + 1 then (x :: y' :: run') :: runs'
              else [x] :: (y' :: run') :: runs'
          | _ => [[x]]
          end).
  rewrite Hruns in IH |- *.
  destruct (y =? x + 1); cbn [concat app] in IH |- *; now rewrite IH.
Qed.

Lemma consecutive_maximal_runs (l : list Z) :
  Forall (fun run => run <> [] /\ consecutive run) (maximal_runs l).
Proof.
  induction l as [| x rest IH]; [constructor |].
  cbn [maximal_runs].
  destruct (maximal_runs rest) as [| [| y run] runs].
  - repeat constructor. discriminate.
  - repeat constructor. discriminate.
  - apply Forall_cons in IH as [[_ Hrun] Hruns].
    destruct (Z.eqb_spec y (x + 1)) as [-> | Hne].
    + constructor; [| exact Hruns]. split; [discriminate |].
      cbn [consecutive]. split; [reflexivity | exact Hrun].
    + constructor; [split; [discriminate | exact I] |].
      constructor; [split; [discriminate | exact Hrun] | exact Hruns].
Qed.

Lemma separated_maximal_runs (l : list Z) : separated (maximal_runs l).
Proof.
  induction l as [| x rest IH]; [exact I |].
  cbn [maximal_runs].
  destruct (maximal_runs rest) as [| [| y run] runs]; [exact I | exact I |].
  destruct (Z.eqb_spec y (x + 1)) as [-> | Hne].
  - destruct runs as [| r2 runs']; [exact I |].
    cbn [separated] in IH |- *. destruct IH as [Hsep Hrest].
    split; [| exact Hrest].
    intros a b Ha Hb. apply (Hsep a b); [| exact Hb].
    rewrite <- Ha. reflexivity.
  - change (separated ([x] :: (y :: run) :: runs))
      with ((forall a b, last [x] = Some a -> head (y :: run) = Some b -> b <> a + 1)
            /\ separated ((y :: run) :: runs)).
    split; [| exact IH].
    intros a b Ha Hb. cbn in Ha, Hb. congruence.
Qed.

(** *** The walk renders the maximal runs *)

Lemma run_of_head (s : Z) (n : nat) : exists tl, run_of s n = s :: tl.
Proof. destruct n; cbn [run_of]; eauto. Qed.

Lemma run_of_snoc (n : nat) :
  forall s, run_of s n ++ [s + Z.of_nat n + 1] = run_of s (S n).
Proof.
  induction n as [| n IH]; intros s.
  - cbn [run_of app]. do 2 f_equal. lia.
  - change (run_of s (S n)) with (s :: run_of (s + 1) n).
    change (run_of s (S (S n))) with (s :: run_of (s + 1) (S n)).
    rewrite <- IH. cbn [app]. do 3 f_equal. lia.
Qed.

Lemma run_of_last (n : nat) :
  forall s d, List.last (run_of s n) d = s + Z.of_nat n.
Proof.
  induction n as [| n IH]; intros s d.
  - cbn. lia.
  - change (run_of s (S n)) with (s :: run_of (s + 1) n).
    destruct (run_of_head (s + 1) n) as [tl Htl].
    rewrite Htl at 1. change (List.last (s :: (s + 1) :: tl) d)
      with (List.last ((s + 1) :: tl) d).
    rewrite <- Htl, IH. lia.
Qed.

Lemma last_cons_default (l : list Z) (d : Z) :
  List.last l d = List.last (d :: l) d.
Proof. destruct l; reflexivity. Qed.

Lemma render_run_of (s : Z) (n : nat) :
  render_run (run_of s n) = piece s (s + Z.of_nat n).
Proof.
  unfold piece, num_sub. rewrite to_double_eqb_one. destruct n as [| [| n]].
  - cbn [run_of render_run]. replace (s + Z.of_nat 0) with s by lia.
    rewrite Z.eqb_refl. reflexivity.
  - cbn [run_of render_run].
    destruct (Z.eqb_spec s (s + Z.of_nat 1)) as [? | _]; [lia |].
    destruct (Z.eqb_spec (s + Z.of_nat 1 - s) 1) as [_ | ?]; [| lia].
    do 3 f_equal.
  - change (run_of s (S (S n))) with (s :: (s + 1) :: run_of (s + 1 + 1) n).
    pose proof (run_of_last n (s + 1 + 1) (s + 1 + 1)) as Hlast.
    destruct (run_of_head (s + 1 + 1) n) as [tl Htl].
    rewrite Htl in Hlast |- *. rewrite <- last_cons_default in Hlast.
    cbn [render_run]. rewrite Hlast.
    destruct (Z.eqb_spec s (s + Z.of_nat (S (S n)))) as [? | _]; [lia |].
    destruct (Z.eqb_spec (s + Z.of_nat (S (S n)) - s) 1) as [? | _]; [lia |].
    do 3 f_equal. lia.
Qed.

(** A run followed by something that does not extend it is a maximal
    run of the whole. *)
Lemma maximal_runs_run_of (n : nat) :
  forall (s : Z) (l : list Z),
    (forall y, head l = Some y -> y <> s + Z.of_nat n + 1) ->
    maximal_runs (run_of s n ++ l) = run_of s n :: maximal_runs l.
Proof.
  induction n as [| n IH]; intros s l Hl.
  - cbn [run_of app]. destruct l as [| y r]; [reflexivity |].
    destruct (maximal_runs_cons y r) as (run & runs & Hruns).
    cbn [maximal_runs] in Hruns |- *. rewrite Hruns.
    destruct (Z.eqb_spec y (s + 1)) as [Heq | _]; [| reflexivity].
    exfalso. apply (Hl y); [reflexivity | lia].
  - change (run_of s (S n) ++ l) with (s :: (run_of (s + 1) n ++ l)).
    cbn [maximal_runs]. rewrite IH by (intros y Hy; specialize (Hl y Hy); lia).
    destruct (run_of_head (s + 1) n) as [tl Htl]. rewrite Htl.
    rewrite Z.eqb_refl. change (run_of s (S n)) with (s :: run_of (s + 1) n).
    rewrite Htl. reflexivity.
Qed.

Lemma walk_renders (rest : list Z) :
  forall (s : Z) (n : nat) (result : list string),
    walk s (s + Z.of_nat n) rest result
    = result ++ map render_run (maximal_runs (run_of s n ++ rest)).
Proof.
  induction rest as [| y rest IH]; intros s n result.
  - cbn [walk]. rewrite maximal_runs_run_of by discriminate.
    cbn [maximal_runs map]. rewrite render_run_of. reflexivity.
  - cbn [walk]. destruct (Z.eqb_spec y (s + Z.of_nat n + 1)) as [-> | Hne].
    + replace (s + Z.of_nat n + 1) with (s + Z.of_nat (S n)) by lia.
      rewrite IH. rewrite <- run_of_snoc, <- app_assoc.
      do 4 f_equal. cbn [app]. f_equal. lia.
    + replace y with (y + Z.of_nat 0) at 2 by lia.
      rewrite IH.
      rewrite (maximal_runs_run_of n s (y :: rest))
        by (intros ? [= <-]; exact Hne).
      cbn [map run_of app]. rewrite render_run_of, <- app_assoc. reflexivity.
Qed.

Lemma extractRanges_render (nums : list Z) :
  Forall safe_integer nums -> extractRanges nums = render_ranges nums.
Proof.
  intros Hsafe. destruct nums as [| x rest]; [reflexivity |].
  rewrite extractRanges_walk by exact Hsafe. unfold render_ranges.
  replace x with (x + Z.of_nat 0) at 2 by lia.
  rewrite walk_renders. reflexivity.
Qed.

(** C5, where the claim fails: 9007199254740994 and 9007199254740996 are
    not consecutive, and stand alone in the rendering the claim
    describes; but [prev + 1] is 9007199254740995, which is no double and
    is rounded to 9007199254740996, so that the loop takes the second for
    the successor of the first and writes the two as a range. *)
Lemma extractRanges_joins_rounded_neighbours :
  extractRanges [9007199254740994; 9007199254740996]
  = "9007199254740994-9007199254740996"%string /\
  maximal_runs [9007199254740994; 9007199254740996]
  = [[9007199254740994]; [9007199254740996]] /\
  String.concat "," (map render_run (maximal_runs [9007199254740994; 9007199254740996]))
  = "9007199254740994,9007199254740996"%string.
Proof. repeat split; vm_compute; reflexivity. Qed.

(** C5: for every list of safe integers (of magnitude below 2^53;
    strictly increasing or not), [extractRanges] is the comma-joined
    rendering of the maximal runs of consecutive integers of the list:
    these runs are consecutive, cannot be extended and make up the list;
    a run of three or more is written as a dash range, a run of two as
    its two integers, a single integer as itself.  The four lists of the
    specification give the four strings it names. *)
Theorem extractRanges_renders_maximal_runs :
  (forall nums : list Z,
      Forall safe_integer nums ->
      extractRanges nums = String.concat "," (map render_run (maximal_runs nums)) /\
      concat (maximal_runs nums) = nums /\
      Forall (fun run => run <> [] /\ consecutive run) (maximal_runs nums) /\
      separated (maximal_runs nums)) /\
  (forall a b c more,
      render_run (a :: b :: c :: more)
      = (pretty a ++ "-" ++ pretty (List.last more c))%string) /\
  (forall a b, render_run [a; b] = (pretty a ++ "," ++ pretty b)%string) /\
  (forall a, render_run [a] = pretty a) /\
  extractRanges [0; 1; 2; 3; 4; 5] = "0-5"%string /\
  extractRanges [1; 4; 5] = "1,4,5"%string /\
  extractRanges [0; 1; 2; 5; 7; 8; 9] = "0-2,5,7-9"%string /\
  extractRanges [1; 2; 4; 5] = "1,2,4,5"%string.
Proof.
  split; [| repeat split; vm_compute; reflexivity].
  intros nums Hsafe. split; [apply extractRanges_render; exact Hsafe |].
  split; [apply concat_maximal_runs |].
  split; [apply consecutive_maximal_runs | apply separated_maximal_runs].
Qed.

Lemma extractRanges_renders_maximal_runs_witness :
  Forall safe_integer [-3; -2; -1; 5; 7; 8] /\
  extractRanges [-3; -2; -1; 5; 7; 8]
  = String.concat "," (map render_run (maximal_runs [-3; -2; -1; 5; 7; 8])).
Proof.
  assert (H : Forall safe_integer [-3; -2; -1; 5; 7; 8])
    by (repeat constructor; exact eq_refl).
  split; [exact H |].
  apply (proj1 extractRanges_renders_maximal_runs [-3; -2; -1; 5; 7; 8] H).
Defined.

(** C10: on the empty list [extractRanges] returns the empty string. *)
Theorem extractRanges_empty : extractRanges [] = ""%string.
Proof. reflexivity. Qed.

(** C2: the call does not return 32 records.  The two loops fill the
    indices 0 to 15 only, with abbreviations that are not those of the
    compass (index 1 is "bN", not "NbE"), and the assignment to
    [points[20].abbreviation] then throws. *)
Theorem createCompassPoints_throws :
  createCompassPoints
  = Throw "TypeError: Cannot set properties of undefined (setting 'abbreviation')" /\
  length filled_points = 16%nat /\
  filled_points !! 20%nat = None /\
  map (option_map abbreviation) filled_points
  = map Some ["N"; "bN"; "NE"; "bE"; "E"; "bN"; "E"; "bE";
              "S"; "bS"; "SE"; "bE"; "W"; "bS"; "W"; "bW"]%string.
Proof. vm_compute. repeat split; reflexivity. Qed.

End Katas1.

(** ** Objects: the CSS selector builder *)

Module Objects.
Import JS.

(** [this.parts] of a [CssSelector]; [null] is [None].  The methods
    update the object in place and return it, so a chain of calls is a
    chain of states. *)
Record CssSelector : Type := Parts {
  element : option string;
  id : option string;
  classes : list string;
  attrs : list string;
  pseudoClasses : list string;
  pseudoElement : option string
}.

(** [new CssSelector()] *)
Definition new_CssSelector : CssSelector :=
  {| element := None; id := None; classes := []; attrs := [];
     pseudoClasses := []; pseudoElement := None |}.

Definition once_only : string :=
  "Element, id and pseudo-element should be selected only once".

Definition set_element (value : string) (this : CssSelector) : completion CssSelector :=
  if truthy (element this) then Throw once_only
  else Return {| element := Some value; id := id this; classes := classes this;
                 attrs := attrs this; pseudoClasses := pseudoClasses this;
                 pseudoElement := pseudoElement this |}.

Definition set_id (value : string) (this : CssSelector) : completion CssSelector :=
  if truthy (id this) then Throw once_only
  else Return {| element := element this; id := Some ("#" ++ value)%string;
                 classes := classes this; attrs := attrs this;
                 pseudoClasses := pseudoClasses this;
                 pseudoElement := pseudoElement this |}.

Definition add_class (value : string) (this : CssSelector) : completion CssSelector :=
  Return {| element := element this; id := id this;
            classes := classes this ++ [("." ++ value)%string];
            attrs := attrs this; pseudoClasses := pseudoClasses this;
            pseudoElement := pseudoElement this |}.

Definition add_attr (value : string) (this : CssSelector) : completion CssSelector :=
  Return {| element := element this; id := id this; classes := classes this;
            attrs := attrs this ++ [("[" ++ value ++ "]")%string];
            pseudoClasses := pseudoClasses this;
            pseudoElement := pseudoElement this |}.

Definition add_pseudoClass (value : string) (this : CssSelector) : completion CssSelector :=
  Return {| element := element this; id := id this; classes := classes this;
            attrs := attrs this;
            pseudoClasses := pseudoClasses this ++ [(":" ++ value)%string];
            pseudoElement := pseudoElement this |}.

Definition set_pseudoElement (value : string) (this : CssSelector) : completion CssSelector :=
  if truthy (pseudoElement this) then Throw once_only
  else Return {| element := element this; id := id this; classes := classes this;
                 attrs := attrs this; pseudoClasses := pseudoClasses this;
                 pseudoElement := Some ("::" ++ value)%string |}.

(** [this.parts[key] || ''] *)
Definition or_empty (v : option string) : string :=
  match v with Some s => s | None => "" end.

(** [stringify]: the parts in the order of [this.order]. *)
Definition stringify (this : CssSelector) : string :=
  (or_empty (element this) ++ or_empty (id this) ++
   String.concat "" (classes this) ++ String.concat "" (attrs this) ++
   String.concat "" (pseudoClasses this) ++ or_empty (pseudoElement this))%string.

(** *** What a second call does *)

Lemma set_id_twice (v w : string) (this this' : CssSelector) :
  set_id v this = Return this' -> set_id w this' = Throw once_only.
Proof.
  unfold set_id. destruct (truthy (id this)); [discriminate |].
  intros [= <-]. reflexivity.
Qed.

Lemma set_pseudoElement_twice (v w : string) (this this' : CssSelector) :
  set_pseudoElement v this = Return this' ->
  set_pseudoElement w this' = Throw once_only.
Proof.
  unfold set_pseudoElement. destruct (truthy (pseudoElement this)); [discriminate |].
  intros [= <-]. reflexivity.
Qed.

Lemma set_element_twice (v w : string) (this this' : CssSelector) :
  v <> ""%string ->
  set_element v this = Return this' -> set_element w this' = Throw once_only.
Proof.
  unfold set_element. intros Hv. destruct (truthy (element this)); [discriminate |].
  intros [= <-]. cbn [element truthy].
  destruct (String.eqb_spec v "") as [? | _]; [contradiction | reflexivity].
Qed.

Lemma add_class_accumulates (v : string) (this : CssSelector) :
  exists this', add_class v this = Return this' /\
                classes this' = classes this ++ [("." ++ v)%string].
Proof. eexists. split; reflexivity. Qed.

Lemma add_attr_accumulates (v : string) (this : CssSelector) :
  exists this', add_attr v this = Return this' /\
                attrs this' = attrs this ++ [("[" ++ v ++ "]")%string].
Proof. eexists. split; reflexivity. Qed.

Lemma add_pseudoClass_accumulates (v : string) (this : CssSelector) :
  exists this', add_pseudoClass v this = Return this' /\
                pseudoClasses this' = pseudoClasses this ++ [(":" ++ v)%string].
Proof. eexists. split; reflexivity. Qed.

(** C7 fails for [element]: the test [if (this.parts.element)] is a test
    of truthiness, so an element set to the empty string counts as not
    set, and a second call replaces it instead of throwing. *)
Theorem element_twice_accepted :
  bind (set_element "" new_CssSelector) (set_element "div")
  = Return {| element := Some "div"%string; id := None; classes := [];
              attrs := []; pseudoClasses := []; pseudoElement := None |}.
Proof. reflexivity. Qed.

End Objects.

(** ** Katas 2: the bank account glyphs, the word wrap and the poker hands *)

Module Katas2.
Import JS.

(** *** parseBankAccount: the table of glyphs *)

Definition digitPatterns : list string :=
  [ " _ | ||_|";  (* 0 *)
    "   |  | ";   (* 1 *)
    " _  _||_ ";  (* 2 *)
    " _  _| _|";  (* 3 *)
    "   |_|  |";  (* 4 *)
    " _ |_| _|";  (* 5 *)
    " _ |_|_| ";  (* 6 *)
    " _   |  |";  (* 7 *)
    " _ |_||_|";  (* 8 *)
    " _ |_| _|"   (* 9 *)
  ]%string.

(** [a.indexOf(x)] on an array of strings: the first index whose element
    is [x], or -1; [i] is the index of the first element of [a]. *)
Fixpoint array_index_from (i : Z) (x : string) (a : list string) : Z :=
  match a with
  | [] => -1
  | y :: rest => if String.eqb y x then i else array_index_from (i + 1) x rest
  end.

Definition array_index_of (x : string) (a : list string) : Z :=
  array_index_from 0 x a.

(** [digitIndex !== -1 ? digitIndex : '?'], as the text appended to
    [result]. *)
Definition read_glyph (digit : string) : string :=
  let digitIndex := array_index_of digit digitPatterns in
  if digitIndex =? -1 then "?" else pretty digitIndex.

(** *** wrapText *)

(** [s.split(sep)] for a one-character separator. *)
Fixpoint split_on (sep : ascii) (s : string) : list string :=
  match s with
  | EmptyString => [EmptyString]
  | String c rest =>
      if Ascii.eqb c sep then EmptyString :: split_on sep rest
      else match split_on sep rest with
           | w :: ws => String c w :: ws
           | [] => [String c EmptyString]
           end
  end.

Definition space : ascii := " "%char.

(** A string is truthy when it is not empty. *)
Definition nonempty (s : string) : bool := negb (String.eqb s EmptyString).

(** The generator's variables: [currentLine] and the lines yielded so
    far. *)
Record wrap_state : Type := WrapState {
  currentLine : string;
  yielded : list string
}.

(** [if (currentLine) yield currentLine;] *)
Definition flush (st : wrap_state) : list string :=
  if nonempty (currentLine st) then yielded st ++ [currentLine st] else yielded st.

(** One round of [for (const word of words)]. *)
Definition wrap_round (columns : Z) (st : wrap_state) (word : string) : wrap_state :=
  if len (currentLine st) + len word + (if nonempty (currentLine st) then 1 else 0)
     <=? columns
  then {| currentLine := (currentLine st
                          ++ (if nonempty (currentLine st) then " " else "")
                          ++ word)%string;
          yielded := yielded st |}
  else {| currentLine := if len word <=? columns then word else EmptyString;
          yielded := flush st |}.

(** The lines [wrapText(text, columns)] yields, in order. *)
Definition wrapText (text : string) (columns : Z) : list string :=
  let words := split_on space text in
  flush (fold_left (wrap_round columns) words
                   {| currentLine := EmptyString; yielded := [] |}).

(** *** getPokerHandRank *)

(** A card carries a suit symbol (U+2660, U+2663, U+2665, U+2666)
    that is one UTF-16 code unit; cards and their parts are therefore
    sequences of code units. *)
Definition ustring : Type := list N.

(** An ASCII literal as code units. *)
Definition units (s : string) : ustring :=
  map N_of_ascii (list_ascii_of_string s).

(** [s.slice(0, -1)]: all but the last unit. *)
Definition slice_init (s : ustring) : ustring := take (length s - 1) s.

(** [s.slice(-1)]: the last unit, if any. *)
Definition slice_last (s : ustring) : ustring := drop (length s - 1) s.

Definition ustring_eqb (a b : ustring) : bool := bool_decide (a = b).

(** [a.startsWith(b)] *)
Fixpoint starts_with (a b : ustring) : bool :=
  match b, a with
  | [], _ => true
  | y :: b', x :: a' => N.eqb x y && starts_with a' b'
  | _ :: _, [] => false
  end.

(** [a.indexOf(b)]: the first position where [b] occurs in [a], [i]
    being the position of the first unit of [a]; -1 when there is
    none. *)
Fixpoint ustring_index_from (i : Z) (a b : ustring) : Z :=
  if starts_with a b then i
  else match a with
       | [] => -1
       | _ :: a' => ustring_index_from (i + 1) a' b
       end.

Definition ustring_index_of (a b : ustring) : Z := ustring_index_from 0 a b.

(** The decimal digit a code unit stands for. *)
Definition digit_of_unit (u : N) : option Z :=
  if (48 <=? u)%N && (u <=? 57)%N then Some (Z.of_N u - 48) else None.

(** The leading decimal digits of [s], read on top of [acc]. *)
Fixpoint read_digits (acc : Z) (s : ustring) : Z :=
  match s with
  | [] => acc
  | u :: rest =>
      match digit_of_unit u with
      | Some d => read_digits (acc * 10 + d) rest
      | None => acc
      end
  end.

(** [parseInt(s)] on a string without blanks or sign in front, which is
    all that reaches it here: the number its leading decimal digits
    write, [NaN] ([None]) when it starts with none. *)
Definition parseInt (s : ustring) : option Z :=
  match s with
  | [] => None
  | u :: _ =>
      match digit_of_unit u with
      | Some _ => Some (read_digits 0 s)
      | None => None
      end
  end.

(** ['23456789TJQKA'.indexOf(r) || (r === 'A' ? 13 : parseInt(r) - 1)];
    the left operand is falsy exactly when it is 0, and [None] is
    [NaN]. *)
Definition rank_value (r : ustring) : option Z :=
  let k := ustring_index_of (units "23456789TJQKA") r in
  if negb (k =? 0) then Some k
  else if ustring_eqb r (units "A") then Some 13
  else match parseInt r with
       | Some n => Some (n - 1)
       | None => None
       end.

(** [(a, b) => a - b], with [NaN] where an operand is [NaN]. *)
Definition difference (a b : option Z) : option Z :=
  match a, b with
  | Some x, Some y => Some (x - y)
  | _, _ => None
  end.

(** [values.sort((a, b) => a - b)]: the sort is stable, and a comparator
    result of [NaN] counts as 0; an element goes after those that do
    not compare greater than it. *)
Fixpoint sort_insert (x : option Z) (sorted : list (option Z)) : list (option Z) :=
  match sorted with
  | [] => [x]
  | y :: rest =>
      match difference x y with
      | Some d => if d <? 0 then x :: y :: rest else y :: sort_insert x rest
      | None => y :: sort_insert x rest
      end
  end.

Definition sort_numbers (values : list (option Z)) : list (option Z) :=
  fold_left (fun sorted x => sort_insert x sorted) values [].

(** [v === n] for a number [n]; [NaN] and [undefined] equal nothing. *)
Definition is_number (v : option Z) (n : Z) : bool :=
  match v with
  | Some x => x =? n
  | None => false
  end.

(** [v === w + 1] *)
Definition is_successor (v w : option Z) : bool :=
  match v, w with
  | Some x, Some y => x =? y + 1
  | _, _ => false
  end.

(** [a.every((v, i) => test v i)] *)
Definition every_indexed {A : Type} (test : A -> nat -> bool) (a : list A) : bool :=
  forallb (fun iv => test (snd iv) (fst iv)) (combine (seq 0 (length a)) a).

(** [a[i]] for an array of numbers: [None] also stands for a missing
    element, which like [NaN] equals no number. *)
Definition value_at (values : list (option Z)) (i : nat) : option Z :=
  match values !! i with
  | Some v => v
  | None => None
  end.

(** [rankCount[rank] = (rankCount[rank] || 0) + 1] for every rank. *)
Definition count_ranks (ranks : list ustring) : gmap ustring Z :=
  fold_left (fun (rankCount : gmap ustring Z) rank =>
               <[rank := default 0 (rankCount !! rank) + 1]> rankCount)
            ranks ∅.

(** [Math.max(...counts)]; with no argument the result is [-Infinity],
    here [None]. *)
Definition maximum (counts : list Z) : option Z :=
  match counts with
  | [] => None
  | c :: rest => Some (fold_left Z.max rest c)
  end.

Inductive PokerRank : Type :=
| StraightFlush | FourOfKind | FullHouse | Flush | Straight
| ThreeOfKind | TwoPairs | OnePair | HighCard.

(** The numbers of the [PokerRank] object. *)
Definition rank_number (r : PokerRank) : Z :=
  match r with
  | StraightFlush => 8 | FourOfKind => 7 | FullHouse => 6 | Flush => 5
  | Straight => 4 | ThreeOfKind => 3 | TwoPairs => 2 | OnePair => 1
  | HighCard => 0
  end.

Definition getPokerHandRank (hand : list ustring) : PokerRank :=
  let ranks := map slice_init hand in
  let suits := map slice_last hand in
  let rankCount := count_ranks ranks in
  let values := sort_numbers (map rank_value ranks) in
  let isFlush :=
    forallb (fun suit => match suits !! 0%nat with
                         | Some first => ustring_eqb suit first
                         | None => false
                         end) suits in
  let isStraight :=
    every_indexed (fun v i => (i =? 0)%nat || is_successor v (value_at values (i - 1)))
                  values
    || (is_number (value_at values 0) 0
        && every_indexed (fun v i => is_number v (Z.of_nat i + 1)) (drop 1 values)
        && is_number (value_at values 4) 12) in
  (* Object.values(rankCount): the order of the counts plays no part in
     what follows *)
  let counts := (map_to_list rankCount).*2 in
  let maxCount := maximum counts in
  if isFlush && isStraight then StraightFlush
  else if bool_decide (maxCount = Some 4) then FourOfKind
  else if bool_decide (maxCount = Some 3) && bool_decide (2 ∈ counts) then FullHouse
  else if isFlush then Flush
  else if isStraight then Straight
  else if bool_decide (maxCount = Some 3) then ThreeOfKind
  else if (length (List.filter (fun c => Z.eqb c 2) counts) =? 2)%nat then TwoPairs
  else if bool_decide (maxCount = Some 2) then OnePair
  else HighCard.

(** Cards written as in the source. *)
Definition spade : N := 9824.    (* U+2660 *)
Definition club : N := 9827.     (* U+2663 *)
Definition heart : N := 9829.    (* U+2665 *)
Definition diamond : N := 9830.  (* U+2666 *)

Definition card (rank : string) (suit : N) : ustring := units rank ++ [suit].

(** *** Words, and the invariant of the wrapping loop *)

(** The character [sep] does not occur in [w]. *)
Fixpoint free_of (sep : ascii) (w : string) : Prop :=
  match w with
  | EmptyString => True
  | String c rest => c <> sep /\ free_of sep rest
  end.

(** [w] is one of the space-separated words of [line]. *)
Definition word_of (w line : string) : Prop := In w (split_on space line).

(** [w] is a word worth placing: not empty and within the limit. *)
Definition placeable (columns : Z) (w : string) : Prop :=
  w <> EmptyString /\ len w <= columns.

(** What holds between two rounds of the loop, [seen] being the words
    read so far: the lines yielded and the current line are within the
    limit, and every placeable word read is on one of them. *)
Record wrap_inv (columns : Z) (seen : list string) (st : wrap_state) : Prop := {
  yielded_fit : forall line, In line (yielded st) -> len line <= columns;
  current_fits : currentLine st = EmptyString \/ len (currentLine st) <= columns;
  seen_placed : forall w, In w seen -> placeable columns w ->
      (exists line, In line (yielded st) /\ word_of w line) \/
      word_of w (currentLine st)
}.

(** *** Words and separators *)

Lemma split_on_cons (sep : ascii) (s : string) :
  exists w ws, split_on sep s = w :: ws.
Proof.
  destruct s as [| c rest]; cbn [split_on]; [eauto |].
  destruct (Ascii.eqb c sep); [eauto |].
  destruct (split_on sep rest); eauto.
Qed.

Lemma split_on_free (sep : ascii) (s : string) :
  Forall (free_of sep) (split_on sep s).
Proof.
  induction s as [| c rest IH]; cbn [split_on].
  - repeat constructor.
  - destruct (Ascii.eqb_spec c sep) as [-> | Hne].
    + constructor; [exact I | exact IH].
    + destruct (split_on sep rest) as [| w ws]; [repeat constructor; exact Hne |].
      apply Forall_cons in IH as [Hw Hws].
      constructor; [split; assumption | exact Hws].
Qed.

Lemma split_on_free_id (sep : ascii) (w : string) :
  free_of sep w -> split_on sep w = [w].
Proof.
  induction w as [| c rest IH]; intros Hfree; [reflexivity |].
  destruct Hfree as [Hne Hrest]. cbn [split_on].
  destruct (Ascii.eqb_spec c sep) as [? | _]; [contradiction |].
  rewrite (IH Hrest). reflexivity.
Qed.

Lemma split_on_app (sep : ascii) (a b : string) :
  split_on sep (a ++ String sep b)%string = split_on sep a ++ split_on sep b.
Proof.
  induction a as [| c rest IH].
  - change ("" ++ String sep b)%string with (String sep b).
    cbn [split_on app]. rewrite Ascii.eqb_refl. reflexivity.
  - change (String c rest ++ String sep b)%string
      with (String c (rest ++ String sep b)).
    cbn [split_on]. rewrite IH.
    destruct (Ascii.eqb c sep); [reflexivity |].
    destruct (split_on_cons sep rest) as (w & ws & ->). reflexivity.
Qed.

Lemma len_append (a b : string) : len (a ++ b)%string = len a + len b.
Proof.
  unfold len. induction a as [| c rest IH]; [reflexivity |].
  change (String c rest ++ b)%string with (String c (rest ++ b)).
  cbn [String.length]. lia.
Qed.

Lemma nonempty_false (s : string) : nonempty s = false -> s = EmptyString.
Proof.
  unfold nonempty. destruct (String.eqb_spec s EmptyString); [auto | discriminate].
Qed.

Lemma nonempty_true (s : string) : nonempty s = true -> s <> EmptyString.
Proof.
  unfold nonempty. destruct (String.eqb_spec s EmptyString); [discriminate | auto].
Qed.

(** *** The wrapping loop keeps its invariant *)

Lemma word_of_empty (w : string) : word_of w EmptyString -> w = EmptyString.
Proof. intros [<- | []]. reflexivity. Qed.

Lemma flush_spec (st : wrap_state) (line : string) :
  In line (flush st) <->
  In line (yielded st) \/ (line = currentLine st /\ currentLine st <> EmptyString).
Proof.
  unfold flush. destruct (nonempty (currentLine st)) eqn:Hne.
  - apply nonempty_true in Hne. rewrite in_app_iff. cbn [In].
    intuition (subst; auto).
  - apply nonempty_false in Hne. intuition congruence.
Qed.

Lemma wrap_round_inv (columns : Z) (seen : list string) (st : wrap_state)
      (word : string) :
  free_of space word ->
  wrap_inv columns seen st ->
  wrap_inv columns (seen ++ [word]) (wrap_round columns st word).
Proof.
  intros Hfree [Hy Hc Hs]. unfold wrap_round.
  destruct (Z.leb_spec (len (currentLine st) + len word
                        + (if nonempty (currentLine st) then 1 else 0)) columns)
    as [Hfit | Hover].
  - (* the word joins the current line *)
    destruct (nonempty (currentLine st)) eqn:Hne.
    + constructor; cbn [currentLine yielded].
      * exact Hy.
      * right. rewrite !len_append. change (len " ") with 1. lia.
      * intros w Hw Hp. apply in_app_iff in Hw as [Hw | [<- | []]].
        -- destruct (Hs w Hw Hp) as [? | Hcur]; [left; assumption | right].
           unfold word_of. change (" " ++ word)%string with (String space word).
           rewrite split_on_app. apply in_app_iff. left. exact Hcur.
        -- right. unfold word_of.
           change (" " ++ word)%string with (String space word).
           rewrite split_on_app, (split_on_free_id space word Hfree).
           apply in_app_iff. right. left. reflexivity.
    + apply nonempty_false in Hne. rewrite Hne in *.
      change (len "") with 0 in Hfit.
      constructor; cbn [currentLine yielded];
        change ("" ++ "" ++ word)%string with word.
      * exact Hy.
      * right. lia.
      * intros w Hw Hp. apply in_app_iff in Hw as [Hw | [<- | []]].
        -- destruct (Hs w Hw Hp) as [? | Hcur]; [left; assumption |].
           apply word_of_empty in Hcur. destruct Hp as [Hp _]. contradiction.
        -- right. unfold word_of. rewrite (split_on_free_id space word Hfree).
           left. reflexivity.
  - (* the current line is yielded, the word starts the next one *)
    constructor; cbn [currentLine yielded].
    + intros line Hline. apply flush_spec in Hline as [Hline | [-> Hne]].
      * apply Hy. exact Hline.
      * destruct Hc as [Hc | Hc]; [contradiction | exact Hc].
    + destruct (Z.leb_spec (len word) columns); [right; assumption | left; reflexivity].
    + intros w Hw Hp. apply in_app_iff in Hw as [Hw | [<- | []]].
      * left. destruct (Hs w Hw Hp) as [(line & Hline & Hword) | Hcur].
        -- exists line. split; [apply flush_spec; left; exact Hline | exact Hword].
        -- exists (currentLine st). split; [| exact Hcur].
           apply flush_spec. right. split; [reflexivity |].
           intros Hempty. rewrite Hempty in Hcur.
           apply word_of_empty in Hcur. destruct Hp as [Hp _]. contradiction.
      * right. destruct Hp as [_ Hp].
        destruct (Z.leb_spec (len word) columns) as [_ | ?]; [| lia].
        unfold word_of. rewrite (split_on_free_id space word Hfree).
        left. reflexivity.
Qed.

Lemma wrap_loop_inv (columns : Z) (words : list string) :
  forall (seen : list string) (st : wrap_state),
    Forall (free_of space) words ->
    wrap_inv columns seen st ->
    wrap_inv columns (seen ++ words) (fold_left (wrap_round columns) words st).
Proof.
  induction words as [| word words IH]; intros seen st Hfree Hinv.
  - rewrite app_nil_r. exact Hinv.
  - apply Forall_cons in Hfree as [Hword Hwords]. cbn [fold_left].
    replace (seen ++ word :: words) with ((seen ++ [word]) ++ words)
      by (rewrite <- app_assoc; reflexivity).
    apply IH; [exact Hwords |].
    apply wrap_round_inv; assumption.
Qed.

(** C4, as stated, fails: the word "enormous" of the text below is longer
    than the limit 5, and it is on no line that [wrapText] yields; the
    lines are "hi" and "yo". *)
Lemma wrapText_drops_long_word :
  In "enormous"%string (split_on space "hi enormous yo") /\
  wrapText "hi enormous yo" 5 = ["hi"; "yo"]%string /\
  ~ (exists line, In line (wrapText "hi enormous yo" 5) /\
                  word_of "enormous" line).
Proof.
  split; [vm_compute; auto |]. split; [vm_compute; reflexivity |].
  intros (line & Hline & Hword).
  change (wrapText "hi enormous yo" 5) with ["hi"; "yo"]%string in Hline.
  destruct Hline as [<- | [<- | []]]; vm_compute in Hword;
    intuition discriminate.
Qed.

(** C4, amended: for every text and column limit, every line that
    [wrapText] yields is within the limit, and every non-empty
    space-separated word of the text that is itself within the limit is
    a word of some yielded line.  A word longer than the limit is
    not placed. *)
Theorem wrapText_places_fitting_words (text : string) (columns : Z) :
  (forall line, In line (wrapText text columns) -> len line <= columns) /\
  (forall w, In w (split_on space text) ->
             w <> EmptyString -> len w <= columns ->
             exists line, In line (wrapText text columns) /\ word_of w line).
Proof.
  unfold wrapText.
  pose proof (wrap_loop_inv columns (split_on space text) []
                {| currentLine := EmptyString; yielded := [] |}
                (split_on_free space text)) as Hinv.
  cbn [app] in Hinv.
  destruct Hinv as [Hy Hc Hs].
  { constructor; cbn [currentLine yielded].
    - intros line [].
    - left. reflexivity.
    - intros w []. }
  set (final := fold_left (wrap_round columns) (split_on space text)
                          {| currentLine := EmptyString; yielded := [] |}) in *.
  split.
  - intros line Hline. apply flush_spec in Hline as [Hline | [-> Hne]].
    + apply Hy. exact Hline.
    + destruct Hc as [Hc | Hc]; [contradiction | exact Hc].
  - intros w Hw Hne Hlen.
    destruct (Hs w Hw (conj Hne Hlen)) as [(line & Hline & Hword) | Hcur].
    + exists line. split; [apply flush_spec; left; exact Hline | exact Hword].
    + exists (currentLine final). split; [| exact Hcur].
      apply flush_spec. right. split; [reflexivity |].
      intros Hempty. rewrite Hempty in Hcur.
      apply word_of_empty in Hcur. contradiction.
Qed.

Lemma wrapText_places_fitting_words_witness :
  exists line,
    In line (wrapText "The String global object is a constructor" 12) /\
    word_of "object" line.
Proof.
  apply (proj2 (wrapText_places_fitting_words
                  "The String global object is a constructor" 12) "object"%string).
  - vm_compute. auto 10.
  - discriminate.
  - vm_compute. discriminate.
Defined.

(** C9, as stated, fails: the entries 3 and 9 of the table differ. *)
Lemma digitPatterns_3_differs_from_9 :
  digitPatterns !! 3%nat = Some " _  _| _|"%string /\
  digitPatterns !! 9%nat = Some " _ |_| _|"%string /\
  digitPatterns !! 3%nat <> digitPatterns !! 9%nat.
Proof. repeat split. discriminate. Qed.

(** C9, amended: the entry that equals the entry 9 is the entry 5, and
    it is the only one; so [indexOf] answers 5 for the glyph of 9 and
    never answers 9. *)
Theorem digitPatterns_5_equals_9 :
  digitPatterns !! 5%nat = digitPatterns !! 9%nat /\
  (forall i, (i < 9)%nat -> digitPatterns !! i = digitPatterns !! 9%nat -> i = 5%nat) /\
  array_index_of " _ |_| _|" digitPatterns = 5 /\
  (forall glyph, array_index_of glyph digitPatterns <> 9).
Proof.
  split; [reflexivity |]. split; [| split; [reflexivity |]].
  - intros i Hi. do 9 (destruct i as [| i]; [vm_compute; try discriminate; auto |]).
    lia.
  - (* the glyph of 9 is met at index 5 first *)
    intros glyph. unfold array_index_of, digitPatterns. cbn [array_index_from].
    repeat match goal with
           | |- context [String.eqb ?a glyph] => destruct (String.eqb_spec a glyph)
           end; try (cbn; discriminate); congruence.
Qed.

Lemma digitPatterns_5_equals_9_witness :
  (5 < 9)%nat /\ 5%nat = 5%nat.
Proof.
  split; [lia |].
  apply (proj1 (proj2 digitPatterns_5_equals_9) 5%nat); [lia | reflexivity].
Defined.

(** The second test of [isStraight], written for the hand A, 2, 3, 4, 5,
    passes for no array of values: it asks the element of index 4 to be
    both 4 (as the element of index 3 of the slice) and 12. *)
Lemma ace_low_test_never_passes (values : list (option Z)) :
  is_number (value_at values 0) 0
  && every_indexed (fun v i => is_number v (Z.of_nat i + 1)) (drop 1 values)
  && is_number (value_at values 4) 12 = false.
Proof.
  destruct values as [| v0 [| v1 [| v2 [| v3 [| v4 rest]]]]];
    try (apply andb_false_r).
  unfold every_indexed, value_at. cbn [drop length seq combine forallb fst snd].
  cbn [lookup list_lookup].
  destruct v4 as [x |]; cbn [is_number]; [| rewrite !andb_false_r; reflexivity].
  destruct (Z.eqb_spec x 12) as [-> | _]; [| apply andb_false_r].
  cbn. rewrite !andb_false_r. reflexivity.
Qed.

(** C3: the ace-low straight flush is ranked [Flush], not
    [StraightFlush]: the rank 2 has index 0 in the rank string, which is
    falsy, so its value is taken from [parseInt] and is 1, the value of
    the rank 3; the sorted values are 1, 1, 2, 3, 12 and no straight is
    seen.  The hand 4 to 8 of hearts is ranked [StraightFlush]. *)
Theorem ace_low_straight_flush_is_ranked_flush :
  getPokerHandRank [card "A" spade; card "4" spade; card "3" spade;
                    card "5" spade; card "2" spade] = Flush /\
  getPokerHandRank [card "4" heart; card "5" heart; card "6" heart;
                    card "7" heart; card "8" heart] = StraightFlush /\
  rank_value (units "2") = Some 1 /\
  rank_value (units "3") = Some 1 /\
  sort_numbers (map rank_value [units "A"; units "4"; units "3"; units "5"; units "2"])
  = [Some 1; Some 1; Some 2; Some 3; Some 12].
Proof. vm_compute. repeat split; reflexivity. Qed.

End Katas2.

(** ** Yield: the merge of two sorted sequences *)

Module Yield.

(** A source of numbers: [s k] is what the call number [k] of [next()]
    on its iterator gives, [Some v] for [{value: v, done: false}] and
    [None] for [{done: true}].  A finite source answers [None] from
    some call on; an infinite one never does. *)
Definition source : Type := nat -> option Z.

(** The variables of the generator: the two results last read and the
    number of calls made so far on each iterator. *)
Record merge_state : Type := MergeState {
  val1 : option Z;
  val2 : option Z;
  calls1 : nat;
  calls2 : nat
}.

Section Merge.
Variables source1 source2 : source.

(** [let val1 = iter1.next(); let val2 = iter2.next();] *)
Definition merge_start : merge_state :=
  {| val1 := source1 0%nat; val2 := source2 0%nat; calls1 := 1; calls2 := 1 |}.

(** [yield val1.value; val1 = iter1.next();] *)
Definition advance1 (st : merge_state) : merge_state :=
  {| val1 := source1 (calls1 st); val2 := val2 st;
     calls1 := S (calls1 st); calls2 := calls2 st |}.

(** [yield val2.value; val2 = iter2.next();] *)
Definition advance2 (st : merge_state) : merge_state :=
  {| val1 := val1 st; val2 := source2 (calls2 st);
     calls1 := calls1 st; calls2 := S (calls2 st) |}.

(** One round of [while (!val1.done || !val2.done)]: the value
    yielded and the state in which the generator waits, or [None]
    when the loop is over and the generator is done. *)
Definition merge_step (st : merge_state) : option (Z * merge_state) :=
  match val1 st, val2 st with
  | None, None => None
  | None, Some b => Some (b, advance2 st)
  | Some a, None => Some (a, advance1 st)
  | Some a, Some b =>
      if a <=? b then Some (a, advance1 st) else Some (b, advance2 st)
  end.

(** The values obtained by asking the generator [n] times. *)
Fixpoint take_from (n : nat) (st : merge_state) : list Z :=
  match n with
  | O => []
  | S n' =>
      match merge_step st with
      | None => []
      | Some (v, st') => v :: take_from n' st'
      end
  end.

(** The first [n] elements of [mergeSortedSequences(source1, source2)]. *)
Definition mergeSortedSequences (n : nat) : list Z := take_from n merge_start.
End Merge.

(** Each value of the source is at most the one that follows it. *)
Definition ascending (s : source) : Prop :=
  forall k a b, s k = Some a -> s (S k) = Some b -> a <= b.

Definition infinite (s : source) : Prop := forall k, s k <> None.

(** The sources of the examples: 1, 3, 5, ... and 2, 4, 6, ... *)
Definition odd_numbers : source := fun k => Some (2 * Z.of_nat k + 1).
Definition even_numbers : source := fun k => Some (2 * Z.of_nat k + 2).

(** *** The invariant of the merging loop *)

(** [val1] and [val2] are the results of the last calls made. *)
Definition in_step (s1 s2 : source) (st : merge_state) : Prop :=
  (exists k, calls1 st = S k /\ val1 st = s1 k) /\
  (exists k, calls2 st = S k /\ val2 st = s2 k).

(** [x] is at most each of the values waiting in the state. *)
Definition below (x : Z) (st : merge_state) : Prop :=
  (forall a, val1 st = Some a -> x <= a) /\
  (forall b, val2 st = Some b -> x <= b).

Lemma in_step_start (s1 s2 : source) : in_step s1 s2 (merge_start s1 s2).
Proof. split; exists 0%nat; split; reflexivity. Qed.

Lemma merge_step_inv (s1 s2 : source) (st st' : merge_state) (v : Z) :
  ascending s1 -> ascending s2 ->
  in_step s1 s2 st ->
  merge_step s1 s2 st = Some (v, st') ->
  in_step s1 s2 st' /\ below v st' /\ (forall x, below x st -> x <= v).
Proof.
  intros Hasc1 Hasc2 [(k1 & Hc1 & Hv1) (k2 & Hc2 & Hv2)] Hstep.
  unfold merge_step in Hstep.
  destruct (val1 st) as [a |] eqn:Ha; destruct (val2 st) as [b |] eqn:Hb;
    [destruct (Z.leb_spec a b) as [Hle | Hlt] | | |];
    inversion Hstep; subst v st'; clear Hstep;
    unfold in_step, below, advance1, advance2; cbn [val1 val2 calls1 calls2];
    rewrite ?Ha, ?Hb, ?Hc1, ?Hc2.
  - (* both waiting, the first is yielded *)
    split; [split; eauto |]. split.
    + split.
      * intros a' Ha'. apply (Hasc1 k1 a a'); congruence.
      * intros b' [= <-]. exact Hle.
    + intros x [Hx _]. apply Hx. reflexivity.
  - (* both waiting, the second is yielded *)
    split; [split; eauto |]. split.
    + split.
      * intros a' [= <-]. lia.
      * intros b' Hb'. apply (Hasc2 k2 b b'); congruence.
    + intros x [_ Hx]. apply Hx. reflexivity.
  - (* the second source is done *)
    split; [split; eauto |]. split.
    + split; [| discriminate].
      intros a' Ha'. apply (Hasc1 k1 a a'); congruence.
    + intros x [Hx _]. apply Hx. reflexivity.
  - (* the first source is done *)
    split; [split; eauto |]. split.
    + split; [discriminate |].
      intros b' Hb'. apply (Hasc2 k2 b b'); congruence.
    + intros x [_ Hx]. apply Hx. reflexivity.
Qed.

Lemma take_from_sorted (s1 s2 : source) :
  ascending s1 -> ascending s2 ->
  forall (n : nat) (st : merge_state),
    in_step s1 s2 st ->
    Sorted Z.le (take_from s1 s2 n st) /\
    (forall x, below x st -> HdRel Z.le x (take_from s1 s2 n st)).
Proof.
  intros Hasc1 Hasc2. induction n as [| n IH]; intros st Hst.
  - split; [constructor | intros; constructor].
  - cbn [take_from]. destruct (merge_step s1 s2 st) as [[v st'] |] eqn:Hstep.
    + destruct (merge_step_inv s1 s2 st st' v Hasc1 Hasc2 Hst Hstep)
        as (Hst' & Hbelow & Hmin).
      destruct (IH st' Hst') as [Hsorted Hhd].
      split.
      * constructor; [exact Hsorted | apply Hhd; exact Hbelow].
      * intros x Hx. constructor. apply Hmin. exact Hx.
    + split; [constructor | intros; constructor].
Qed.

Lemma take_from_length (s1 s2 : source) :
  forall (n : nat) (st : merge_state), (length (take_from s1 s2 n st) <= n)%nat.
Proof.
  induction n as [| n IH]; intros st; cbn [take_from]; [cbn; lia |].
  destruct (merge_step s1 s2 st) as [[v st'] |]; cbn [length]; [| lia].
  specialize (IH st'). lia.
Qed.

(** With an infinite source the loop never stops, so every request is
    answered. *)
Lemma take_from_full (s1 s2 : source) :
  infinite s1 \/ infinite s2 ->
  forall (n : nat) (st : merge_state),
    in_step s1 s2 st -> length (take_from s1 s2 n st) = n.
Proof.
  intros Hinf. induction n as [| n IH]; intros st Hst; [reflexivity |].
  cbn [take_from].
  assert (Hnext : forall v st', merge_step s1 s2 st = Some (v, st') ->
                                in_step s1 s2 st').
  { intros v st' Hstep. destruct Hst as [(k1 & Hc1 & Hv1) (k2 & Hc2 & Hv2)].
    unfold merge_step in Hstep.
    destruct (val1 st) as [a |] eqn:Ha; destruct (val2 st) as [b |] eqn:Hb;
      [destruct (a <=? b) | | |]; inversion Hstep; subst;
      unfold in_step, advance1, advance2; cbn [val1 val2 calls1 calls2];
      rewrite ?Ha, ?Hb, ?Hc1, ?Hc2; split; eauto. }
  destruct (merge_step s1 s2 st) as [[v st'] |] eqn:Hstep.
  - cbn [length]. f_equal. apply IH. apply (Hnext v st'). reflexivity.
  - exfalso. destruct Hst as [(k1 & Hc1 & Hv1) (k2 & Hc2 & Hv2)].
    unfold merge_step in Hstep.
    destruct (val1 st) as [a |] eqn:Ha; destruct (val2 st) as [b |] eqn:Hb;
      [destruct (a <=? b) | | |]; try discriminate.
    destruct Hinf as [Hinf | Hinf].
    + apply (Hinf k1). congruence.
    + apply (Hinf k2). congruence.
Qed.

(** C6: for two ascending sources, finite or infinite, the first [n]
    elements of the merged sequence are obtained in [n] rounds of the
    loop at most, each making one call to one source; they are sorted
    in ascending order, they are at most [n], and exactly [n] when one
    of the sources is infinite. *)
Theorem merge_prefix_sorted (source1 source2 : source) (n : nat) :
  ascending source1 -> ascending source2 ->
  Sorted Z.le (mergeSortedSequences source1 source2 n) /\
  (length (mergeSortedSequences source1 source2 n) <= n)%nat /\
  (infinite source1 \/ infinite source2 ->
   length (mergeSortedSequences source1 source2 n) = n).
Proof.
  intros Hasc1 Hasc2. unfold mergeSortedSequences. split; [| split].
  - apply (take_from_sorted source1 source2 Hasc1 Hasc2 n).
    apply in_step_start.
  - apply take_from_length.
  - intros Hinf. apply take_from_full; [exact Hinf | apply in_step_start].
Qed.

Lemma ascending_odd_numbers : ascending odd_numbers.
Proof. intros k a b [= <-] [= <-]. lia. Qed.

Lemma ascending_even_numbers : ascending even_numbers.
Proof. intros k a b [= <-] [= <-]. lia. Qed.

(** The first ten elements of the merge of 1, 3, 5, ... and
    2, 4, 6, ... *)
Lemma merge_prefix_sorted_witness :
  mergeSortedSequences odd_numbers even_numbers 10 = [1; 2; 3; 4; 5; 6; 7; 8; 9; 10] /\
  Sorted Z.le (mergeSortedSequences odd_numbers even_numbers 10) /\
  length (mergeSortedSequences odd_numbers even_numbers 10) = 10%nat.
Proof.
  split; [reflexivity |].
  destruct (merge_prefix_sorted odd_numbers even_numbers 10
              ascending_odd_numbers ascending_even_numbers)
    as (Hsorted & _ & Hfull).
  split; [exact Hsorted |].
  apply Hfull. left. intros k. discriminate.
Defined.

End Yield.

(** ** More on the URL shortener *)

Module Urls.
Import JS Katas3.

(** [s] without the characters of index 0 it starts with. *)
Fixpoint strip_zeros (s : string) : string :=
  match s with
  | EmptyString => EmptyString
  | String c rest =>
      if index_of_char c urlAllowedChars =? 0 then strip_zeros rest else s
  end.

Lemma strip_zeros_cons (c : ascii) (rest : string) :
  strip_zeros (String c rest)
  = if index_of_char c urlAllowedChars =? 0 then strip_zeros rest else String c rest.
Proof. reflexivity. Qed.

Lemma to_num_strip_zeros (s : string) : to_num 0 (strip_zeros s) = to_num 0 s.
Proof.
  induction s as [| c rest IH]; [reflexivity |].
  rewrite strip_zeros_cons, (to_num_cons 0 c rest).
  destruct (Z.eqb_spec (index_of_char c urlAllowedChars) 0) as [Hz | Hnz].
  - rewrite Hz. exact IH.
  - apply to_num_cons.
Qed.

Lemma strip_zeros_shape (s : string) :
  over_alphabet s = true ->
  over_alphabet (strip_zeros s) = true /\ no_leading_zero (strip_zeros s) = true.
Proof.
  induction s as [| c rest IH]; intros Hs; [split; reflexivity |].
  rewrite strip_zeros_cons.
  destruct (Z.eqb_spec (index_of_char c urlAllowedChars) 0) as [Hz | Hnz].
  - apply IH. apply over_alphabet_cons in Hs. tauto.
  - split; [exact Hs |].
    change (negb (index_of_char c urlAllowedChars =? 0) = true).
    apply negb_true_iff, Z.eqb_neq. exact Hnz.
Qed.

(** What [decode] returns is what [encode] returns, unless that is the
    lone first character of the alphabet. *)
Lemma encode_decode_same (s : string) :
  decode s <> EmptyString -> encode s = decode s.
Proof.
  unfold encode. fold (decode s). unfold or_first. intros Hne.
  destruct (String.eqb_spec (decode s) EmptyString); [contradiction | reflexivity].
Qed.

(** The short link is no shorter: on a non-empty string over the alphabet
    that does not start with the character of index 0, [encode] is the
    identity. *)
Theorem encode_fixed (s : string) :
  over_alphabet s = true -> no_leading_zero s = true -> s <> EmptyString ->
  encode s = s.
Proof.
  intros Hs Hz Hne. rewrite encode_decode_same; rewrite (decode_fixed s Hs Hz); auto.
Qed.

Lemma encode_fixed_witness :
  encode "https://en.wikipedia.org/wiki/URL_shortening"
  = "https://en.wikipedia.org/wiki/URL_shortening"%string.
Proof.
  apply (encode_fixed "https://en.wikipedia.org/wiki/URL_shortening");
    [vm_compute; reflexivity | vm_compute; reflexivity | discriminate].
Defined.

(** On every string over the alphabet, [decode (encode s)] is [s] without
    its leading characters of index 0. *)
Theorem decode_encode_strips_zeros (s : string) :
  over_alphabet s = true -> decode (encode s) = strip_zeros s.
Proof.
  intros Hs. destruct (strip_zeros_shape s Hs) as [Hs' Hz'].
  pose proof (decode_fixed (strip_zeros s) Hs' Hz') as Hfix.
  assert (Hdec : decode s = strip_zeros s).
  { rewrite <- Hfix. unfold decode. rewrite to_num_strip_zeros. reflexivity. }
  unfold encode. fold (decode s). rewrite Hdec. unfold or_first.
  destruct (String.eqb_spec (strip_zeros s) EmptyString) as [Hempty | Hne].
  - rewrite Hempty. vm_compute. reflexivity.
  - exact Hfix.
Qed.

Lemma decode_encode_strips_zeros_witness :
  decode (encode "AAbc") = "bc"%string.
Proof.
  apply (decode_encode_strips_zeros "AAbc"). vm_compute. reflexivity.
Defined.

(** Two strings that differ only in leading characters of index 0 have
    the same code: [encode] is not injective, even on the alphabet. *)
Theorem encode_ignores_leading_zeros (s : string) :
  encode s = encode (strip_zeros s).
Proof. unfold encode. rewrite to_num_strip_zeros. reflexivity. Qed.

End Urls.

(** ** The whole of parseBankAccount *)

Module Bank.
Import JS Katas2.

(** White space as [trim] and [parseInt] see it, among the code units
    below 256: tab, line feed, vertical tab, form feed, carriage return,
    space and no-break space. *)
Definition is_space (c : ascii) : bool :=
  let n := nat_of_ascii c in
  ((9 <=? n)%nat && (n <=? 13)%nat) || (n =? 32)%nat || (n =? 160)%nat.

Fixpoint trim_start (s : string) : string :=
  match s with
  | EmptyString => EmptyString
  | String c rest => if is_space c then trim_start rest else s
  end.

Fixpoint trim_end (s : string) : string :=
  match s with
  | EmptyString => EmptyString
  | String c rest =>
      match trim_end rest with
      | EmptyString => if is_space c then EmptyString else String c EmptyString
      | kept => String c kept
      end
  end.

(** [s.trim()] *)
Definition trim (s : string) : string := trim_end (trim_start s).

Definition newline : ascii := "010"%char.

(** [line.slice(from, to)] for [0 <= from <= to]. *)
Definition slice (from to : nat) (line : string) : string :=
  String.substring from (to - from) line.

(** [lines.map(line => line.slice(i * 3, i * 3 + 3)).join('')] *)
Definition glyph_at (lines : list string) (i : nat) : string :=
  String.concat "" (map (slice (i * 3) (i * 3 + 3)) lines).

Definition is_digit (c : ascii) : bool :=
  let n := nat_of_ascii c in (48 <=? n)%nat && (n <=? 57)%nat.

(** The decimal digits [s] starts with, read on top of [acc]. *)
Fixpoint read_decimal (acc : Z) (s : string) : Z :=
  match s with
  | EmptyString => acc
  | String c rest =>
      if is_digit c then read_decimal (acc * 10 + (Z.of_nat (nat_of_ascii c) - 48)) rest
      else acc
  end.

(** [parseInt(s)] in base 10: white space in front is skipped, a sign is
    read, then the decimal digits; [None] is [NaN], the result when no
    digit is found.  (The prefixes 0x and 0X, which select base 16, cannot
    occur in the strings built here.) *)
Definition parseInt (s : string) : option Z :=
  match trim_start s with
  | EmptyString => None
  | String c rest =>
      if Ascii.eqb c "-" then
        match rest with
        | String d _ => if is_digit d then Some (- read_decimal 0 rest) else None
        | EmptyString => None
        end
      else if Ascii.eqb c "+" then
        match rest with
        | String d _ => if is_digit d then Some (read_decimal 0 rest) else None
        | EmptyString => None
        end
      else if is_digit c then Some (read_decimal 0 (String c rest))
      else None
  end.

(** The text [result] after the nine rounds of the loop. *)
Definition read_glyphs (lines : list string) : string :=
  fold_left (fun result i => (result ++ read_glyph (glyph_at lines i))%string)
            (seq 0 9) EmptyString.

Definition parseBankAccount (bankAccount : string) : option Z :=
  let lines := split_on newline (trim bankAccount) in
  parseInt (read_glyphs lines).

(** *** What [trim] leaves in front *)

Lemma trim_start_head (s : string) :
  trim_start s = EmptyString \/
  exists c rest, trim_start s = String c rest /\ is_space c = false.
Proof.
  induction s as [| c rest IH]; [left; reflexivity |].
  cbn [trim_start]. destruct (is_space c) eqn:Hc; [exact IH |].
  right. exists c, rest. split; [reflexivity | exact Hc].
Qed.

Lemma trim_end_head (c : ascii) (rest : string) :
  is_space c = false -> exists kept, trim_end (String c rest) = String c kept.
Proof.
  intros Hc. cbn [trim_end]. rewrite Hc.
  destruct (trim_end rest); eauto.
Qed.

Lemma trim_head (s : string) :
  trim s = EmptyString \/
  exists c rest, trim s = String c rest /\ is_space c = false.
Proof.
  unfold trim. destruct (trim_start_head s) as [-> | (c & rest & -> & Hc)].
  - left. reflexivity.
  - right. destruct (trim_end_head c rest Hc) as [kept ->]. eauto.
Qed.

(** *** A glyph that starts with no space is not in the table *)

Lemma array_index_of_unknown (glyph : string) :
  (forall rest, glyph <> String " " rest) ->
  array_index_of glyph digitPatterns = -1.
Proof.
  intros Hglyph. unfold array_index_of, digitPatterns. cbn [array_index_from].
  repeat match goal with
         | |- context [String.eqb ?a glyph] =>
             destruct (String.eqb_spec a glyph) as [Heq | _];
             [exfalso; eapply Hglyph; symmetry; exact Heq |]
         end.
  reflexivity.
Qed.

Lemma glyph_at_head (c : ascii) (w : string) (ws : list string) :
  exists rest, glyph_at (String c w :: ws) 0 = String c rest.
Proof.
  unfold glyph_at, slice. cbn [map Nat.mul Nat.add Nat.sub String.substring].
  cbn [String.concat]. destruct (map _ ws); eauto.
Qed.

Lemma split_on_head (sep c : ascii) (rest : string) :
  c <> sep -> exists w ws, split_on sep (String c rest) = String c w :: ws.
Proof.
  intros Hne. cbn [split_on].
  destruct (Ascii.eqb_spec c sep) as [? | _]; [contradiction |].
  destruct (split_on sep rest); eauto.
Qed.

Lemma read_glyphs_keep_head (c : ascii) (indices : list nat) (lines : list string) :
  forall result,
  exists rest,
    fold_left (fun result i => (result ++ read_glyph (glyph_at lines i))%string)
              indices (String c result)
    = String c rest.
Proof.
  induction indices as [| i indices IH]; intros result; cbn [fold_left]; [eauto |].
  change (String c result ++ read_glyph (glyph_at lines i))%string
    with (String c (result ++ read_glyph (glyph_at lines i))).
  apply IH.
Qed.

(** The first character of [result] is the question mark. *)
Lemma read_glyphs_unknown (bankAccount : string) :
  exists rest,
    read_glyphs (split_on newline (trim bankAccount)) = String "?" rest.
Proof.
  assert (Hfirst : read_glyph (glyph_at (split_on newline (trim bankAccount)) 0)
                   = "?"%string).
  { unfold read_glyph. rewrite array_index_of_unknown; [reflexivity |].
    destruct (trim_head bankAccount) as [-> | (c & r & -> & Hc)].
    - intros rest. discriminate.
    - assert (Hnl : c <> newline) by (intros ->; discriminate Hc).
      destruct (split_on_head newline c r Hnl) as (w & ws & ->).
      destruct (glyph_at_head c w ws) as [g ->].
      intros rest [= -> _]. discriminate Hc. }
  unfold read_glyphs. change (seq 0 9) with (0%nat :: seq 1 8). cbn [fold_left].
  rewrite Hfirst. change ("" ++ "?")%string with (String "?" "").
  apply read_glyphs_keep_head.
Qed.

(** The function never returns a number: [trim] removes the white space
    in front of the first line, so the first glyph read starts with a
    character that is not a space, while every pattern of the table starts
    with a space; the text handed to [parseInt] therefore starts with a
    question mark. *)
Theorem parseBankAccount_is_NaN (bankAccount : string) :
  parseBankAccount bankAccount = None.
Proof.
  unfold parseBankAccount.
  destruct (read_glyphs_unknown bankAccount) as [rest ->].
  reflexivity.
Qed.

End Bank.

(** ** More on wrapText *)

Module Wrap.
Import JS Katas2.

(** [lines.join(' ')] *)
Definition join_lines (lines : list string) : string := String.concat " " lines.

(** The lines of a state, the current line last when it is not empty. *)
Definition lines_of (st : wrap_state) : list string := flush st.

Lemma string_append_assoc (a b c : string) :
  ((a ++ b) ++ c)%string = (a ++ b ++ c)%string.
Proof.
  induction a as [| x a IH]; [reflexivity |].
  change (String x a ++ b)%string with (String x (a ++ b)).
  change (String x (a ++ b) ++ c)%string with (String x ((a ++ b) ++ c)).
  rewrite IH. reflexivity.
Qed.

Lemma join_lines_snoc (lines : list string) (line : string) :
  lines <> [] ->
  join_lines (lines ++ [line]) = (join_lines lines ++ " " ++ line)%string.
Proof.
  unfold join_lines. induction lines as [| l lines IH]; intros Hne; [contradiction |].
  destruct lines as [| l' lines'].
  - reflexivity.
  - change ((l :: l' :: lines') ++ [line]) with (l :: ((l' :: lines') ++ [line])).
    change (String.concat " " (l :: (l' :: lines') ++ [line]))
      with (l ++ " " ++ String.concat " " ((l' :: lines') ++ [line]))%string.
    rewrite IH by discriminate.
    change (String.concat " " (l :: l' :: lines'))
      with (l ++ " " ++ String.concat " " (l' :: lines'))%string.
    rewrite !string_append_assoc. reflexivity.
Qed.

Lemma join_lines_split (text : string) :
  join_lines (split_on space text) = text.
Proof.
  unfold join_lines. induction text as [| c rest IH]; [reflexivity |].
  cbn [split_on]. destruct (Ascii.eqb_spec c space) as [-> | Hne].
  - destruct (split_on_cons space rest) as (w & ws & Hsplit).
    rewrite Hsplit in IH |- *.
    change (String.concat " " ("" :: w :: ws))
      with ("" ++ " " ++ String.concat " " (w :: ws))%string.
    rewrite IH. reflexivity.
  - destruct (split_on_cons space rest) as (w & ws & Hsplit).
    rewrite Hsplit in IH |- *. rewrite <- IH.
    destruct ws as [| w' ws']; reflexivity.
Qed.

(** After a word has been read, the lines of the state joined by spaces
    are the words read so far joined by spaces, when every word is not
    empty and fits the limit. *)
Lemma wrap_round_join (columns : Z) (st : wrap_state) (seen : list string)
      (word : string) :
  word <> EmptyString -> len word <= columns ->
  (seen = [] -> lines_of st = []) ->
  (seen <> [] -> currentLine st <> EmptyString /\
                 join_lines (lines_of st) = join_lines seen) ->
  currentLine (wrap_round columns st word) <> EmptyString /\
  join_lines (lines_of (wrap_round columns st word)) = join_lines (seen ++ [word]).
Proof.
  intros Hword Hfits Hstart Hnext. unfold wrap_round, lines_of in *.
  destruct seen as [| w0 seen0].
  - (* the first word *)
    specialize (Hstart eq_refl). unfold flush in Hstart.
    destruct (nonempty (currentLine st)) eqn:Hcur;
      [destruct (yielded st); discriminate Hstart |].
    apply nonempty_false in Hcur. rewrite Hcur, Hstart.
    change (len "") with 0.
    destruct (Z.leb_spec (0 + len word + 0) columns) as [_ | ?]; [| lia].
    change ("" ++ "" ++ word)%string with word.
    split; [exact Hword |].
    unfold flush; cbn [currentLine yielded].
    destruct (nonempty word) eqn:Hw; [reflexivity |].
    apply nonempty_false in Hw. contradiction.
  - destruct (Hnext ltac:(discriminate)) as [Hcur Hjoin].
    assert (Hne : nonempty (currentLine st) = true).
    { unfold nonempty. destruct (String.eqb_spec (currentLine st) ""); [contradiction | reflexivity]. }
    assert (Hflush : flush st = yielded st ++ [currentLine st])
      by (unfold flush; rewrite Hne; reflexivity).
    rewrite Hne.
    destruct (Z.leb_spec (len (currentLine st) + len word + 1) columns) as [Hfit | Hover].
    + (* the word joins the current line *)
      assert (Hcur' : (currentLine st ++ " " ++ word)%string <> EmptyString)
        by (destruct (currentLine st); [contradiction | discriminate]).
      split; [exact Hcur' |].
      unfold flush; cbn [currentLine yielded].
      destruct (nonempty (currentLine st ++ " " ++ word)) eqn:Hn;
        [| apply nonempty_false in Hn; contradiction].
      rewrite (join_lines_snoc (w0 :: seen0) word) by discriminate.
      rewrite <- Hjoin, Hflush.
      destruct (yielded st) as [| y ys].
      * reflexivity.
      * rewrite !join_lines_snoc by discriminate.
        rewrite !string_append_assoc. reflexivity.
    + (* the current line is yielded and the word starts a new one *)
      destruct (Z.leb_spec (len word) columns) as [_ | ?]; [| lia].
      split; [exact Hword |].
      unfold flush at 1; cbn [currentLine yielded].
      destruct (nonempty word) eqn:Hw;
        [| apply nonempty_false in Hw; contradiction].
      rewrite Hflush.
      rewrite (join_lines_snoc (yielded st ++ [currentLine st]) word)
        by (destruct (yielded st); discriminate).
      rewrite (join_lines_snoc (w0 :: seen0) word) by discriminate.
      rewrite <- Hjoin, Hflush. reflexivity.
Qed.

Lemma wrap_loop_join (columns : Z) (words : list string) :
  forall (seen : list string) (st : wrap_state),
    Forall (fun w => w <> EmptyString /\ len w <= columns) words ->
    (seen = [] -> lines_of st = []) ->
    (seen <> [] -> currentLine st <> EmptyString /\
                   join_lines (lines_of st) = join_lines seen) ->
    seen ++ words <> [] ->
    join_lines (lines_of (fold_left (wrap_round columns) words st))
    = join_lines (seen ++ words).
Proof.
  induction words as [| word words IH]; intros seen st Hwords Hstart Hnext Hne.
  - rewrite app_nil_r in Hne |- *. apply Hnext. exact Hne.
  - apply Forall_cons in Hwords as [[Hword Hfits] Hwords]. cbn [fold_left].
    replace (seen ++ word :: words) with ((seen ++ [word]) ++ words)
      by (rewrite <- app_assoc; reflexivity).
    apply IH.
    + exact Hwords.
    + intros Habs. destruct seen; discriminate Habs.
    + intros _. apply wrap_round_join; assumption.
    + destruct seen; discriminate.
Qed.

(** Wrapping keeps the text: when the words of the text (its parts
    between spaces) are all non-empty and none is longer than the limit,
    the yielded lines joined by single spaces give the text back. *)
Theorem wrapText_join (text : string) (columns : Z) :
  Forall (fun w => w <> EmptyString /\ len w <= columns) (split_on space text) ->
  join_lines (wrapText text columns) = text.
Proof.
  intros Hwords. unfold wrapText.
  rewrite <- (join_lines_split text) at 2.
  apply (wrap_loop_join columns (split_on space text) []).
  - exact Hwords.
  - reflexivity.
  - intros Habs. contradiction.
  - destruct (split_on_cons space text) as (w & ws & ->). discriminate.
Qed.

Lemma wrapText_join_witness :
  join_lines (wrapText "The String global object is a constructor" 12)
  = "The String global object is a constructor"%string.
Proof.
  apply (wrapText_join "The String global object is a constructor" 12).
  vm_compute. repeat (constructor; [split; [discriminate | discriminate] |]).
  constructor.
Defined.

(** No yielded line is empty. *)
Lemma wrap_round_nonempty (columns : Z) (st : wrap_state) (word : string) :
  Forall (fun line => line <> EmptyString) (yielded st) ->
  Forall (fun line => line <> EmptyString) (yielded (wrap_round columns st word)).
Proof.
  intros Hy. unfold wrap_round.
  destruct (_ <=? columns); cbn [yielded]; [exact Hy |].
  unfold flush. destruct (nonempty (currentLine st)) eqn:Hne; [| exact Hy].
  apply Forall_app. split; [exact Hy |].
  constructor; [apply nonempty_true; exact Hne | constructor].
Qed.

(** No yielded line is empty, whatever the text and the limit: a line
    is yielded only when it holds something. *)
Theorem wrapText_lines_nonempty (text : string) (columns : Z) :
  Forall (fun line => line <> EmptyString) (wrapText text columns).
Proof.
  unfold wrapText.
  assert (Hloop : forall words st,
             Forall (fun line => line <> EmptyString) (yielded st) ->
             Forall (fun line => line <> EmptyString)
                    (yielded (fold_left (wrap_round columns) words st))).
  { induction words as [| w words IH]; intros st Hy; [exact Hy |].
    cbn [fold_left]. apply IH, wrap_round_nonempty, Hy. }
  specialize (Hloop (split_on space text)
                    {| currentLine := EmptyString; yielded := [] |}
                    ltac:(constructor)).
  unfold flush. destruct (nonempty (currentLine _)) eqn:Hne; [| exact Hloop].
  apply Forall_app. split; [exact Hloop |].
  constructor; [apply nonempty_true; exact Hne | constructor].
Qed.

End Wrap.

(** ** getMostProfitFromStockQuotes *)

Module Stock.
Import JS.

(** The variables of the loop. *)
Record stock_state : Type := StockState {
  profit : Z;
  buySum : Z;
  buyCount : Z;
  maxPrice : Z
}.

(** One round of the loop, for the quote [q] of the day. *)
Definition stock_round (st : stock_state) (q : Z) : stock_state :=
  if maxPrice st <? q then
    {| profit := num_add (profit st) (num_mul (buyCount st) (num_sub q (maxPrice st)));
       maxPrice := q; buySum := 0; buyCount := 0 |}
  else
    {| profit := num_add (profit st) (num_sub (maxPrice st) q);
       maxPrice := maxPrice st;
       buySum := num_add (buySum st) q; buyCount := num_add (buyCount st) 1 |}.

Definition stock_start : stock_state :=
  {| profit := 0; buySum := 0; buyCount := 0; maxPrice := 0 |}.

(** [for (let i = quotes.length - 1; i >= 0; i--)]: the quotes are read
    from the last day to the first. *)
Definition getMostProfitFromStockQuotes (quotes : list Z) : Z :=
  profit (fold_left stock_round (rev quotes) stock_start).

(** The state once the days of [quotes] have been read. *)
Definition after (quotes : list Z) : stock_state :=
  fold_left stock_round (rev quotes) stock_start.

(** The highest of the quotes of [quotes], and of 0. *)
Definition peak (quotes : list Z) : Z := fold_right Z.max 0 quotes.

(** What buying one unit each day and selling it at the highest quote
    from that day on brings. *)
Fixpoint hindsight (quotes : list Z) : Z :=
  match quotes with
  | [] => 0
  | q :: later => (peak (q :: later) - q) + hindsight later
  end.

(** Each quote is higher than the next one. *)
Fixpoint falling (quotes : list Z) : Prop :=
  match quotes with
  | q :: (q' :: _) as later => q' < q /\ falling later
  | _ => True
  end.

(** The sum of [top - q] over the quotes. *)
Definition gains (top : Z) (quotes : list Z) : Z :=
  fold_right (fun q sum => (top - q) + sum) 0 quotes.

(** Quotes for which no number of the loop is rounded: at most 10000
    integers of magnitude at most 1000000, so that the profit stays below
    10^14. *)
Definition moderate (quotes : list Z) : Prop :=
  Z.of_nat (length quotes) <= 10000
  /\ Forall (fun q => Z.abs q <= 1000000) quotes.

Lemma after_cons (q : Z) (later : list Z) :
  after (q :: later) = stock_round (after later) q.
Proof. unfold after. cbn [rev]. rewrite fold_left_app. reflexivity. Qed.

Lemma moderate_cons (q : Z) (later : list Z) :
  moderate (q :: later) ->
  Z.abs q <= 1000000 /\ Z.of_nat (length later) < 10000 /\ moderate later.
Proof.
  intros [Hlen Hall]. cbn [length] in Hlen.
  apply Forall_cons in Hall as [Hq Hall].
  split; [exact Hq |]. split; [lia |]. split; [lia | exact Hall].
Qed.

Lemma moderate_app_r (l1 l2 : list Z) : moderate (l1 ++ l2) -> moderate l2.
Proof.
  intros [Hlen Hall]. rewrite length_app in Hlen.
  apply Forall_app in Hall as [_ Hall]. split; [lia | exact Hall].
Qed.

(** A result this small is not rounded. *)
Lemma to_double_small (z : Z) : Z.abs z <= 200000000000000 -> to_double z = z.
Proof.
  intros Hz. apply to_double_exact.
  change (2 ^ 53) with 9007199254740992. lia.
Qed.

Lemma hindsight_nonneg (quotes : list Z) : 0 <= hindsight quotes.
Proof.
  induction quotes as [| q later IH]; [reflexivity |].
  cbn [hindsight peak fold_right]. lia.
Qed.

Lemma after_invariant (quotes : list Z) :
  moderate quotes ->
  0 <= buyCount (after quotes) <= Z.of_nat (length quotes) /\
  maxPrice (after quotes) = peak quotes /\
  0 <= peak quotes <= 1000000 /\
  Z.abs (buySum (after quotes)) <= Z.of_nat (length quotes) * 1000000 /\
  hindsight quotes <= profit (after quotes)
                   <= Z.of_nat (length quotes) * 10000000000.
Proof.
  induction quotes as [| q later IH]; intros Hmod.
  - cbn. lia.
  - apply moderate_cons in Hmod as (Hq & Hlen & Hmod).
    destruct (IH Hmod) as (Hcount & Hmax & Hpeak & Hsum & Hprofit).
    rewrite after_cons. unfold stock_round, num_add, num_sub, num_mul.
    cbn [hindsight peak fold_right length]. fold (peak later).
    rewrite Hmax in *. rewrite Nat2Z.inj_succ.
    set (st := after later) in *. set (k := Z.of_nat (length later)) in *.
    assert (Hk : 0 <= k < 10000) by (unfold k; lia).
    pose proof (hindsight_nonneg later) as Hnonneg.
    destruct (Z.ltb_spec (peak later) q); cbn [buyCount maxPrice profit buySum].
    + rewrite (to_double_small (q - peak later)) by lia.
      rewrite (to_double_small (buyCount st * (q - peak later))) by nia.
      rewrite (to_double_small (profit st + _)) by nia.
      repeat split; try lia; nia.
    + rewrite (to_double_small (peak later - q)) by lia.
      rewrite (to_double_small (profit st + _)) by nia.
      rewrite (to_double_small (buySum st + q)) by lia.
      rewrite (to_double_small (buyCount st + 1)) by lia.
      repeat split; try lia; nia.
Qed.

(** On moderate quotes the result is never less than what hindsight
    brings, and so never negative; it can be more: on 10, 1, 5 it is 9,
    where 4 is the most that can be made.  On larger quotes the sums are
    rounded, and the result can be less: on 1, 9007199254740994 it is
    9007199254740992, below the difference of the two. *)
Theorem profit_at_least_hindsight :
  (forall quotes : list Z,
      moderate quotes ->
      0 <= hindsight quotes <= getMostProfitFromStockQuotes quotes) /\
  (getMostProfitFromStockQuotes [10; 1; 5] = 9 /\ hindsight [10; 1; 5] = 4) /\
  (getMostProfitFromStockQuotes [1; 9007199254740994] = 9007199254740992 /\
   hindsight [1; 9007199254740994] = 9007199254740993).
Proof.
  split; [| repeat split; vm_compute; reflexivity].
  intros quotes Hmod.
  split; [apply hindsight_nonneg | apply after_invariant; exact Hmod].
Qed.

Lemma profit_at_least_hindsight_witness :
  moderate [1; 6; 5; 10; 8; 7] /\
  0 <= hindsight [1; 6; 5; 10; 8; 7]
    <= getMostProfitFromStockQuotes [1; 6; 5; 10; 8; 7].
Proof.
  assert (H : moderate [1; 6; 5; 10; 8; 7])
    by (split; [cbn; lia | repeat constructor; cbn; lia]).
  split; [exact H |].
  apply (proj1 profit_at_least_hindsight [1; 6; 5; 10; 8; 7] H).
Defined.

Lemma after_falling (quotes : list Z) (top : Z) :
  falling (top :: quotes) -> Forall (fun q => 0 < q) (top :: quotes) ->
  after (top :: quotes)
  = {| profit := 0; buySum := 0; buyCount := 0; maxPrice := top |}.
Proof.
  revert top. induction quotes as [| q later IH]; intros top Hfall Hpos.
  - rewrite after_cons. apply Forall_cons in Hpos as [Hpos _].
    unfold stock_round. cbn [after rev fold_left stock_start maxPrice].
    destruct (Z.ltb_spec 0 top); [reflexivity | lia].
  - destruct Hfall as [Hlt Hfall]. apply Forall_cons in Hpos as [_ Hpos].
    rewrite after_cons, (IH q Hfall Hpos). unfold stock_round.
    cbn [maxPrice profit buyCount].
    destruct (Z.ltb_spec q top); [reflexivity | lia].
Qed.

(** When moderate quotes rise no higher than a last peak, after which
    they only fall, the result is what buying every day before the peak
    and selling everything at the peak brings. *)
Theorem profit_before_last_peak (before falls : list Z) (top : Z) :
  moderate (before ++ top :: falls) ->
  Forall (fun q => q <= top) before ->
  falling (top :: falls) -> Forall (fun q => 0 < q) (top :: falls) ->
  getMostProfitFromStockQuotes (before ++ top :: falls) = gains top before.
Proof.
  intros Hmod Hbefore Hfall Hpos. unfold getMostProfitFromStockQuotes.
  fold (after (before ++ top :: falls)).
  assert (H : profit (after (before ++ top :: falls)) = gains top before
              /\ maxPrice (after (before ++ top :: falls)) = top).
  { induction before as [| q before IH].
    - cbn [app]. rewrite after_falling by assumption. split; reflexivity.
    - apply Forall_cons in Hbefore as [Hq Hbefore].
      change ((q :: before) ++ top :: falls) with (q :: (before ++ top :: falls))
        in Hmod |- *.
      destruct (moderate_cons _ _ Hmod) as (Hqabs & _ & Hmod').
      destruct (IH Hmod' Hbefore) as [Hprofit Htop].
      destruct (after_invariant _ Hmod') as (_ & Hmax & Hpeak & _ & Hbound).
      pose proof (hindsight_nonneg (before ++ top :: falls)) as Hnonneg.
      assert (Hlen : Z.of_nat (length (before ++ top :: falls)) < 10000)
        by (destruct Hmod as [Hlen _]; cbn [length] in Hlen; lia).
      assert (Hrange : 0 <= top <= 1000000) by (rewrite <- Htop, Hmax; exact Hpeak).
      rewrite after_cons. unfold stock_round.
      set (st := after (before ++ top :: falls)) in *.
      rewrite Htop.
      destruct (Z.ltb_spec top q); [lia |].
      cbn [maxPrice profit]. split; [| reflexivity].
      unfold num_add, num_sub. cbn [gains fold_right]. fold (gains top before).
      rewrite (to_double_small (top - q)) by lia.
      rewrite to_double_small by lia. lia. }
  apply H.
Qed.

Lemma profit_before_last_peak_witness :
  getMostProfitFromStockQuotes ([1; 6; 5] ++ 10 :: [8; 7]) = gains 10 [1; 6; 5].
Proof.
  apply (profit_before_last_peak [1; 6; 5] [8; 7] 10).
  - split; [cbn; lia | repeat constructor; cbn; lia].
  - repeat constructor; lia.
  - cbn. lia.
  - repeat constructor; lia.
Defined.

End Stock.

(** ** More of the generators: Fibonacci and the merge of finite sources *)

Module Sequences.
Import JS Yield.

(** *** getFibonacciSequence *)

(** Where the generator waits: before [yield a], before [yield b], or in
    the loop. *)
Inductive fib_point : Type := BeforeFirst | BeforeSecond | InLoop.

(** The generator's variables [a] and [b] and the point it has reached. *)
Record fib_state : Type := FibState {
  point : fib_point;
  a : Z;
  b : Z
}.

(** [let a = 0, b = 1;] *)
Definition fib_start : fib_state := {| point := BeforeFirst; a := 0; b := 1 |}.

(** The value of the next [yield] and the state the generator is left
    in; in the loop, [a = b; b = next] are done before it waits again. *)
Definition fib_step (st : fib_state) : Z * fib_state :=
  match point st with
  | BeforeFirst => (a st, {| point := BeforeSecond; a := a st; b := b st |})
  | BeforeSecond => (b st, {| point := InLoop; a := a st; b := b st |})
  | InLoop =>
      let next := num_add (a st) (b st) in
      (next, {| point := InLoop; a := b st; b := next |})
  end.

(** The first [n] values of the generator started in [st]. *)
Fixpoint fib_take (n : nat) (st : fib_state) : list Z :=
  match n with
  | O => []
  | S n' => let (v, st') := fib_step st in v :: fib_take n' st'
  end.

Definition getFibonacciSequence (n : nat) : list Z := fib_take n fib_start.

(** The Fibonacci numbers: 0, 1, and then the sum of the two before. *)
Fixpoint fibonacci (k : nat) : Z :=
  match k with
  | O => 0
  | S k' =>
      match k' with
      | O => 1
      | S k'' => fibonacci k'' + fibonacci k'
      end
  end.

(** *** mergeSortedSequences on arrays *)

(** The iterator of an array: the call number [k] gives the element of
    index [k], and the iterator is done past the end. *)
Definition source_of (l : list Z) : source := fun k => l !! k.

(** The state of the merge when [i] elements of the first array and [j]
    of the second have been yielded. *)
Definition merge_at (l1 l2 : list Z) (i j : nat) : merge_state :=
  {| val1 := l1 !! i; val2 := l2 !! j; calls1 := S i; calls2 := S j |}.

(** *** Statements *)

Lemma fibonacci_step (k : nat) :
  fibonacci (S (S k)) = fibonacci k + fibonacci (S k).
Proof. reflexivity. Qed.

Lemma fibonacci_grows (k : nat) : 0 <= fibonacci k <= fibonacci (S k).
Proof.
  induction k as [| k IH]; [cbn; lia |].
  rewrite fibonacci_step. lia.
Qed.

Lemma fibonacci_mono (k k' : nat) :
  (k <= k')%nat -> fibonacci k <= fibonacci k'.
Proof.
  induction 1 as [| k' _ IH]; [lia |].
  pose proof (fibonacci_grows k'). lia.
Qed.

(** The pairs of neighbours, which give the numbers in linear time. *)
Lemma fibonacci_pair (k : nat) :
  Nat.iter k (fun p : Z * Z => (snd p, fst p + snd p)) (0, 1)
  = (fibonacci k, fibonacci (S k)).
Proof.
  induction k as [| k IH]; [reflexivity |].
  rewrite Nat.iter_succ, IH. cbn [fst snd]. reflexivity.
Qed.

Lemma first_of_pair (p : Z * Z) (x y v : Z) : p = (x, y) -> fst p = v -> x = v.
Proof. intros -> H. exact H. Qed.

Lemma fibonacci_78 : fibonacci 78 = 8944394323791464.
Proof.
  apply (first_of_pair _ _ _ _ (fibonacci_pair 78)). vm_compute. reflexivity.
Qed.

Lemma fibonacci_79 : fibonacci 79 = 14472334024676221.
Proof.
  apply (first_of_pair _ _ _ _ (fibonacci_pair 79)). vm_compute. reflexivity.
Qed.

Lemma fib_take_loop (n : nat) :
  forall k,
    (S k + n <= 78)%nat ->
    fib_take n {| point := InLoop; a := fibonacci k; b := fibonacci (S k) |}
    = map fibonacci (seq (S (S k)) n).
Proof.
  induction n as [| n IH]; intros k Hk; [reflexivity |].
  cbn [fib_take fib_step point a b seq map]. unfold num_add.
  rewrite <- fibonacci_step.
  rewrite (to_double_exact (fibonacci (S (S k)))).
  - rewrite (IH (S k)) by lia. reflexivity.
  - pose proof (fibonacci_grows (S (S k))) as Hpos.
    pose proof (fibonacci_mono (S (S k)) 78 ltac:(lia)) as Hle.
    rewrite fibonacci_78 in Hle.
    change (2 ^ 53) with 9007199254740992. lia.
Qed.

(** The first 79 values of the generator, which never ends, are the
    Fibonacci numbers: its value number [k] (from 0) is the Fibonacci
    number of index [k], for [k] up to 78.  These are below 2^53. *)
Theorem getFibonacciSequence_fibonacci (n : nat) :
  (n <= 79)%nat -> getFibonacciSequence n = map fibonacci (seq 0 n).
Proof.
  intros Hn. unfold getFibonacciSequence.
  destruct n as [| [| n]]; [reflexivity | reflexivity |].
  exact (f_equal (fun rest => 0 :: 1 :: rest) (fib_take_loop n 0 ltac:(lia))).
Qed.

Lemma getFibonacciSequence_fibonacci_witness :
  (12 <= 79)%nat /\ getFibonacciSequence 12 = map fibonacci (seq 0 12).
Proof.
  split; [lia |]. apply (getFibonacciSequence_fibonacci 12). lia.
Defined.

(** The next value is rounded: the Fibonacci number of index 79 is odd
    and above 2^53, and the generator yields the even number below it. *)
Lemma getFibonacciSequence_rounds :
  getFibonacciSequence 80 !! 79%nat = Some 14472334024676220
  /\ fibonacci 79 = 14472334024676221.
Proof. split; [vm_compute; reflexivity | exact fibonacci_79]. Qed.

Lemma drop_lookup (l : list Z) (i : nat) (x : Z) :
  l !! i = Some x -> drop i l = x :: drop (S i) l.
Proof.
  revert i. induction l as [| y l IH]; intros [| i] H; try discriminate.
  - injection H as ->. reflexivity.
  - cbn [drop]. apply IH. exact H.
Qed.

Lemma merge_step_at (l1 l2 : list Z) (i j : nat) :
  merge_step (source_of l1) (source_of l2) (merge_at l1 l2 i j)
  = match l1 !! i, l2 !! j with
    | None, None => None
    | None, Some y => Some (y, merge_at l1 l2 i (S j))
    | Some x, None => Some (x, merge_at l1 l2 (S i) j)
    | Some x, Some y =>
        if x <=? y then Some (x, merge_at l1 l2 (S i) j)
        else Some (y, merge_at l1 l2 i (S j))
    end.
Proof. reflexivity. Qed.

Lemma take_from_merge_at (l1 l2 : list Z) :
  forall (n i j : nat),
    (length (drop i l1) + length (drop j l2) <= n)%nat ->
    Permutation (take_from (source_of l1) (source_of l2) n (merge_at l1 l2 i j))
                (drop i l1 ++ drop j l2).
Proof.
  induction n as [| n IH]; intros i j Hn.
  - destruct (drop i l1); destruct (drop j l2); cbn in Hn; try lia. reflexivity.
  - cbn [take_from]. rewrite merge_step_at.
    destruct (l1 !! i) as [x |] eqn:H1; destruct (l2 !! j) as [y |] eqn:H2.
    + pose proof (drop_lookup l1 i x H1) as D1.
      pose proof (drop_lookup l2 j y H2) as D2.
      destruct (x <=? y).
      * rewrite D1 in Hn |- *. cbn [app length] in Hn |- *.
        apply perm_skip. apply IH. lia.
      * rewrite D2 in Hn |- *. cbn [length] in Hn.
        rewrite <- Permutation_middle. apply perm_skip. apply IH. lia.
    + rewrite (drop_lookup l1 i x H1) in Hn |- *. cbn [app length] in Hn |- *.
      apply perm_skip. apply IH. lia.
    + rewrite (drop_lookup l2 j y H2) in Hn |- *. cbn [length] in Hn.
      rewrite <- Permutation_middle. apply perm_skip. apply IH. lia.
    + apply lookup_ge_None in H1, H2.
      rewrite (drop_ge l1 i H1), (drop_ge l2 j H2). reflexivity.
Qed.

(** Merging two arrays loses and adds nothing: once asked for as many
    values as the two arrays hold, the merge has yielded a rearrangement
    of their elements (sorted or not), and it is then done. *)
Theorem merge_arrays_permutation (l1 l2 : list Z) (n : nat) :
  (length l1 + length l2 <= n)%nat ->
  Permutation (mergeSortedSequences (source_of l1) (source_of l2) n) (l1 ++ l2).
Proof.
  intros Hn. apply (take_from_merge_at l1 l2 n 0 0). exact Hn.
Qed.

Lemma merge_arrays_permutation_witness :
  Permutation (mergeSortedSequences (source_of [1; 3; 5]) (source_of [-1]) 7)
              ([1; 3; 5] ++ [-1]).
Proof.
  apply (merge_arrays_permutation [1; 3; 5] [-1] 7). cbn. lia.
Defined.

End Sequences.

(** ** The tree traversals *)

Module Trees.

(** A node: what it carries, and its [children] array when it has the
    property.  (The nodes of the source are objects; a tree built from
    them has no cycle.) *)
#[local] Unset Elimination Schemes.
Inductive node : Type :=
| Node (label : Z) (children : option (list node)).
#[local] Set Elimination Schemes.

(** The children a traversal goes through: none when the property is
    missing. *)
Definition kids (n : node) : list node :=
  match n with
  | Node _ (Some cs) => cs
  | Node _ None => []
  end.

(** [depthTraversalTree(root)]: the nodes it yields, in order. *)
Fixpoint depthTraversalTree (root : node) : list node :=
  match root with
  | Node _ (Some cs) => root :: concat (map depthTraversalTree cs)
  | Node _ None => [root]
  end.

(** The number of nodes of a tree. *)
Fixpoint node_size (n : node) : nat :=
  match n with
  | Node _ (Some cs) => S (list_sum (map node_size cs))
  | Node _ None => 1
  end.

Definition forest_size (q : list node) : nat := list_sum (map node_size q).

(** The number of levels of a tree. *)
Fixpoint height (n : node) : nat :=
  match n with
  | Node _ (Some cs) => S (list_max (map height cs))
  | Node _ None => 1
  end.

Definition forest_height (q : list node) : nat := list_max (map height q).

Lemma node_size_kids (n : node) : node_size n = S (forest_size (kids n)).
Proof. destruct n as [l [cs |]]; reflexivity. Qed.

Lemma forest_size_shift (n : node) (rest : list node) :
  (forest_size (rest ++ kids n) < forest_size (n :: rest))%nat.
Proof.
  unfold forest_size. rewrite map_app, list_sum_app.
  change (list_sum (map node_size (n :: rest)))
    with (node_size n + list_sum (map node_size rest))%nat.
  rewrite node_size_kids. unfold forest_size. lia.
Qed.

(** The loop of [breadthTraversalTree]:
    [while (queue.length) { const node = queue.shift(); yield node;
       if (node.children) queue.push(...node.children); }] *)
Equations breadth_loop (queue : list node) : list node
  by wf (forest_size queue) lt :=
  breadth_loop [] := [];
  breadth_loop (n :: rest) := n :: breadth_loop (rest ++ kids n).
Next Obligation. apply forest_size_shift. Qed.

(** [breadthTraversalTree(root)]: the nodes it yields, in order. *)
Definition breadthTraversalTree (root : node) : list node := breadth_loop [root].

(** The nodes [k] levels below the nodes of [q]. *)
Fixpoint level (k : nat) (q : list node) : list node :=
  match k with
  | O => q
  | S k' => level k' (concat (map kids q))
  end.

(** *** Both traversals visit every node once *)

Lemma depthTraversalTree_kids (n : node) :
  depthTraversalTree n = n :: concat (map depthTraversalTree (kids n)).
Proof. destruct n as [l [cs |]]; reflexivity. Qed.

Lemma breadth_loop_depth (k : nat) :
  forall q, (forest_size q <= k)%nat ->
            Permutation (breadth_loop q) (concat (map depthTraversalTree q)).
Proof.
  induction k as [| k IH]; intros q Hk.
  - destruct q as [| n rest]; [simp breadth_loop; reflexivity |].
    pose proof (forest_size_shift n rest). lia.
  - destruct q as [| n rest]; [simp breadth_loop; reflexivity |].
    simp breadth_loop. cbn [map concat].
    rewrite depthTraversalTree_kids. cbn [app]. apply perm_skip.
    rewrite IH by (pose proof (forest_size_shift n rest); lia).
    rewrite map_app, concat_app. apply Permutation_app_comm.
Qed.

Lemma forest_size_cons (c : node) (cs : list node) :
  forest_size (c :: cs) = (node_size c + forest_size cs)%nat.
Proof. reflexivity. Qed.

Lemma depthTraversalTree_length (k : nat) :
  forall n, (node_size n <= k)%nat -> length (depthTraversalTree n) = node_size n.
Proof.
  induction k as [| k IH]; intros n Hk;
    [rewrite node_size_kids in Hk; lia |].
  rewrite depthTraversalTree_kids. rewrite node_size_kids in Hk |- *.
  cbn [length]. f_equal.
  induction (kids n) as [| c cs IHcs]; [reflexivity |].
  rewrite forest_size_cons in Hk |- *. cbn [map concat]. rewrite length_app.
  rewrite IH by lia. rewrite IHcs by lia. reflexivity.
Qed.

(** The two traversals yield the same nodes, each as many times, in
    their two orders; there are as many as the tree has nodes, and the
    root comes first in both. *)
Theorem traversals_same_nodes (root : node) :
  Permutation (breadthTraversalTree root) (depthTraversalTree root) /\
  length (depthTraversalTree root) = node_size root /\
  length (breadthTraversalTree root) = node_size root /\
  head (depthTraversalTree root) = Some root /\
  head (breadthTraversalTree root) = Some root.
Proof.
  assert (Hperm : Permutation (breadthTraversalTree root) (depthTraversalTree root)).
  { unfold breadthTraversalTree.
    rewrite (breadth_loop_depth (forest_size [root]) [root]) by lia.
    cbn [map concat]. rewrite app_nil_r. reflexivity. }
  assert (Hlen : length (depthTraversalTree root) = node_size root)
    by (apply (depthTraversalTree_length (node_size root)); lia).
  split; [exact Hperm |]. split; [exact Hlen |].
  split; [rewrite (Permutation_length Hperm); exact Hlen |].
  split.
  - rewrite depthTraversalTree_kids. reflexivity.
  - unfold breadthTraversalTree. simp breadth_loop. reflexivity.
Qed.

(** *** The breadth-first order is the order of the levels *)

Lemma breadth_loop_block (q : list node) :
  forall rest,
    breadth_loop (q ++ rest) = q ++ breadth_loop (rest ++ concat (map kids q)).
Proof.
  induction q as [| n q IH]; intros rest.
  - cbn [app map concat]. rewrite app_nil_r. reflexivity.
  - cbn [app map concat]. simp breadth_loop. f_equal.
    rewrite <- app_assoc, IH, <- app_assoc. reflexivity.
Qed.

Lemma breadth_loop_levels (n : nat) :
  forall q,
    breadth_loop q
    = concat (map (fun k => level k q) (seq 0 n)) ++ breadth_loop (level n q).
Proof.
  induction n as [| n IH]; intros q; [reflexivity |].
  rewrite <- cons_seq, <- seq_shift. cbn [map concat]. rewrite map_map.
  change (level 0 q) with q.
  change (map (fun k => level (S k) q) (seq 0 n))
    with (map (fun k => level k (concat (map kids q))) (seq 0 n)).
  change (level (S n) q) with (level n (concat (map kids q))).
  rewrite <- app_assoc, <- (IH (concat (map kids q))).
  rewrite <- (app_nil_r q) at 1. rewrite breadth_loop_block. reflexivity.
Qed.

Lemma height_kids (n : node) : height n = S (forest_height (kids n)).
Proof. destruct n as [l [cs |]]; reflexivity. Qed.

Lemma forest_height_cons (n : node) (q : list node) :
  forest_height (n :: q) = Nat.max (height n) (forest_height q).
Proof. reflexivity. Qed.

Lemma forest_height_app (q r : list node) :
  forest_height (q ++ r) = Nat.max (forest_height q) (forest_height r).
Proof. unfold forest_height. rewrite map_app. apply list_max_app. Qed.

Lemma forest_height_kids (q : list node) :
  (forest_height (concat (map kids q)) <= forest_height q - 1)%nat.
Proof.
  induction q as [| n q IH]; [reflexivity |].
  cbn [map concat]. rewrite forest_height_app, forest_height_cons, height_kids.
  lia.
Qed.

Lemma level_beyond_height (n : nat) :
  forall q, (forest_height q <= n)%nat -> level n q = [].
Proof.
  induction n as [| n IH]; intros q Hq.
  - destruct q as [| m q]; [reflexivity |].
    rewrite forest_height_cons, height_kids in Hq. lia.
  - cbn [level]. apply IH. pose proof (forest_height_kids q). lia.
Qed.

(** Breadth first, the nodes come out level by level: the root, then its
    children in their order, then the children of these in order, and so
    on down to the last level. *)
Theorem breadthTraversalTree_by_levels (root : node) :
  breadthTraversalTree root
  = concat (map (fun k => level k [root]) (seq 0 (height root))).
Proof.
  unfold breadthTraversalTree.
  rewrite (breadth_loop_levels (height root) [root]).
  rewrite (level_beyond_height (height root) [root]).
  - simp breadth_loop. apply app_nil_r.
  - rewrite forest_height_cons. unfold forest_height at 1. cbn. lia.
Qed.

End Trees.

(** ** More on the CSS selector builder *)

Module Selectors.
Import JS Objects.

(** One call of a method of [CssSelector] in a chain. *)
Inductive call : Type :=
| Element (value : string)
| Id (value : string)
| Class (value : string)
| Attr (value : string)
| PseudoClass (value : string)
| PseudoElement (value : string).

(** The six methods. *)
Inductive kind : Type :=
| KElement | KId | KClass | KAttr | KPseudoClass | KPseudoElement.

Definition kind_of (c : call) : kind :=
  match c with
  | Element _ => KElement
  | Id _ => KId
  | Class _ => KClass
  | Attr _ => KAttr
  | PseudoClass _ => KPseudoClass
  | PseudoElement _ => KPseudoElement
  end.

Definition apply_call (c : call) (this : CssSelector) : completion CssSelector :=
  match c with
  | Element v => set_element v this
  | Id v => set_id v this
  | Class v => add_class v this
  | Attr v => add_attr v this
  | PseudoClass v => add_pseudoClass v this
  | PseudoElement v => set_pseudoElement v this
  end.

(** The chain [this.c1(...).c2(...)...]. *)
Fixpoint chain (calls : list call) (this : CssSelector) : completion CssSelector :=
  match calls with
  | [] => Return this
  | c :: rest => bind (apply_call c this) (chain rest)
  end.

(** [cssSelectorBuilder.c1(...).c2(...)...]: the first call is made on a
    new selector. *)
Definition build (calls : list call) : completion CssSelector :=
  chain calls new_CssSelector.

(** The fragment a call contributes to each group of the selector. *)
Definition fragment (k : kind) (c : call) : string :=
  match k, c with
  | KElement, Element v => v
  | KId, Id v => ("#" ++ v)%string
  | KClass, Class v => ("." ++ v)%string
  | KAttr, Attr v => ("[" ++ v ++ "]")%string
  | KPseudoClass, PseudoClass v => (":" ++ v)%string
  | KPseudoElement, PseudoElement v => ("::" ++ v)%string
  | _, _ => EmptyString
  end.

(** The fragments of one kind, in the order of the calls. *)
Definition group (k : kind) (calls : list call) : string :=
  String.concat "" (map (fragment k) calls).

(** The text of a chain: its fragments grouped by kind, the groups in the
    order of the CSS syntax. *)
Definition render (calls : list call) : string :=
  (group KElement calls ++ group KId calls ++ group KClass calls ++
   group KAttr calls ++ group KPseudoClass calls ++ group KPseudoElement calls)%string.

(** The text a selector holds for each kind. *)
Definition held (k : kind) (this : CssSelector) : string :=
  match k with
  | KElement => or_empty (element this)
  | KId => or_empty (id this)
  | KClass => String.concat "" (classes this)
  | KAttr => String.concat "" (attrs this)
  | KPseudoClass => String.concat "" (pseudoClasses this)
  | KPseudoElement => or_empty (pseudoElement this)
  end.

(** A text that is not empty, hence truthy. *)
Definition nonempty_text (s : string) : bool := negb (String.eqb s EmptyString).

(** The number of calls that set the part [k] to a non-empty text. *)
Definition settings (k : kind) (calls : list call) : nat :=
  length (List.filter (fun c => nonempty_text (fragment k c)) calls).

(** *** Calls of different methods commute *)

(** The builder does not look at the order of the parts: two calls of
    different methods give the same selector, or the same error, in
    either order. *)
Theorem calls_of_different_kinds_commute (c1 c2 : call) (this : CssSelector) :
  kind_of c1 <> kind_of c2 ->
  bind (apply_call c1 this) (apply_call c2)
  = bind (apply_call c2 this) (apply_call c1).
Proof.
  intros Hkind.
  destruct c1, c2; try (exfalso; apply Hkind; reflexivity);
    repeat first
      [ progress cbn [bind apply_call element id pseudoElement classes attrs
                      pseudoClasses]
      | progress unfold set_element, set_id, set_pseudoElement, add_class,
                        add_attr, add_pseudoClass
      | match goal with
        | H : truthy ?v = _ |- context [truthy ?v] => rewrite H
        | |- context [truthy ?v] => destruct (truthy v) eqn:?
        end ];
    reflexivity.
Qed.

Lemma calls_of_different_kinds_commute_witness :
  bind (apply_call (Class "container") new_CssSelector) (apply_call (Id "main"))
  = bind (apply_call (Id "main") new_CssSelector) (apply_call (Class "container")).
Proof.
  apply (calls_of_different_kinds_commute (Class "container") (Id "main")).
  discriminate.
Defined.

(** *** What a chain that returns has built *)

Lemma concat_empty_cons (x : string) (xs : list string) :
  String.concat "" (x :: xs) = (x ++ String.concat "" xs)%string.
Proof.
  destruct xs as [| y ys]; [symmetry; apply Katas3.append_empty | reflexivity].
Qed.

Lemma concat_empty_snoc (xs : list string) (x : string) :
  String.concat "" (xs ++ [x]) = (String.concat "" xs ++ x)%string.
Proof.
  induction xs as [| y ys IH]; [reflexivity |].
  change ((y :: ys) ++ [x]) with (y :: (ys ++ [x])).
  rewrite !concat_empty_cons, IH, Wrap.string_append_assoc. reflexivity.
Qed.

Lemma falsy_or_empty (v : option string) :
  truthy v = false -> or_empty v = EmptyString.
Proof.
  destruct v as [s |]; [| reflexivity]. cbn [truthy or_empty].
  destruct (String.eqb_spec s EmptyString); [auto | discriminate].
Qed.

(** A call that returns adds its fragment to the text held for its kind
    and leaves the others. *)
Lemma apply_call_held (c : call) (this this' : CssSelector) (k : kind) :
  apply_call c this = Return this' ->
  held k this' = (held k this ++ fragment k c)%string.
Proof.
  destruct c; cbn [apply_call];
    unfold set_element, set_id, set_pseudoElement, add_class, add_attr,
           add_pseudoClass;
    try match goal with
        | |- context [truthy ?v] =>
            destruct (truthy v) eqn:Hset; [discriminate |];
            apply falsy_or_empty in Hset
        end;
    intros [= <-]; destruct k;
    cbn [held fragment element id classes attrs pseudoClasses pseudoElement
         or_empty];
    rewrite ?Katas3.append_empty, ?concat_empty_snoc, ?Hset; reflexivity.
Qed.

Lemma chain_held (calls : list call) (k : kind) :
  forall this this',
    chain calls this = Return this' ->
    held k this' = (held k this ++ group k calls)%string.
Proof.
  unfold group. induction calls as [| c calls IH]; intros this this' Hchain.
  - injection Hchain as <-. symmetry. apply Katas3.append_empty.
  - cbn [chain] in Hchain.
    destruct (apply_call c this) as [mid | msg] eqn:Hcall; [| discriminate].
    cbn [bind] in Hchain. rewrite (IH mid this' Hchain).
    rewrite (apply_call_held c this mid k Hcall).
    cbn [map]. rewrite concat_empty_cons, Wrap.string_append_assoc. reflexivity.
Qed.

(** When a chain started on the builder returns, the text of the selector
    is made of the fragments of the calls, grouped by kind in the order
    element, id, classes, attributes, pseudo-classes, pseudo-element, and
    in the order of the calls inside a group. *)
Theorem stringify_of_chain (calls : list call) (this : CssSelector) :
  build calls = Return this -> stringify this = render calls.
Proof.
  intros Hbuild. unfold stringify, render.
  change (or_empty (element this)) with (held KElement this).
  change (or_empty (id this)) with (held KId this).
  change (String.concat "" (classes this)) with (held KClass this).
  change (String.concat "" (attrs this)) with (held KAttr this).
  change (String.concat "" (pseudoClasses this)) with (held KPseudoClass this).
  change (or_empty (pseudoElement this)) with (held KPseudoElement this).
  rewrite !(chain_held calls _ new_CssSelector this Hbuild). reflexivity.
Qed.

Lemma stringify_of_chain_witness :
  stringify {| element := Some "a"%string; id := None; classes := [];
               attrs := ["[disabled]"%string];
               pseudoClasses := [":focus"%string]; pseudoElement := None |}
  = render [PseudoClass "focus"; Element "a"; Attr "disabled"].
Proof.
  apply (stringify_of_chain [PseudoClass "focus"; Element "a"; Attr "disabled"]).
  reflexivity.
Defined.

(** *** Element, id and pseudo-element are set once *)

Lemma apply_call_settings (c : call) (this this' : CssSelector) (k : kind) :
  k = KElement \/ k = KId \/ k = KPseudoElement ->
  apply_call c this = Return this' ->
  nonempty_text (held k this) = true ->
  nonempty_text (fragment k c) = false /\ nonempty_text (held k this') = true.
Proof.
  intros Hk Hcall Hheld.
  pose proof (apply_call_held c this this' k Hcall) as Hnew.
  assert (Hfrag : nonempty_text (fragment k c) = false).
  { destruct Hk as [-> | [-> | ->]]; destruct c; try reflexivity;
      cbn [apply_call] in Hcall;
      unfold set_element, set_id, set_pseudoElement in Hcall;
      cbn [held] in Hheld;
      match type of Hcall with
      | context [truthy ?v] =>
          destruct v as [s |]; cbn [truthy or_empty] in Hcall, Hheld;
          unfold nonempty_text in Hheld; [rewrite Hheld in Hcall |];
          discriminate
      end. }
  split; [exact Hfrag |].
  unfold nonempty_text in Hfrag. apply negb_false_iff in Hfrag.
  apply String.eqb_eq in Hfrag. rewrite Hnew, Hfrag, Katas3.append_empty.
  exact Hheld.
Qed.

Lemma chain_settings_none (calls : list call) (k : kind) :
  k = KElement \/ k = KId \/ k = KPseudoElement ->
  forall this this',
    chain calls this = Return this' ->
    nonempty_text (held k this) = true ->
    settings k calls = 0%nat.
Proof.
  intros Hk. unfold settings.
  induction calls as [| c calls IH]; intros this this' Hchain Hheld; [reflexivity |].
  cbn [chain] in Hchain.
  destruct (apply_call c this) as [mid | msg] eqn:Hcall; [| discriminate].
  cbn [bind] in Hchain.
  destruct (apply_call_settings c this mid k Hk Hcall Hheld) as [Hfrag Hmid].
  cbn [List.filter]. rewrite Hfrag. apply (IH mid this' Hchain Hmid).
Qed.

Lemma chain_settings_once (calls : list call) (k : kind) :
  k = KElement \/ k = KId \/ k = KPseudoElement ->
  forall this this',
    chain calls this = Return this' -> (settings k calls <= 1)%nat.
Proof.
  intros Hk. unfold settings.
  induction calls as [| c calls IH]; intros this this' Hchain; [cbn; lia |].
  cbn [chain] in Hchain.
  destruct (apply_call c this) as [mid | msg] eqn:Hcall; [| discriminate].
  cbn [bind] in Hchain. cbn [List.filter].
  destruct (nonempty_text (fragment k c)) eqn:Hfrag.
  - cbn [length].
    assert (Hmid : nonempty_text (held k mid) = true).
    { rewrite (apply_call_held c this mid k Hcall).
      unfold nonempty_text in *. apply negb_true_iff in Hfrag.
      apply negb_true_iff. apply String.eqb_neq. apply String.eqb_neq in Hfrag.
      destruct (held k this); [exact Hfrag | discriminate]. }
    pose proof (chain_settings_none calls k Hk mid this' Hchain Hmid) as Hnone.
    unfold settings in Hnone. lia.
  - apply (IH mid this' Hchain).
Qed.

(** A chain that returns has at most one call of [id] and at most one of
    [pseudoElement], wherever they stand in the chain, and at most one
    call of [element] with a non-empty name: any further one throws. *)
Theorem chain_sets_parts_once (calls : list call) (this this' : CssSelector) :
  chain calls this = Return this' ->
  (settings KElement calls <= 1)%nat /\
  (settings KId calls <= 1)%nat /\
  (settings KPseudoElement calls <= 1)%nat.
Proof.
  intros Hchain. repeat split;
    eapply chain_settings_once; eauto.
Qed.

Lemma chain_sets_parts_once_witness :
  (settings KElement [Id "main"; Class "container"; Class "editable"] <= 1)%nat /\
  (settings KId [Id "main"; Class "container"; Class "editable"] <= 1)%nat /\
  (settings KPseudoElement [Id "main"; Class "container"; Class "editable"] <= 1)%nat.
Proof.
  eapply (chain_sets_parts_once [Id "main"; Class "container"; Class "editable"]
                                new_CssSelector).
  reflexivity.
Defined.

End Selectors.

(** ** expandBraces *)

Module Braces.

(** [l.map(prefix => prefix + s)] *)
Definition append_all (l : list string) (s : string) : list string :=
  map (fun prefix => (prefix ++ s)%string) l.

(** [result.flatMap(prefix => options.map(opt => prefix + opt))] *)
Definition combine_all (result options : list string) : list string :=
  flat_map (fun prefix => map (fun opt => (prefix ++ opt)%string) options) result.

Definition one (c : ascii) : string := String c EmptyString.

(** The inner function [parseOptions], from the position [pos] on; the
    position is held as [rest], the part of [str] that starts there.  The
    result is the pair [[options, newPos]], [newPos] held the same way. *)
Fixpoint parseOptions (rest : string) (options : list string) (current : string)
    (braceLevel : nat) : list string * string :=
  match rest with
  | EmptyString => (append_all options current, EmptyString)
  | String c rest' =>
      if Ascii.eqb c "{" then
        parseOptions rest' options (current ++ one c) (S braceLevel)
      else if Ascii.eqb c "}" then
        match braceLevel with
        | S level => parseOptions rest' options (current ++ one c) level
        | O => (append_all options current, rest')
        end
      else if Ascii.eqb c "," && (braceLevel =? 0)%nat then
        parseOptions rest' (append_all options current) EmptyString braceLevel
      else if Ascii.eqb c "\" then
        match rest' with
        | String d rest'' => parseOptions rest'' options (current ++ one d) braceLevel
        | EmptyString => (append_all options (current ++ ""), EmptyString)
        end
      else parseOptions rest' options (current ++ one c) braceLevel
  end.

(** The loop of the inner function [parse]; [fuel] bounds the number of
    rounds, and [None] means that the bound was reached. *)
Fixpoint parse_loop (fuel : nat) (rest : string) (result : list string)
  : option (list string) :=
  match fuel with
  | O => None
  | S fuel' =>
      match rest with
      | EmptyString => Some result
      | String c rest' =>
          if Ascii.eqb c "{" then
            let (options, after) := parseOptions rest' [EmptyString] EmptyString 0 in
            parse_loop fuel' after (combine_all result options)
          else if Ascii.eqb c "\" then
            match rest' with
            | String d rest'' => parse_loop fuel' rest'' (append_all result (one d))
            | EmptyString => parse_loop fuel' EmptyString (append_all result "")
            end
          else parse_loop fuel' rest' (append_all result (one c))
      end
  end.

(** The strings [expandBraces(str)] yields, in order.  A round of the
    loop reads at least one character. *)
Definition expandBraces (str : string) : option (list string) :=
  parse_loop (S (String.length str)) str [EmptyString].

(** Neither a brace that opens nor a backslash occurs in [s]. *)
Fixpoint plain (s : string) : Prop :=
  match s with
  | EmptyString => True
  | String c rest => c <> "{"%char /\ c <> "\"%char /\ plain rest
  end.

(** *** The options of a group are never kept apart *)

Lemma parseOptions_bounded (n : nat) :
  forall rest options current braceLevel,
    (String.length rest <= n)%nat ->
    length options = 1%nat ->
    length (fst (parseOptions rest options current braceLevel)) = 1%nat /\
    (String.length (snd (parseOptions rest options current braceLevel))
     <= String.length rest)%nat.
Proof.
  induction n as [| n IH]; intros rest options current braceLevel Hn Hone;
    assert (Hall : forall s, length (append_all options s) = 1%nat)
      by (intros s; unfold append_all; rewrite length_map; exact Hone);
    (destruct rest as [| c rest]; cbn [parseOptions fst snd String.length];
     [split; [apply Hall | lia] |]);
    cbn [String.length] in Hn; [lia |].
  assert (Hrest : forall o cur lvl, length o = 1%nat ->
            length (fst (parseOptions rest o cur lvl)) = 1%nat /\
            (String.length (snd (parseOptions rest o cur lvl))
             <= S (String.length rest))%nat).
  { intros o cur lvl Ho.
    destruct (IH rest o cur lvl ltac:(lia) Ho). split; [assumption | lia]. }
  destruct (Ascii.eqb c "{"); [apply Hrest; exact Hone |].
  destruct (Ascii.eqb c "}").
  { destruct braceLevel; [cbn [fst snd]; split; [apply Hall | lia] |].
    apply Hrest; exact Hone. }
  destruct (Ascii.eqb c "," && (braceLevel =? 0)%nat);
    [apply Hrest; apply Hall |].
  destruct (Ascii.eqb c "\"); [| apply Hrest; exact Hone].
  destruct rest as [| d rest'']; cbn [fst snd String.length];
    [split; [apply Hall | lia] |].
  cbn [String.length] in Hn.
  destruct (IH rest'' options (current ++ one d)%string braceLevel ltac:(lia) Hone).
  split; [assumption | lia].
Qed.

Lemma parseOptions_single (rest : string) :
  forall options current braceLevel,
    length options = 1%nat ->
    length (fst (parseOptions rest options current braceLevel)) = 1%nat /\
    (String.length (snd (parseOptions rest options current braceLevel))
     <= String.length rest)%nat.
Proof.
  intros. apply (parseOptions_bounded (String.length rest)); [lia | assumption].
Qed.

Lemma parse_loop_single (fuel : nat) :
  forall rest result,
    (String.length rest < fuel)%nat -> length result = 1%nat ->
    exists s, parse_loop fuel rest result = Some [s].
Proof.
  induction fuel as [| fuel IH]; intros rest result Hfuel Hone; [lia |].
  assert (Hall : forall s, length (append_all result s) = 1%nat)
    by (intros s; unfold append_all; rewrite length_map; exact Hone).
  destruct rest as [| c rest]; cbn [parse_loop].
  - destruct result as [| s [| ? ?]]; try discriminate. eauto.
  - cbn [String.length] in Hfuel.
    destruct (Ascii.eqb c "{").
    + pose proof (parseOptions_single rest [EmptyString] EmptyString 0 eq_refl)
        as [Hopts Hafter].
      destruct (parseOptions rest [EmptyString] EmptyString 0) as [options after].
      cbn [fst snd] in Hopts, Hafter.
      apply IH; [lia |].
      destruct result as [| r [| ? ?]]; try discriminate.
      destruct options as [| o [| ? ?]]; try discriminate. reflexivity.
    + destruct (Ascii.eqb c "\"); [| apply IH; [lia | apply Hall]].
      destruct rest as [| d rest'']; apply IH;
        cbn [String.length] in *; try lia; apply Hall.
Qed.

(** Whatever the string, [expandBraces] ends and yields exactly one
    string: the alternatives of a group are glued together, not told
    apart. *)
Theorem expandBraces_yields_one (str : string) :
  exists s, expandBraces str = Some [s].
Proof.
  unfold expandBraces. apply parse_loop_single; [lia | reflexivity].
Qed.

Lemma parse_loop_plain (rest : string) :
  forall fuel prefix,
    plain rest -> (String.length rest < fuel)%nat ->
    parse_loop fuel rest [prefix] = Some [(prefix ++ rest)%string].
Proof.
  induction rest as [| c rest IH]; intros fuel prefix Hplain Hfuel;
    (destruct fuel as [| fuel]; [lia |]); cbn [parse_loop].
  - rewrite Katas3.append_empty. reflexivity.
  - destruct Hplain as (Hbrace & Hslash & Hplain). cbn [String.length] in Hfuel.
    destruct (Ascii.eqb_spec c "{") as [? | _]; [contradiction |].
    destruct (Ascii.eqb_spec c "\") as [? | _]; [contradiction |].
    cbn [append_all map]. rewrite IH by (assumption || lia).
    rewrite Wrap.string_append_assoc. reflexivity.
Qed.

(** A string with no opening brace and no backslash is yielded as it
    is. *)
Theorem expandBraces_plain (str : string) :
  plain str -> expandBraces str = Some [str].
Proof.
  intros Hplain. unfold expandBraces.
  rewrite (parse_loop_plain str (S (String.length str)) EmptyString Hplain) by lia.
  reflexivity.
Qed.

Lemma expandBraces_plain_witness :
  expandBraces "nothing to do" = Some ["nothing to do"%string].
Proof.
  apply (expandBraces_plain "nothing to do"). cbn.
  repeat split; discriminate.
Defined.

End Braces.

(** ** canDominoesMakeRow *)

Module Dominoes.

(** A tile [[x, y]]. *)
Definition tile : Type := (Z * Z)%type.

(** [used.includes(i)] *)
Definition includes (used : list nat) (i : nat) : bool := existsb (Nat.eqb i) used.

(** [cond && call]: the call is made only when the condition holds. *)
Definition and_call (cond : bool) (call : option bool) : option bool :=
  if cond then call else Some false.

Section Chain.
Variable dominoes : list tile.

(** The loop of [tryChain], over the indices that are left; [call] stands
    for [tryChain] itself, and [None] for a call that did not end. *)
Fixpoint try_tiles (call : list nat -> Z -> option bool) (indices : list nat)
    (used : list nat) (current : Z) : option bool :=
  match indices with
  | [] => Some false
  | i :: rest =>
      if includes used i then try_tiles call rest used current
      else
        match dominoes !! i with
        | None => try_tiles call rest used current
        | Some (a, b) =>
            match and_call (current =? a) (call (used ++ [i]) b) with
            | None => None
            | Some true => Some true
            | Some false =>
                match and_call (current =? b) (call (used ++ [i]) a) with
                | None => None
                | Some true => Some true
                | Some false => try_tiles call rest used current
                end
            end
        end
  end.

(** The inner function [tryChain]; its third argument is never read and
    is left out.  [fuel] bounds the depth of the recursion. *)
Fixpoint tryChain (fuel : nat) (used : list nat) (current : Z) : option bool :=
  match fuel with
  | O => None
  | S fuel' =>
      if (length used =? length dominoes)%nat then Some true
      else try_tiles (tryChain fuel') (seq 0 (length dominoes)) used current
  end.

(** The last loop of the function, over the indices that are left. *)
Fixpoint try_starts (indices : list nat) : option bool :=
  match indices with
  | [] => Some false
  | i :: rest =>
      match dominoes !! i with
      | None => try_starts rest
      | Some (a, b) =>
          match tryChain (length dominoes) [i] b with
          | None => None
          | Some true => Some true
          | Some false =>
              match tryChain (length dominoes) [i] a with
              | None => None
              | Some true => Some true
              | Some false => try_starts rest
              end
          end
      end
  end.

Definition canDominoesMakeRow : option bool :=
  if (length dominoes =? 0)%nat then Some true
  else try_starts (seq 0 (length dominoes)).

(** The tile of index [i], laid as [t]: as it is or turned round. *)
Definition laid (i : nat) (t : tile) : Prop :=
  exists a b, dominoes !! i = Some (a, b) /\ (t = (a, b) \/ t = (b, a)).

(** A row of tiles that starts with the value [current], each tile
    starting with the value the one before ends with. *)
Fixpoint linked_from (current : Z) (row : list tile) : Prop :=
  match row with
  | [] => True
  | (x, y) :: rest => x = current /\ linked_from y rest
  end.

(** The tiles not in [used] can be laid in a row that starts with
    [current]. *)
Definition completes (used : list nat) (current : Z) : Prop :=
  exists (order : list nat) (row : list tile),
    Permutation (used ++ order) (seq 0 (length dominoes)) /\
    Forall2 laid order row /\
    linked_from current row.

(** All the tiles can be laid in one row. *)
Definition makes_row : Prop :=
  exists (order : list nat) (row : list tile) (first : Z),
    Permutation order (seq 0 (length dominoes)) /\
    Forall2 laid order row /\
    linked_from first row.

End Chain.

(** A call gives an answer, and the answer is [true] exactly when [P]
    holds. *)
Definition answers (r : option bool) (P : Prop) : Prop :=
  exists b, r = Some b /\ (b = true <-> P).

(** The indices in [used] are indices of tiles, each once. *)
Definition indices_of (dominoes : list tile) (used : list nat) : Prop :=
  List.NoDup used /\ Forall (fun i => i < length dominoes)%nat used.

(** Some tile not in [used] starts or ends with [current] and, laid that
    way round, leaves tiles that can be laid after it. *)
Definition next_tile (dominoes : list tile) (indices used : list nat) (current : Z)
  : Prop :=
  exists i a b,
    In i indices /\ ~ In i used /\ dominoes !! i = Some (a, b) /\
    ((current = a /\ completes dominoes (used ++ [i]) b) \/
     (current = b /\ completes dominoes (used ++ [i]) a)).

(** *** The search finds a row exactly when there is one *)

Lemma answers_true (P : Prop) : P -> answers (Some true) P.
Proof. intros HP. exists true. tauto. Qed.

Lemma answers_false (P : Prop) : ~ P -> answers (Some false) P.
Proof. intros HP. exists false. split; [reflexivity |]. split; [discriminate | tauto]. Qed.

Lemma answers_iff (r : option bool) (P Q : Prop) :
  (P <-> Q) -> answers r P -> answers r Q.
Proof. intros HPQ (b & Hr & Hb). exists b. tauto. Qed.

Lemma includes_In (used : list nat) (i : nat) :
  includes used i = true <-> In i used.
Proof.
  unfold includes. rewrite existsb_exists. split.
  - intros (x & Hx & Heq). apply Nat.eqb_eq in Heq. now subst.
  - intros Hi. exists i. split; [exact Hi | apply Nat.eqb_refl].
Qed.

Lemma and_call_answers (cond : bool) (call : option bool) (P : Prop) :
  answers call P -> answers (and_call cond call) (cond = true /\ P).
Proof.
  intros Hcall. destruct cond; cbn [and_call].
  - apply (answers_iff call P); [tauto | exact Hcall].
  - apply answers_false. intros [Hc _]. discriminate.
Qed.

Lemma try_tiles_answers (dominoes : list tile)
      (call : list nat -> Z -> option bool) (used : list nat) (current : Z) :
  (forall i cur, ~ In i used -> (i < length dominoes)%nat ->
                 answers (call (used ++ [i]) cur)
                         (completes dominoes (used ++ [i]) cur)) ->
  forall indices,
    answers (try_tiles dominoes call indices used current)
            (next_tile dominoes indices used current).
Proof.
  intros Hcall. induction indices as [| i rest IH]; cbn [try_tiles].
  - apply answers_false. intros (i & a & b & [] & _).
  - assert (Hskip : (forall a b, dominoes !! i = Some (a, b) -> In i used \/
                       (~ (current = a /\ completes dominoes (used ++ [i]) b) /\
                        ~ (current = b /\ completes dominoes (used ++ [i]) a))) ->
                    answers (try_tiles dominoes call rest used current)
                            (next_tile dominoes (i :: rest) used current)).
    { intros Hno. apply (answers_iff _ (next_tile dominoes rest used current));
        [| exact IH].
      split.
      - intros (j & a & b & Hj & Hrest). exists j, a, b. split; [right; exact Hj | exact Hrest].
      - intros (j & a & b & [<- | Hj] & Hnew & Hlook & Hways).
        + destruct (Hno a b Hlook) as [? | [H1 H2]]; [contradiction | tauto].
        + exists j, a, b. tauto. }
    destruct (includes used i) eqn:Hinc.
    { apply Hskip. intros a b _. left. apply includes_In. exact Hinc. }
    assert (Hnew : ~ In i used)
      by (intros Hin; apply includes_In in Hin; congruence).
    destruct (dominoes !! i) as [[a b] |] eqn:Hlook;
      [| apply Hskip; intros a b Habs; discriminate Habs].
    assert (Hlt : (i < length dominoes)%nat)
      by (apply lookup_lt_is_Some; eauto).
    destruct (and_call_answers (current =? a) _ _ (Hcall i b Hnew Hlt))
      as ([|] & -> & Hfirst).
    { apply answers_true. exists i, a, b.
      destruct Hfirst as [Hfirst _]. destruct (Hfirst eq_refl) as [Ha Hb].
      apply Z.eqb_eq in Ha.
      split; [left; reflexivity |]. split; [exact Hnew |]. split; [exact Hlook |].
      left. tauto. }
    destruct (and_call_answers (current =? b) _ _ (Hcall i a Hnew Hlt))
      as ([|] & -> & Hsecond).
    { apply answers_true. exists i, a, b.
      destruct Hsecond as [Hsecond _]. destruct (Hsecond eq_refl) as [Hb Ha].
      apply Z.eqb_eq in Hb.
      split; [left; reflexivity |]. split; [exact Hnew |]. split; [exact Hlook |].
      right. tauto. }
    apply Hskip. intros a' b' [= <- <-]. right. split.
    + intros [Ha Hb]. assert (false = true); [| discriminate].
      apply Hfirst. split; [apply Z.eqb_eq; exact Ha | exact Hb].
    + intros [Hb Ha]. assert (false = true); [| discriminate].
      apply Hsecond. split; [apply Z.eqb_eq; exact Hb | exact Ha].
Qed.

Lemma indices_of_snoc (dominoes : list tile) (used : list nat) (i : nat) :
  indices_of dominoes used -> ~ In i used -> (i < length dominoes)%nat ->
  indices_of dominoes (used ++ [i]).
Proof.
  intros [Hnd Hall] Hnew Hlt. split.
  - apply (Permutation_NoDup (l := i :: used));
      [apply Permutation_cons_append | constructor; assumption].
  - apply Forall_app. split; [exact Hall | repeat constructor; exact Hlt].
Qed.

Lemma indices_of_full (dominoes : list tile) (used : list nat) :
  indices_of dominoes used -> length used = length dominoes ->
  Permutation used (seq 0 (length dominoes)).
Proof.
  intros [Hnd Hall] Hlen. apply NoDup_Permutation_bis.
  - exact Hnd.
  - rewrite length_seq. lia.
  - intros i Hi. apply in_seq. rewrite Forall_forall in Hall.
    specialize (Hall i). rewrite list_elem_of_In in Hall. specialize (Hall Hi). lia.
Qed.

(** With tiles left, a row goes on exactly when a tile can be laid next
    and the row goes on after it. *)
Lemma completes_next (dominoes : list tile) (used : list nat) (current : Z) :
  length used <> length dominoes ->
  completes dominoes used current
  <-> next_tile dominoes (seq 0 (length dominoes)) used current.
Proof.
  intros Hleft. split.
  - intros (order & row & Hperm & Hlaid & Hlink).
    destruct Hlaid as [| i t order row Hi Hlaid].
    { rewrite app_nil_r in Hperm. apply Permutation_length in Hperm.
      rewrite length_seq in Hperm. contradiction. }
    assert (Hin : In i (seq 0 (length dominoes))).
    { apply (Permutation_in _ Hperm). apply in_app_iff. right. left. reflexivity. }
    assert (Hnew : ~ In i used).
    { pose proof (seq_NoDup (length dominoes) 0) as Hnd.
      apply (Permutation_NoDup (Permutation_sym Hperm)) in Hnd.
      apply NoDup_remove_2 in Hnd. intros Hin'. apply Hnd.
      apply in_app_iff. left. exact Hin'. }
    destruct Hi as (a & b & Hlook & [-> | ->]); destruct Hlink as [Hcur Hlink];
      exists i, a, b; (split; [exact Hin |]); (split; [exact Hnew |]);
      (split; [exact Hlook |]); [left | right];
      (split; [symmetry; exact Hcur |]);
      exists order, row; rewrite <- app_assoc; auto.
  - intros (i & a & b & Hin & Hnew & Hlook & Hways).
    destruct Hways as [[-> (order & row & Hperm & Hlaid & Hlink)]
                      | [-> (order & row & Hperm & Hlaid & Hlink)]];
      rewrite <- app_assoc in Hperm.
    + exists (i :: order), ((a, b) :: row). split; [exact Hperm |]. split.
      * constructor; [exists a, b; auto | exact Hlaid].
      * split; [reflexivity | exact Hlink].
    + exists (i :: order), ((b, a) :: row). split; [exact Hperm |]. split.
      * constructor; [exists a, b; auto | exact Hlaid].
      * split; [reflexivity | exact Hlink].
Qed.

Lemma tryChain_answers (dominoes : list tile) :
  forall (fuel : nat) (used : list nat) (current : Z),
    indices_of dominoes used ->
    (length dominoes < fuel + length used)%nat ->
    answers (tryChain dominoes fuel used current)
            (completes dominoes used current).
Proof.
  induction fuel as [| fuel IH]; intros used current Hused Hfuel.
  - exfalso. destruct Hused as [Hnd Hall].
    assert (length used <= length (seq 0 (length dominoes)))%nat.
    { apply NoDup_incl_length; [exact Hnd |].
      intros i Hi. apply in_seq. rewrite Forall_forall in Hall.
      specialize (Hall i). rewrite list_elem_of_In in Hall.
      specialize (Hall Hi). lia. }
    rewrite length_seq in H. lia.
  - cbn [tryChain].
    destruct (Nat.eqb_spec (length used) (length dominoes)) as [Hfull | Hleft].
    + apply answers_true. exists [], []. rewrite app_nil_r.
      split; [apply indices_of_full; assumption |].
      split; [constructor | exact I].
    + apply (answers_iff _ (next_tile dominoes (seq 0 (length dominoes)) used current));
        [symmetry; apply completes_next; exact Hleft |].
      apply try_tiles_answers. intros i cur Hnew Hlt. apply IH.
      * apply indices_of_snoc; assumption.
      * rewrite length_app. cbn [length]. lia.
Qed.

(** The tile of index [i] can start a row of all the tiles. *)
Definition starts_row (dominoes : list tile) (indices : list nat) : Prop :=
  exists i a b,
    In i indices /\ dominoes !! i = Some (a, b) /\
    (completes dominoes [i] b \/ completes dominoes [i] a).

Lemma try_starts_answers (dominoes : list tile) :
  forall indices,
    answers (try_starts dominoes indices) (starts_row dominoes indices).
Proof.
  induction indices as [| i rest IH]; cbn [try_starts].
  - apply answers_false. intros (i & a & b & [] & _).
  - assert (Hskip : (forall a b, dominoes !! i = Some (a, b) ->
                       ~ completes dominoes [i] b /\ ~ completes dominoes [i] a) ->
                    answers (try_starts dominoes rest)
                            (starts_row dominoes (i :: rest))).
    { intros Hno. apply (answers_iff _ (starts_row dominoes rest)); [| exact IH].
      split.
      - intros (j & a & b & Hj & Hrest). exists j, a, b. split; [right; exact Hj | exact Hrest].
      - intros (j & a & b & [<- | Hj] & Hlook & Hways).
        + destruct (Hno a b Hlook). tauto.
        + exists j, a, b. tauto. }
    destruct (dominoes !! i) as [[a b] |] eqn:Hlook;
      [| apply Hskip; intros a b Habs; discriminate Habs].
    assert (Hlt : (i < length dominoes)%nat)
      by (apply lookup_lt_is_Some; eauto).
    assert (Hone : indices_of dominoes [i]).
    { split; [repeat constructor; intros [] | repeat constructor; exact Hlt]. }
    destruct (tryChain_answers dominoes (length dominoes) [i] b Hone
                ltac:(cbn [length]; lia)) as ([|] & -> & Hfirst).
    { apply answers_true. exists i, a, b.
      split; [left; reflexivity |]. split; [exact Hlook |]. left. tauto. }
    destruct (tryChain_answers dominoes (length dominoes) [i] a Hone
                ltac:(cbn [length]; lia)) as ([|] & -> & Hsecond).
    { apply answers_true. exists i, a, b.
      split; [left; reflexivity |]. split; [exact Hlook |]. right. tauto. }
    apply Hskip. intros a' b' [= <- <-]. split; intros Habs.
    + assert (false = true) by tauto. discriminate.
    + assert (false = true) by tauto. discriminate.
Qed.

Lemma makes_row_starts (dominoes : list tile) :
  length dominoes <> 0%nat ->
  makes_row dominoes <-> starts_row dominoes (seq 0 (length dominoes)).
Proof.
  intros Hne. split.
  - intros (order & row & first & Hperm & Hlaid & Hlink).
    destruct Hlaid as [| i t order row Hi Hlaid].
    { apply Permutation_length in Hperm. rewrite length_seq in Hperm.
      cbn in Hperm. congruence. }
    assert (Hin : In i (seq 0 (length dominoes)))
      by (apply (Permutation_in _ Hperm); left; reflexivity).
    destruct Hi as (a & b & Hlook & [-> | ->]); destruct Hlink as [_ Hlink];
      exists i, a, b; (split; [exact Hin |]); (split; [exact Hlook |]);
      [left | right]; exists order, row; auto.
  - intros (i & a & b & Hin & Hlook & [Hway | Hway]);
      destruct Hway as (order & row & Hperm & Hlaid & Hlink).
    + exists (i :: order), ((a, b) :: row), a. split; [exact Hperm |]. split.
      * constructor; [exists a, b; auto | exact Hlaid].
      * split; [reflexivity | exact Hlink].
    + exists (i :: order), ((b, a) :: row), b. split; [exact Hperm |]. split.
      * constructor; [exists a, b; auto | exact Hlaid].
      * split; [reflexivity | exact Hlink].
Qed.

(** The function always answers, and its answer is [true] exactly when
    the tiles, each used once and laid either way round, can be put in
    one row in which every tile starts with the value the tile before it
    ends with. *)
Theorem canDominoesMakeRow_correct (dominoes : list tile) :
  exists b, canDominoesMakeRow dominoes = Some b /\
            (b = true <-> makes_row dominoes).
Proof.
  unfold canDominoesMakeRow.
  destruct (Nat.eqb_spec (length dominoes) 0) as [Hempty | Hne].
  - apply answers_true. exists [], [], 0. rewrite Hempty.
    split; [reflexivity |]. split; [constructor | exact I].
  - apply (answers_iff _ (starts_row dominoes (seq 0 (length dominoes))));
      [symmetry; apply makes_row_starts; exact Hne |].
    apply try_starts_answers.
Qed.

End Dominoes.

(** ** What findStringInSnakingPuzzle finds *)

Module Snake.
Import JS Katas3.

(** A cell of the grid: its row and its column. *)
Definition cell : Type := (Z * Z)%type.

(** The four neighbours of a cell are those [directions] lead to. *)
Definition adjacent (a b : cell) : Prop :=
  exists d, In d directions /\ b = (fst a + fst d, snd a + snd d).

Section Path.
Variable p : list string.
Variable searchStr : string.
Variables rows cols : Z.

Definition in_grid (c : cell) : Prop :=
  0 <= fst c < rows /\ 0 <= snd c < cols.

(** The character of the puzzle at the cell. *)
Definition letter (c : cell) : option ascii :=
  match p !! Z.to_nat (fst c) with
  | Some line => char_at line (Z.to_nat (snd c))
  | None => None
  end.

(** [path] is a snake that spells [searchStr] from the position [index]
    on: its cells are in the grid, each is a neighbour of the one before,
    and the cell number [k] carries the character [index + k]. *)
Fixpoint snake (index : nat) (path : list cell) : Prop :=
  match path with
  | [] => True
  | c :: rest =>
      in_grid c /\
      same_char (letter c) (char_at searchStr index) = true /\
      match rest with
      | [] => True
      | next :: _ => adjacent c next
      end /\
      snake (S index) rest
  end.

(** What [dfs(row, col, index)] looks for in the store [h]: the rest of
    [searchStr] from [index] on, spelled by a snake that starts at the
    cell, does not cross itself and avoids the cells marked in [h]. *)
Definition found (h : store) (row col : Z) (index : nat) : Prop :=
  index = String.length searchStr \/
  exists path,
    length path = (String.length searchStr - index)%nat /\
    head path = Some (row, col) /\
    snake index path /\
    List.NoDup path /\
    (forall c, In c path -> visited_at h (fst c) (snd c) = false).

End Path.

(** The number of columns the function works with: the length of the
    first row. *)
Definition grid_cols (p : list string) : Z :=
  match p with
  | first :: _ => len first
  | [] => 0
  end.

(** [searchStr] can be read along a snake of the puzzle that does not
    cross itself. *)
Definition spelled (p : list string) (searchStr : string) : Prop :=
  exists path,
    length path = String.length searchStr /\
    List.NoDup path /\
    snake p searchStr (Z.of_nat (length p)) (grid_cols p) 0 path.

(** A call started in [h] ends; it answers [true] exactly when [P]
    holds, and when it answers [false] it leaves the store as it was. *)
Definition settles (h : store) (r : option (bool * store)) (P : Prop) : Prop :=
  exists (b : bool) (h' : store),
    r = Some (b, h') /\ (b = true <-> P) /\ (b = false -> h' = h).

(** *** Marks *)

Lemma store_eta (h h' : store) :
  puzzle h = puzzle h' -> visited h = visited h' -> h = h'.
Proof. destruct h, h'; cbn; intros -> ->; reflexivity. Qed.

Lemma visited_at_mark_other (h : store) (r c r' c' : Z) (b : bool) :
  0 <= r -> 0 <= c -> 0 <= r' -> 0 <= c' -> (r', c') <> (r, c) ->
  visited_at (mark r c b h) r' c' = visited_at h r' c'.
Proof.
  intros Hr Hc Hr' Hc' Hne. unfold visited_at, mark; cbn [visited].
  destruct (decide (Z.to_nat r = Z.to_nat r')) as [Heq | Hrow].
  - rewrite <- Heq, list_lookup_alter_eq.
    destruct (visited h !! Z.to_nat r) as [line |]; [| reflexivity].
    cbn [fmap option_fmap option_map].
    rewrite list_lookup_insert_ne; [reflexivity |].
    intros Hcol. apply Hne. f_equal; lia.
  - rewrite list_lookup_alter_ne by exact Hrow. reflexivity.
Qed.

Lemma visited_at_mark_same (rows cols : Z) (h : store) (r c : Z) :
  shaped rows cols (visited h) -> 0 <= r < rows -> 0 <= c < cols ->
  visited_at (mark r c true h) r c = true.
Proof.
  intros [Hlen Hall] Hr Hc. unfold visited_at, mark; cbn [visited].
  rewrite list_lookup_alter_eq.
  destruct (visited h !! Z.to_nat r) as [line |] eqn:Hline.
  - cbn [fmap option_fmap option_map].
    rewrite list_lookup_insert_eq; [reflexivity |].
    rewrite Forall_forall in Hall.
    assert (Z.of_nat (length line) = cols)
      by (apply Hall; eapply list_elem_of_lookup_2; exact Hline).
    lia.
  - apply lookup_ge_None in Hline. lia.
Qed.

(** *** One step of a snake *)

Lemma snake_in_grid (p : list string) (searchStr : string) (rows cols : Z)
      (path : list cell) :
  forall index c,
    snake p searchStr rows cols index path -> In c path -> in_grid rows cols c.
Proof.
  induction path as [| x path IH]; intros index c Hsnake Hc; [destruct Hc |].
  destruct Hsnake as (Hx & _ & _ & Hrest). destruct Hc as [<- | Hc].
  - exact Hx.
  - apply (IH (S index)); assumption.
Qed.

Lemma found_blocked (p : list string) (searchStr : string) (rows cols : Z)
      (h : store) (row col : Z) (index : nat) :
  puzzle h = p -> index <> String.length searchStr ->
  (row <? 0) || (row >=? rows) || (col <? 0) || (col >=? cols)
    || visited_at h row col = true \/
  same_char (puzzle_at h row col) (char_at searchStr index) = false ->
  ~ found p searchStr rows cols h row col index.
Proof.
  intros Hp Hindex Hblock [Hend | (path & Hlen & Hhead & Hsnake & _ & Hfree)];
    [contradiction |].
  destruct path as [| c rest]; [discriminate Hhead |].
  injection Hhead as ->. destruct Hsnake as ([Hr Hc] & Hfit & _).
  specialize (Hfree (row, col) ltac:(left; reflexivity)). cbn [fst snd] in *.
  destruct Hblock as [Hguard | Hmis].
  - rewrite Hfree in Hguard.
    destruct (Z.ltb_spec row 0); [lia |]. destruct (Z.geb_spec row rows); [lia |].
    destruct (Z.ltb_spec col 0); [lia |]. destruct (Z.geb_spec col cols); [lia |].
    discriminate Hguard.
  - unfold puzzle_at in Hmis. rewrite Hp in Hmis. unfold letter in Hfit.
    cbn [fst snd] in Hfit. congruence.
Qed.

Lemma found_step (p : list string) (searchStr : string) (rows cols : Z)
      (h : store) (row col : Z) (index : nat) :
  puzzle h = p -> shaped rows cols (visited h) ->
  (index < String.length searchStr)%nat ->
  0 <= row < rows -> 0 <= col < cols ->
  visited_at h row col = false ->
  same_char (puzzle_at h row col) (char_at searchStr index) = true ->
  found p searchStr rows cols h row col index
  <-> exists d, In d directions /\
        found p searchStr rows cols (mark row col true h)
              (row + fst d) (col + snd d) (S index).
Proof.
  intros Hp Hshape Hindex Hrow Hcol Hfree Hfit. split.
  - intros [Hend | (path & Hlen & Hhead & Hsnake & Hnd & Hclear)]; [lia |].
    destruct path as [| c rest]; [discriminate Hhead |].
    injection Hhead as ->. cbn [length] in Hlen.
    destruct Hsnake as (_ & _ & Hnext & Hsnake).
    destruct rest as [| next rest].
    + exists (0, 1). split; [left; reflexivity |]. left. cbn [length] in Hlen. lia.
    + destruct Hnext as (d & Hd & ->). cbn [fst snd] in *.
      exists d. split; [exact Hd |]. right.
      exists ((row + fst d, col + snd d) :: rest).
      cbn [length] in Hlen |- *. split; [lia |].
      split; [reflexivity |]. split; [exact Hsnake |].
      apply NoDup_cons_iff in Hnd as [Hnotin Hnd]. split; [exact Hnd |].
      intros [cr cc] Hc.
      destruct (snake_in_grid _ _ _ _ _ _ _ Hsnake Hc) as [? ?].
      cbn [fst snd] in *.
      rewrite visited_at_mark_other; try lia.
      * apply (Hclear (cr, cc)). right. exact Hc.
      * intros Heq. apply Hnotin. rewrite <- Heq. exact Hc.
  - intros (d & Hd & [Hend | (path & Hlen & Hhead & Hsnake & Hnd & Hclear)]).
    + right. exists [(row, col)]. cbn [length]. split; [lia |].
      split; [reflexivity |]. split; [| split].
      * cbn [snake]. split; [split; assumption |]. split; [| tauto].
        unfold letter. cbn [fst snd]. rewrite <- Hp. exact Hfit.
      * repeat constructor. intros [].
      * intros c [<- | []]. exact Hfree.
    + right. exists ((row, col) :: path). cbn [length]. split; [lia |].
      split; [reflexivity |].
      assert (Hgrid : forall c, In c path -> in_grid rows cols c)
        by (intros c Hc; eapply snake_in_grid; [exact Hsnake | exact Hc]).
      split; [| split].
      * cbn [snake]. split; [split; assumption |]. split.
        { unfold letter. cbn [fst snd]. rewrite <- Hp. exact Hfit. }
        split; [| exact Hsnake].
        destruct path as [| next rest]; [exact I |].
        injection Hhead as ->. exists d. split; [exact Hd | reflexivity].
      * constructor; [| exact Hnd]. intros Hin.
        pose proof (Hclear _ Hin) as Hfalse. cbn [fst snd] in Hfalse.
        rewrite (visited_at_mark_same rows cols) in Hfalse by assumption.
        discriminate.
      * intros [cr cc] [[= <- <-] | Hin]; [exact Hfree |].
        destruct (Hgrid _ Hin) as [? ?]. cbn [fst snd] in *.
        rewrite <- (visited_at_mark_other h row col cr cc true);
          try lia; [apply (Hclear (cr, cc)); exact Hin |].
        intros [= -> ->]. pose proof (Hclear _ Hin) as Hfalse.
        cbn [fst snd] in Hfalse.
        rewrite (visited_at_mark_same rows cols) in Hfalse by assumption.
        discriminate.
Qed.

(** *** The search and its loops *)

Lemma settles_now (h : store) (b : bool) (P : Prop) :
  (b = true <-> P) -> settles h (Some (b, h)) P.
Proof. intros HP. exists b, h. tauto. Qed.

Lemma settles_iff (h : store) (r : option (bool * store)) (P Q : Prop) :
  (P <-> Q) -> settles h r P -> settles h r Q.
Proof. intros HPQ (b & h' & Hr & Hb & Hh). exists b, h'. tauto. Qed.

Section Loops.
Variable p : list string.
Variable searchStr : string.
Variables rows cols : Z.

(** The store holds the puzzle and a [visited] array of its size. *)
Definition sound (h : store) : Prop :=
  shaped rows cols (visited h) /\ puzzle h = p.

(** A loop of calls that stops at the first [true]: [next] gives the rest
    of the loop after a call that answered [false]. *)
Lemma settles_first (h : store) (call : option (bool * store))
      (next : store -> option (bool * store)) (P Q : Prop) :
  settles h call P -> settles h (next h) Q ->
  settles h (match call with
             | None => None
             | Some (true, h') => Some (true, h')
             | Some (false, h') => next h'
             end) (P \/ Q).
Proof.
  intros ([|] & h1 & -> & HP & Hsame) Hnext.
  - exists true, h1. split; [reflexivity |]. split; [tauto | discriminate].
  - rewrite (Hsame eq_refl).
    apply (settles_iff h _ Q); [| exact Hnext].
    split; [tauto |]. intros [HP' | HQ]; [| exact HQ].
    assert (false = true) by tauto. discriminate.
Qed.

Lemma try_directions_settles
      (call : Z -> Z -> nat -> store -> option (bool * store)) (index : nat)
      (F : store -> Z -> Z -> Prop) :
  (forall r c h, sound h -> settles h (call r c (index + 1)%nat h) (F h r c)) ->
  forall dirs row col h,
    sound h ->
    settles h (try_directions call dirs row col index h)
            (exists d, In d dirs /\ F h (row + fst d) (col + snd d)).
Proof.
  intros Hcall dirs row col h Hh. induction dirs as [| [dr dc] dirs IH].
  - apply settles_now. split; [discriminate | intros (d & [] & _)].
  - cbn [try_directions].
    apply (settles_iff h _ (F h (row + dr) (col + dc) \/
                            exists d, In d dirs /\ F h (row + fst d) (col + snd d))).
    + split.
      * intros [Hfirst | (d & Hd & Hrest)];
          [exists (dr, dc); split; [left; reflexivity | exact Hfirst]
          | exists d; split; [right; exact Hd | exact Hrest]].
      * intros (d & [<- | Hd] & Hrest); [left; exact Hrest | right; eauto].
    + apply (settles_first h (call (row + dr) (col + dc) (index + 1)%nat h)
               (fun h' => try_directions call dirs row col index h'));
        [apply Hcall; exact Hh | exact IH].
Qed.

Lemma dfs_settles :
  forall (fuel index : nat),
    (index <= String.length searchStr < fuel + index)%nat ->
    forall row col h,
      sound h ->
      settles h (dfs searchStr rows cols fuel row col index h)
              (found p searchStr rows cols h row col index).
Proof.
  induction fuel as [| fuel IH]; intros index Hfuel row col h [Hshape Hp]; [lia |].
  cbn [dfs].
  destruct (Nat.eqb_spec index (String.length searchStr)) as [Hend | Hmore].
  { apply settles_now. split; [intros _; left; exact Hend | reflexivity]. }
  destruct ((row <? 0) || (row >=? rows) || (col <? 0) || (col >=? cols)
            || visited_at h row col) eqn:Hguard.
  { apply settles_now. split; [discriminate |]. intros Hfound. exfalso.
    apply (found_blocked p searchStr rows cols h row col index Hp Hmore); auto. }
  destruct (same_char (puzzle_at h row col) (char_at searchStr index)) eqn:Hfit;
    cbn [negb].
  2: { apply settles_now. split; [discriminate |]. intros Hfound. exfalso.
       apply (found_blocked p searchStr rows cols h row col index Hp Hmore); auto. }
  apply orb_false_elim in Hguard as [Hguard Hfree].
  apply orb_false_elim in Hguard as [Hguard Hc2].
  apply orb_false_elim in Hguard as [Hguard Hc1].
  apply orb_false_elim in Hguard as [Hr1 Hr2].
  assert (Hrow : 0 <= row < rows)
    by (destruct (Z.ltb_spec row 0); destruct (Z.geb_spec row rows);
        try discriminate; lia).
  assert (Hcol : 0 <= col < cols)
    by (destruct (Z.ltb_spec col 0); destruct (Z.geb_spec col cols);
        try discriminate; lia).
  assert (Hmarked : sound (mark row col true h))
    by (split; [apply shaped_mark; exact Hshape | exact Hp]).
  pose proof (try_directions_settles (dfs searchStr rows cols fuel) index
                (fun h0 r c => found p searchStr rows cols h0 r c (S index))
                ltac:(intros r c h0 Hh0; rewrite Nat.add_1_r; apply IH;
                      [lia | exact Hh0])
                directions row col (mark row col true h) Hmarked)
    as (b & h' & -> & Hb & Hsame).
  pose proof (found_step p searchStr rows cols h row col index Hp Hshape
                ltac:(lia) Hrow Hcol Hfree Hfit) as Hstep.
  destruct b.
  - exists true, h'. split; [reflexivity |]. split; [| discriminate].
    split; [intros _; apply Hstep, Hb; reflexivity | reflexivity].
  - exists false, (mark row col false h'). split; [reflexivity |]. split.
    + split; [discriminate |]. intros Hfound.
      apply Hb, Hstep. exact Hfound.
    + intros _. rewrite (Hsame eq_refl). apply store_eta; [reflexivity |].
      apply unmark. exact Hfree.
Qed.

Lemma scan_cols_settles (i : Z) :
  forall (n : nat) (j : Z) (h : store),
    sound h ->
    settles h (scan_cols searchStr rows cols (S (String.length searchStr)) i n j h)
            (exists k, (k < n)%nat /\
                       found p searchStr rows cols h i (j + Z.of_nat k) 0).
Proof.
  induction n as [| n IH]; intros j h Hh.
  - apply settles_now. split; [discriminate | intros (k & Hk & _); lia].
  - cbn [scan_cols].
    apply (settles_iff h _ (found p searchStr rows cols h i j 0 \/
             exists k, (k < n)%nat /\
                       found p searchStr rows cols h i (j + 1 + Z.of_nat k) 0)).
    + split.
      * intros [Hfirst | (k & Hk & Hrest)].
        -- exists 0%nat. split; [lia |]. rewrite Z.add_0_r. exact Hfirst.
        -- exists (S k). split; [lia |].
           replace (j + Z.of_nat (S k)) with (j + 1 + Z.of_nat k) by lia.
           exact Hrest.
      * intros ([| k] & Hk & Hrest).
        -- left. rewrite Z.add_0_r in Hrest. exact Hrest.
        -- right. exists k. split; [lia |].
           replace (j + 1 + Z.of_nat k) with (j + Z.of_nat (S k)) by lia.
           exact Hrest.
    + apply (settles_first h
               (dfs searchStr rows cols (S (String.length searchStr)) i j 0 h)
               (fun h' => scan_cols searchStr rows cols
                            (S (String.length searchStr)) i n (j + 1) h')).
      * apply dfs_settles; [lia | exact Hh].
      * apply IH. exact Hh.
Qed.

Lemma scan_rows_settles :
  forall (n : nat) (i : Z) (h : store),
    sound h ->
    settles h (scan_rows searchStr rows cols (S (String.length searchStr)) n i h)
            (exists k k', (k < n)%nat /\ (k' < Z.to_nat cols)%nat /\
               found p searchStr rows cols h (i + Z.of_nat k) (0 + Z.of_nat k') 0).
Proof.
  induction n as [| n IH]; intros i h Hh.
  - apply settles_now. split; [discriminate | intros (k & k' & Hk & _); lia].
  - cbn [scan_rows].
    apply (settles_iff h _
             ((exists k', (k' < Z.to_nat cols)%nat /\
                 found p searchStr rows cols h i (0 + Z.of_nat k') 0) \/
              exists k k', (k < n)%nat /\ (k' < Z.to_nat cols)%nat /\
                 found p searchStr rows cols h (i + 1 + Z.of_nat k)
                       (0 + Z.of_nat k') 0)).
    + split.
      * intros [(k' & Hk' & Hfirst) | (k & k' & Hk & Hk' & Hrest)].
        -- exists 0%nat, k'. rewrite Z.add_0_r. auto with lia.
        -- exists (S k), k'. split; [lia |]. split; [exact Hk' |].
           replace (i + Z.of_nat (S k)) with (i + 1 + Z.of_nat k) by lia.
           exact Hrest.
      * intros ([| k] & k' & Hk & Hk' & Hrest).
        -- left. exists k'. rewrite Z.add_0_r in Hrest. auto.
        -- right. exists k, k'. split; [lia |]. split; [exact Hk' |].
           replace (i + 1 + Z.of_nat k) with (i + Z.of_nat (S k)) by lia.
           exact Hrest.
    + apply (settles_first h
               (scan_cols searchStr rows cols (S (String.length searchStr)) i
                          (Z.to_nat cols) 0 h)
               (fun h' => scan_rows searchStr rows cols
                            (S (String.length searchStr)) n (i + 1) h')).
      * apply scan_cols_settles. exact Hh.
      * apply IH. exact Hh.
Qed.

End Loops.

Lemma visited_at_fresh (p : list string) (rows cols r c : Z) :
  visited_at {| puzzle := p; visited := fresh_visited rows cols |} r c = false.
Proof.
  unfold visited_at, fresh_visited; cbn [visited].
  destruct (replicate (Z.to_nat rows) (replicate (Z.to_nat cols) false)
              !! Z.to_nat r) as [line |] eqn:Hline; [| reflexivity].
  apply lookup_replicate in Hline as [-> _].
  destruct (replicate (Z.to_nat cols) false !! Z.to_nat c) as [b |] eqn:Hcell;
    [| reflexivity].
  apply lookup_replicate in Hcell as [-> _]. reflexivity.
Qed.

(** On a puzzle with at least one row the function returns, and it
    returns [true] exactly when the first row is not empty and the string
    can be read along a snake: a sequence of cells of the grid, each next
    to the one before in one of the four directions, none used twice,
    whose characters are those of the string in order. *)
Theorem findStringInSnakingPuzzle_finds_snakes
        (first : string) (rest : list string) (searchStr : string) :
  exists (b : bool) (h' : store),
    findStringInSnakingPuzzle (first :: rest) searchStr = Some (Return (b, h')) /\
    (b = true <->
     first <> EmptyString /\ spelled (first :: rest) searchStr).
Proof.
  unfold findStringInSnakingPuzzle.
  set (p := first :: rest).
  set (rows := Z.of_nat (length p)). set (cols := len first).
  set (h := {| puzzle := p; visited := fresh_visited rows cols |}).
  assert (Hcols : 0 <= cols) by (unfold cols, len; lia).
  assert (Hh : sound p rows cols h).
  { split; [apply shaped_fresh; unfold rows; lia | reflexivity]. }
  destruct (scan_rows_settles p searchStr rows cols (Z.to_nat rows) 0 h Hh)
    as (b & h' & -> & Hb & _).
  exists b, h'. split; [reflexivity |]. rewrite Hb. clear Hb.
  assert (Hempty : first <> EmptyString <-> 0 < cols).
  { unfold cols, len. destruct first; cbn [String.length]; split;
      intros; try lia; try discriminate; congruence. }
  unfold spelled. change (grid_cols (first :: rest)) with cols.
  fold p. fold rows. split.
  - intros (k & k' & Hk & Hk' & Hfound). split; [apply Hempty; lia |].
    destruct Hfound as [Hend | (path & Hlen & _ & Hsnake & Hnd & _)].
    + exists []. split; [exact Hend |]. split; [constructor | exact I].
    + exists path. rewrite Nat.sub_0_r in Hlen. split; [exact Hlen |].
      split; [exact Hnd | exact Hsnake].
  - intros [Hfirst (path & Hlen & Hnd & Hsnake)]. apply Hempty in Hfirst.
    change (grid_cols p) with cols in Hsnake.
    destruct path as [| [r c] path'].
    + exists 0%nat, 0%nat. split; [unfold rows, p; cbn [length]; lia |].
      split; [lia |]. left. exact Hlen.
    + pose proof Hsnake as ([Hr Hc] & _). cbn [fst snd] in Hr, Hc.
      fold rows in Hr. fold cols in Hc.
      exists (Z.to_nat r), (Z.to_nat c). split; [lia |]. split; [lia |].
      right. exists ((r, c) :: path'). rewrite Nat.sub_0_r.
      split; [exact Hlen |].
      split; [cbn [head]; f_equal; f_equal; lia |]. split; [exact Hsnake |].
      split; [exact Hnd |]. intros c0 _. apply visited_at_fresh.
Qed.

End Snake.

(** ** getZigZagMatrix *)

Module ZigZag.
Import JS.

(** The matrix: an array of rows, each an array that may have holes. *)
Definition matrix : Type := list (array Z).

(** The variables of the loop. *)
Record zigzag_state : Type := ZigZagState {
  cells : matrix;
  value : Z;
  i : Z;
  j : Z;
  up : bool
}.

(** [Array.from({ length: n }, () => Array(n).fill(0))] *)
Definition zero_matrix (n : Z) : matrix :=
  replicate (Z.to_nat n) (replicate (Z.to_nat n) (Some 0)).

(** [matrix[i][j] = v]: a missing row makes the assignment throw; a
    column past the end of the row extends it, and a negative column
    leaves its elements as they are. *)
Definition set_cell (m : matrix) (i j : Z) (v : Z) : completion matrix :=
  if i <? 0 then Throw "TypeError: Cannot set properties of undefined"
  else
    match m !! Z.to_nat i with
    | None => Throw "TypeError: Cannot set properties of undefined"
    | Some row =>
        if j <? 0 then Return m
        else Return (<[Z.to_nat i := array_set row (Z.to_nat j) v]> m)
    end.

(** Where the path goes after the cell [(i, j)]. *)
Definition move (n : Z) (i j : Z) (up : bool) : Z * Z * bool :=
  if up then
    if j =? n - 1 then (i + 1, j, false)
    else if i =? 0 then (i, j + 1, false)
    else (i - 1, j + 1, true)
  else
    if i =? n - 1 then (i, j + 1, true)
    else if j =? 0 then (i + 1, j, true)
    else (i + 1, j - 1, false).

(** One round of the loop. *)
Definition zigzag_round (n : Z) (st : zigzag_state) : completion zigzag_state :=
  bind (set_cell (cells st) (i st) (j st) (value st)) (fun m =>
    let '(i', j', up') := move n (i st) (j st) (up st) in
    Return {| cells := m; value := value st + 1; i := i'; j := j'; up := up' |}).

(** [rounds] rounds of the loop. *)
Fixpoint zigzag_loop (n : Z) (rounds : nat) (st : zigzag_state)
  : completion zigzag_state :=
  match rounds with
  | O => Return st
  | S rounds' => bind (zigzag_round n st) (zigzag_loop n rounds')
  end.

(** An array has fewer than 2^32 elements: [Array.from] throws on a
    longer one.  The loop [while (value < n * n)] runs [n * n] rounds,
    [value] going up by one in each; this, like [value + 1] in
    [zigzag_round], is how the numbers behave while [n * n] is at most
    2^53, which the statements on a matrix that is returned ask for. *)
Definition getZigZagMatrix (n : Z) : completion matrix :=
  if 4294967296 <=? n then Throw "RangeError: Invalid array length"
  else
    bind (zigzag_loop n (Z.to_nat (n * n))
            {| cells := zero_matrix n; value := 0; i := 0; j := 0; up := true |})
         (fun st => Return (cells st)).

(** The dimensions on which the numbers of the loop are exact and the
    matrix can be built: below 2^26, so that [n * n] is below 2^52. *)
Definition feasible (n : Z) : Prop := 0 <= n < 67108864.

(** The number of cells on the anti-diagonals before the one of
    number [m], in the upper left half: 0 + 1 + ... + m. *)
Definition triangle (m : Z) : Z := m * (m + 1) / 2.

(** The rank of the cell [(i, j)] on the zigzag path of the [n] by [n]
    grid: the cells of the earlier anti-diagonals, then those before it on
    its own, which is walked upwards when its number [i + j] is even and
    downwards when it is odd. *)
Definition rank (n i j : Z) : Z :=
  let d := i + j in
  if d <? n then triangle d + (if Z.even d then j else i)
  else n * n - triangle (2 * n - 1 - d)
       + (if Z.even d then n - 1 - i else n - 1 - j).

(** [m[i][j]], [None] when there is no such element. *)
Definition cell_at (m : matrix) (i j : Z) : option Z :=
  match m !! Z.to_nat i with
  | Some row => match row !! Z.to_nat j with Some (Some v) => Some v | _ => None end
  | None => None
  end.

(** The cells of the grid. *)
Definition inside (n a b : Z) : Prop := 0 <= a < n /\ 0 <= b < n.

(** The cell, and the direction, the walk has reached after [k] moves. *)
Fixpoint path (n : Z) (k : nat) : Z * Z * bool :=
  match k with
  | O => (0, 0, true)
  | S k' => let '(a, b, u) := path n k' in move n a b u
  end.

Lemma triangle_double (m : Z) : 2 * triangle m = m * (m + 1).
Proof.
  unfold triangle.
  destruct (Z.Even_or_Odd m) as [[q ->] | [q ->]].
  - replace (2 * q * (2 * q + 1)) with (q * (2 * q + 1) * 2) by ring.
    rewrite Z.div_mul by lia. ring.
  - replace ((2 * q + 1) * (2 * q + 1 + 1)) with ((2 * q + 1) * (q + 1) * 2) by ring.
    rewrite Z.div_mul by lia. ring.
Qed.

Lemma parity (e : Z) :
  (Z.even e = true /\ exists q, e = 2 * q)
  \/ (Z.even e = false /\ exists q, e = 2 * q + 1).
Proof.
  destruct (Z.Even_or_Odd e) as [[q ->] | [q ->]].
  - left. split; [| eauto]. rewrite Z.even_mul. reflexivity.
  - right. split; [| eauto].
    rewrite Z.add_comm, Z.even_add_mul_2. reflexivity.
Qed.

Ltac triangles :=
  repeat match goal with
  | |- context [triangle ?t] =>
      let T := fresh "T" in let HT := fresh "HT" in
      pose proof (triangle_double t) as HT;
      set (T := triangle t) in *; clearbody T
  end.

Ltac parities :=
  repeat match goal with
  | |- context [Z.even ?e] =>
      let q := fresh "q" in let Hq := fresh "Hq" in let He := fresh "He" in
      destruct (parity e) as [[He [q Hq]] | [He [q Hq]]]; rewrite He
  end.

Ltac bounds :=
  repeat match goal with
  | |- context [?x <? ?y] => destruct (Z.ltb_spec x y)
  end.

Ltac next_rank :=
  cbn [fst snd]; parities; try (exfalso; lia);
  bounds; try (exfalso; lia); triangles; intros; first [lia | nia].

Lemma move_rank (n a b : Z) (u : bool) :
  inside n a b -> u = Z.even (a + b) -> rank n a b + 1 < n * n ->
  inside n (move n a b u).1.1 (move n a b u).1.2
  /\ rank n (move n a b u).1.1 (move n a b u).1.2 = rank n a b + 1
  /\ (move n a b u).2 = Z.even ((move n a b u).1.1 + (move n a b u).1.2).
Proof.
  unfold inside, rank, move. intros [Ha Hb] -> Hlast.
  revert Hlast.
  destruct (parity (a + b)) as [[He [q Hq]] | [He [q Hq]]]; rewrite He.
  - destruct (Z.eqb_spec b (n - 1)) as [-> | Hb'].
    + destruct (Z.eq_dec a 0) as [-> |]; [next_rank |].
      destruct (Z.eq_dec a (n - 1)) as [-> |]; next_rank.
    + destruct (Z.eqb_spec a 0) as [-> | Ha']; next_rank.
  - destruct (Z.eqb_spec a (n - 1)) as [-> | Ha'].
    + destruct (Z.eq_dec b 0) as [-> |]; [next_rank |].
      destruct (Z.eq_dec b (n - 1)) as [-> |]; next_rank.
    + destruct (Z.eqb_spec b 0) as [-> | Hb']; next_rank.
Qed.

(** [n] rows of [n] elements. *)
Definition square (n : Z) (m : matrix) : Prop :=
  length m = Z.to_nat n
  /\ forall r row, m !! r = Some row -> length row = Z.to_nat n.

Lemma path_rank (n : Z) (k : nat) :
  0 <= n -> Z.of_nat k < n * n ->
  inside n (path n k).1.1 (path n k).1.2
  /\ rank n (path n k).1.1 (path n k).1.2 = Z.of_nat k
  /\ (path n k).2 = Z.even ((path n k).1.1 + (path n k).1.2).
Proof.
  intros Hn. induction k as [| k IH]; intros Hk.
  - assert (0 < n) by nia. cbn [path fst snd]. unfold inside, rank.
    change (0 + 0) with 0.
    destruct (Z.ltb_spec 0 n); [| lia].
    repeat split; lia.
  - destruct IH as (Hg & Hr & Hu); [lia |].
    cbn [path]. destruct (path n k) as [[a b] u]. cbn [fst snd] in *.
    destruct (move_rank n a b u Hg Hu) as (G & R & U); [lia |].
    split; [exact G |]. split; [lia | exact U].
Qed.

Lemma path_covers (n a b : Z) :
  0 <= n -> inside n a b ->
  exists k, (k < Z.to_nat (n * n))%nat /\ (path n k).1 = (a, b).
Proof.
  intros Hn Hg.
  set (visited := map (fun k => (path n k).1) (seq 0 (Z.to_nat (n * n)))).
  set (side := map Z.of_nat (seq 0 (Z.to_nat n))).
  assert (Hnodup : List.NoDup visited).
  { apply (List.NoDup_map_inv (fun c : Z * Z => rank n c.1 c.2)).
    unfold visited. rewrite map_map.
    rewrite (map_ext_in _ Z.of_nat).
    - apply (List.NoDup_map_inv Z.to_nat). rewrite map_map.
      rewrite (map_ext _ id) by (intros; apply Nat2Z.id).
      rewrite map_id. apply seq_NoDup.
    - intros k Hk%in_seq. apply path_rank; lia. }
  assert (Hincl : incl visited (list_prod side side)).
  { intros c (k & <- & Hk%in_seq)%in_map_iff.
    destruct (path_rank n k Hn) as ([Ha Hb] & _); [lia |].
    destruct (path n k).1 as [a' b']. cbn [fst snd] in *.
    apply in_prod_iff. split; apply in_map_iff.
    - exists (Z.to_nat a'). split; [lia | apply in_seq; lia].
    - exists (Z.to_nat b'). split; [lia | apply in_seq; lia]. }
  assert (Hlen : (length (list_prod side side) <= length visited)%nat).
  { unfold visited, side. rewrite length_prod, !length_map, !length_seq.
    rewrite Z2Nat.inj_mul by lia. lia. }
  assert (Hin : In (a, b) (list_prod side side)).
  { destruct Hg as [Ha Hb]. apply in_prod_iff. split; apply in_map_iff.
    - exists (Z.to_nat a). split; [lia | apply in_seq; lia].
    - exists (Z.to_nat b). split; [lia | apply in_seq; lia]. }
  apply (List.NoDup_length_incl Hnodup Hlen Hincl) in Hin.
  apply in_map_iff in Hin as (k & Hk & Hseq%in_seq).
  exists k. split; [lia | exact Hk].
Qed.

Lemma set_cell_inside (n : Z) (m : matrix) (a b v : Z) :
  inside n a b -> square n m ->
  exists m',
    set_cell m a b v = Return m' /\ square n m' /\ cell_at m' a b = Some v
    /\ forall a' b', 0 <= a' -> 0 <= b' -> (a', b') <> (a, b) ->
        cell_at m' a' b' = cell_at m a' b'.
Proof.
  intros [Ha Hb] [Hrows Hcols]. unfold set_cell.
  destruct (Z.ltb_spec a 0); [lia |].
  destruct (m !! Z.to_nat a) as [row |] eqn:Hrow;
    [| apply lookup_ge_None in Hrow; lia].
  destruct (Z.ltb_spec b 0); [lia |].
  pose proof (Hcols _ _ Hrow) as Hlen.
  eexists. split; [reflexivity |].
  unfold array_set. destruct (Nat.ltb_spec (Z.to_nat b) (length row)); [| lia].
  unfold square, cell_at, matrix, array in *.
  split; [| split].
  - split; [rewrite length_insert; exact Hrows |].
    intros r row' Hr. destruct (Nat.eq_dec r (Z.to_nat a)) as [-> | Hne].
    + rewrite list_lookup_insert_eq in Hr by lia.
      injection Hr as <-. rewrite length_insert. exact Hlen.
    + rewrite list_lookup_insert_ne in Hr by auto. eauto.
  - rewrite list_lookup_insert_eq by lia.
    rewrite list_lookup_insert_eq by lia. reflexivity.
  - intros a' b' Ha' Hb' Hne.
    destruct (Nat.eq_dec (Z.to_nat a') (Z.to_nat a)) as [Heq | Hne'].
    + rewrite Heq, list_lookup_insert_eq, Hrow by lia.
      rewrite list_lookup_insert_ne; [reflexivity |].
      intros Hb''. apply Hne. f_equal; lia.
    + rewrite list_lookup_insert_ne by auto. reflexivity.
Qed.

Lemma zigzag_loop_writes (n : Z) :
  0 <= n ->
  forall (rounds k : nat) (st : zigzag_state),
    Z.of_nat (k + rounds) <= n * n ->
    value st = Z.of_nat k ->
    (i st, j st, up st) = path n k ->
    square n (cells st) ->
    (forall k', (k' < k)%nat ->
       cell_at (cells st) (path n k').1.1 (path n k').1.2 = Some (Z.of_nat k')) ->
    exists st',
      zigzag_loop n rounds st = Return st' /\ square n (cells st')
      /\ forall k', (k' < k + rounds)%nat ->
          cell_at (cells st') (path n k').1.1 (path n k').1.2 = Some (Z.of_nat k').
Proof.
  intros Hn. induction rounds as [| rounds IH]; intros k st Hk Hv Hw Hs Hc.
  - exists st. rewrite Nat.add_0_r. cbn [zigzag_loop]. auto.
  - destruct (path_rank n k Hn) as (Hg & Hr & _); [lia |].
    cbn [zigzag_loop]. unfold zigzag_round.
    rewrite <- Hw in Hg, Hr. cbn [fst snd] in Hg, Hr.
    destruct (set_cell_inside n (cells st) (i st) (j st) (value st) Hg Hs)
      as (m' & -> & Hs' & Hc' & Ho).
    cbn [bind].
    destruct (move n (i st) (j st) (up st)) as [[i' j'] up'] eqn:Hm.
    cbn [bind].
    replace (k + S rounds)%nat with (S k + rounds)%nat in * by lia.
    apply IH; cbn [cells value i j up]; [exact Hk | lia | | exact Hs' |].
    + cbn [path]. rewrite <- Hw. symmetry. exact Hm.
    + intros k' Hk'. destruct (Nat.eq_dec k' k) as [-> | Hne].
      * rewrite <- Hw. cbn [fst snd]. rewrite Hc', Hv. reflexivity.
      * destruct (path_rank n k' Hn) as ([Ha Hb] & Hr' & _); [lia |].
        rewrite Ho; [apply Hc; lia | lia | lia |].
        intros Heq. injection Heq as Hi Hj. rewrite Hi, Hj in Hr'. lia.
Qed.

Lemma zero_matrix_square (n : Z) : square n (zero_matrix n).
Proof.
  unfold zero_matrix. split; [apply length_replicate |].
  intros r row [-> _]%lookup_replicate. apply length_replicate.
Qed.

Lemma zigzag_result (n : Z) :
  feasible n ->
  exists m,
    getZigZagMatrix n = Return m /\ square n m
    /\ forall k, (k < Z.to_nat (n * n))%nat ->
        cell_at m (path n k).1.1 (path n k).1.2 = Some (Z.of_nat k).
Proof.
  intros [Hn Hsmall]. unfold getZigZagMatrix.
  destruct (Z.leb_spec 4294967296 n) as [Hbig | _]; [lia |].
  destruct (zigzag_loop_writes n Hn (Z.to_nat (n * n)) 0
              {| cells := zero_matrix n; value := 0; i := 0; j := 0; up := true |})
    as (st' & -> & Hs & Hc).
  - cbn [Nat.add]. nia.
  - reflexivity.
  - reflexivity.
  - apply zero_matrix_square.
  - intros k' Hk'. lia.
  - exists (cells st'). cbn [bind]. auto.
Qed.

(** On a feasible dimension [n] (from 0 to 2^26 - 1), getZigZagMatrix
    returns [n] rows of [n] numbers, and the number at row [a], column [b]
    is the rank of that cell on the zigzag path: the count of the cells of
    the anti-diagonals before its own, plus its place on its own, counted
    from the bottom left on the even ones and from the top right on the
    odd ones. *)
Theorem getZigZagMatrix_ranks (n : Z) :
  feasible n ->
  exists m,
    getZigZagMatrix n = Return m /\ square n m
    /\ forall a b, inside n a b -> cell_at m a b = Some (rank n a b).
Proof.
  intros Hfeasible. pose proof (proj1 Hfeasible) as Hn.
  destruct (zigzag_result n Hfeasible) as (m & Hm & Hs & Hc).
  exists m. split; [exact Hm |]. split; [exact Hs |].
  intros a b Hg. destruct (path_covers n a b Hn Hg) as (k & Hk & Hw).
  specialize (Hc k Hk). destruct (path_rank n k Hn) as (_ & Hr & _); [lia |].
  rewrite Hw in Hc, Hr. cbn [fst snd] in Hc, Hr. rewrite Hc, Hr. reflexivity.
Qed.

Lemma getZigZagMatrix_ranks_witness :
  exists m,
    getZigZagMatrix 3 = Return m /\ square 3 m
    /\ forall a b, inside 3 a b -> cell_at m a b = Some (rank 3 a b).
Proof. apply (getZigZagMatrix_ranks 3). unfold feasible. lia. Defined.

(** On a feasible dimension [n] (from 0 to 2^26 - 1), every number from
    [0] to [n * n - 1] stands in exactly one cell of the matrix
    getZigZagMatrix returns. *)
Theorem getZigZagMatrix_each_value_once (n : Z) :
  feasible n ->
  exists m,
    getZigZagMatrix n = Return m
    /\ forall v, 0 <= v < n * n ->
        exists a b,
          inside n a b /\ cell_at m a b = Some v
          /\ forall a' b', inside n a' b' -> cell_at m a' b' = Some v ->
              (a', b') = (a, b).
Proof.
  intros Hfeasible. pose proof (proj1 Hfeasible) as Hn.
  destruct (zigzag_result n Hfeasible) as (m & Hm & Hs & Hc).
  exists m. split; [exact Hm |].
  intros v Hv.
  assert (Hk : (Z.to_nat v < Z.to_nat (n * n))%nat) by lia.
  destruct (path_rank n (Z.to_nat v) Hn) as (Hg & _); [lia |].
  pose proof (Hc _ Hk) as Hcell.
  destruct (path n (Z.to_nat v)) as [[a b] u] eqn:Hw. cbn [fst snd] in *.
  exists a, b. split; [exact Hg |]. split; [rewrite Hcell; f_equal; lia |].
  intros a' b' Hg' Hcell'.
  destruct (path_covers n a' b' Hn Hg') as (k' & Hk' & Hw').
  specialize (Hc k' Hk'). rewrite Hw' in Hc. cbn [fst snd] in Hc.
  assert (k' = Z.to_nat v) as -> by (rewrite Hc in Hcell'; injection Hcell'; lia).
  rewrite Hw in Hw'. cbn [fst] in Hw'. congruence.
Qed.

Lemma getZigZagMatrix_each_value_once_witness :
  exists m,
    getZigZagMatrix 4 = Return m
    /\ forall v, 0 <= v < 4 * 4 ->
        exists a b,
          inside 4 a b /\ cell_at m a b = Some v
          /\ forall a' b', inside 4 a' b' -> cell_at m a' b' = Some v ->
              (a', b') = (a, b).
Proof. apply (getZigZagMatrix_each_value_once 4). unfold feasible. lia. Defined.

(** On a negative dimension the matrix has no row while the loop still
    runs, and getZigZagMatrix throws at its first assignment. *)
Theorem getZigZagMatrix_negative (n : Z) :
  n < 0 -> exists message, getZigZagMatrix n = Throw message.
Proof.
  intros Hn. unfold getZigZagMatrix.
  destruct (Z.leb_spec 4294967296 n) as [Hbig | _]; [lia |].
  destruct (Z.to_nat (n * n)) as [| rounds] eqn:Hrounds; [nia |].
  cbn [zigzag_loop]. unfold zigzag_round, zero_matrix.
  replace (Z.to_nat n) with 0%nat by lia.
  cbn. eauto.
Qed.

Lemma getZigZagMatrix_negative_witness :
  exists message, getZigZagMatrix (-1) = Throw message.
Proof. apply (getZigZagMatrix_negative (-1)). lia. Defined.

End ZigZag.

(** ** getFigureRectangles *)

Module Figure.
Import JS Katas2 Bank.

(** [lines[y][x]], [None] for [undefined].  The function reads a row only
    at an index below [height] (the bounds of its loops, and the first test
    of isRectangle), where [lines[y]] is a string. *)
Definition glyph (lines : list string) (y x : nat) : option ascii :=
  match lines !! y with
  | Some line => char_at line x
  | None => None
  end.

(** [g === c] for a character [c]. *)
Definition is_char (c : ascii) (g : option ascii) : bool :=
  match g with
  | Some d => Ascii.eqb d c
  | None => false
  end.

(** The values [first, first + 1, ..., last - 1] of a counting loop. *)
Definition range (first last : nat) : list nat := seq first (last - first).

Section Figure.
Variable lines : list string.

Definition height : nat := length lines.

Definition width : nat :=
  match lines with
  | line :: _ => String.length line
  | [] => 0%nat
  end.

Definition isRectangle (x1 y1 x2 y2 : nat) : bool :=
  if (width <=? x2)%nat || (height <=? y2)%nat then false
  else if negb (is_char "+" (glyph lines y1 x1)) || negb (is_char "+" (glyph lines y1 x2))
          || negb (is_char "+" (glyph lines y2 x1)) || negb (is_char "+" (glyph lines y2 x2))
  then false
  else if negb (forallb (fun x => is_char "-" (glyph lines y1 x) && is_char "-" (glyph lines y2 x))
                        (range (x1 + 1) x2))
  then false
  else forallb (fun y => is_char "|" (glyph lines y x1) && is_char "|" (glyph lines y x2))
               (range (y1 + 1) y2).

(** [used[y][x] = true], for a cell of the figure. *)
Definition set_used (used : list (list bool)) (y x : nat) : list (list bool) :=
  alter (fun row => <[x := true]> row) y used.

(** [used[y1][x] = used[y2][x] = true] assigns the right one first. *)
Definition markUsed (x1 y1 x2 y2 : nat) (used : list (list bool))
  : list (list bool) :=
  let used :=
    fold_left (fun u x => set_used (set_used u y2 x) y1 x) (range x1 (x2 + 1)) used in
  fold_left (fun u y => set_used (set_used u y x2) y x1) (range y1 (y2 + 1)) used.

(** What [line += lines[y][x]] appends. *)
Definition text_of (g : option ascii) : string :=
  match g with
  | Some c => String c EmptyString
  | None => "undefined"
  end.

Definition row_text (y x1 x2 : nat) : string :=
  fold_left (fun line x => (line ++ text_of (glyph lines y x))%string)
            (range x1 (x2 + 1)) EmptyString.

Definition getRectangleString (x1 y1 x2 y2 : nat) : string :=
  (String.concat (String newline EmptyString)
     (map (fun y => row_text y x1 x2) (range y1 (y2 + 1)))
   ++ String newline EmptyString)%string.

(** [used[y][x]] as a condition. *)
Definition used_at (used : list (list bool)) (y x : nat) : bool :=
  match used !! y with
  | Some row => default false (row !! x)
  | None => false
  end.

(** The marks, and the strings yielded so far. *)
Definition search_state : Type := list (list bool) * list string.

Definition try_corner (x1 y1 y2 : nat) (st : search_state) (x2 : nat)
  : search_state :=
  if isRectangle x1 y1 x2 y2
  then (markUsed x1 y1 x2 y2 st.1, st.2 ++ [getRectangleString x1 y1 x2 y2])
  else st.

Definition try_bottom (x1 y1 : nat) (st : search_state) (y2 : nat)
  : search_state :=
  fold_left (try_corner x1 y1 y2) (range (x1 + 2) width) st.

Definition try_start (y1 : nat) (st : search_state) (x1 : nat) : search_state :=
  if negb (is_char "+" (glyph lines y1 x1)) || used_at st.1 y1 x1 then st
  else fold_left (try_bottom x1 y1) (range (y1 + 2) height) st.

Definition try_row (st : search_state) (y1 : nat) : search_state :=
  fold_left (try_start y1) (range 0 width) st.

Definition search : list string :=
  (fold_left try_row (range 0 height)
     (replicate height (replicate width false), [])).2.

End Figure.

(** The strings the generator yields, in order. *)
Definition getFigureRectangles (figure : string) : list string :=
  search (split_on newline (trim figure)).

(** A line break. *)
Definition line_break : string := String newline EmptyString.

(** [w] minus signs before [rest]. *)
Fixpoint dashes (w : nat) (rest : string) : string :=
  match w with
  | O => rest
  | S w' => String "-" (dashes w' rest)
  end.

(** A horizontal edge with [w] minus signs between its corners. *)
Definition edge (w : nat) : string := String "+" (dashes w "+").

(** The text of a frame: an edge, one or more lines between two vertical
    bars, the same edge again, each line ended by a line break. *)
Definition framed (r : string) : Prop :=
  exists (w : nat) (inner : list string),
    (1 <= w)%nat /\ inner <> []
    /\ Forall (fun s => String.length s = w) inner
    /\ r = (String.concat line_break
              (edge w :: map (fun s => "|" ++ s ++ "|")%string inner ++ [edge w])
            ++ line_break)%string.

Lemma fold_left_texts (t : nat -> string) (l : list nat) (acc : string) :
  fold_left (fun line x => (line ++ t x)%string) l acc
  = (acc ++ fold_right (fun x rest => (t x ++ rest)%string) EmptyString l)%string.
Proof.
  revert acc. induction l as [| x l IH]; intros acc; cbn [fold_left fold_right].
  - symmetry. apply Katas3.append_empty.
  - rewrite IH. apply Wrap.string_append_assoc.
Qed.

Lemma fold_right_texts (t : nat -> string) (l : list nat) (last : string) :
  fold_right (fun x rest => (t x ++ rest)%string) last l
  = (fold_right (fun x rest => (t x ++ rest)%string) EmptyString l ++ last)%string.
Proof.
  induction l as [| x l IH]; cbn [fold_right]; [reflexivity |].
  rewrite IH. symmetry. apply Wrap.string_append_assoc.
Qed.

Lemma range_ends (first last : nat) :
  (first + 2 <= last)%nat ->
  range first (last + 1) = first :: range (first + 1) last ++ [last].
Proof.
  intros H. unfold range.
  replace (last + 1 - first)%nat with (S ((last - (first + 1)) + 1)) by lia.
  cbn [seq]. rewrite seq_app. cbn [seq].
  replace (S first) with (first + 1)%nat by lia.
  replace (first + 1 + (last - (first + 1)))%nat with last by lia.
  reflexivity.
Qed.

Lemma is_char_true (c : ascii) (g : option ascii) :
  is_char c g = true -> g = Some c.
Proof.
  destruct g as [d |]; cbn; [| discriminate].
  intros H%Ascii.eqb_eq. congruence.
Qed.

Lemma get_below (s : string) (x x' : nat) (c : ascii) :
  String.get x s = Some c -> (x' < x)%nat -> exists c', String.get x' s = Some c'.
Proof.
  revert x x'. induction s as [| d s IH]; intros x x' Hget Hlt; [discriminate |].
  destruct x' as [| x']; [cbn; eauto |].
  destruct x as [| x]; [lia |].
  cbn in *. apply (IH x); [exact Hget | lia].
Qed.

Section Frames.
Variable lines : list string.

Lemma row_text_ends (y x1 x2 : nat) :
  (x1 + 2 <= x2)%nat ->
  row_text lines y x1 x2
  = (text_of (glyph lines y x1)
     ++ fold_right (fun x rest => (text_of (glyph lines y x) ++ rest)%string)
          EmptyString (range (x1 + 1) x2)
     ++ text_of (glyph lines y x2))%string.
Proof.
  intros H. unfold row_text.
  rewrite (fold_left_texts (fun x => text_of (glyph lines y x))).
  rewrite (range_ends x1 x2 H).
  cbn [fold_right]. rewrite fold_right_app. cbn [fold_right].
  rewrite (fold_right_texts (fun x => text_of (glyph lines y x))).
  rewrite Katas3.append_empty. reflexivity.
Qed.

Lemma dashes_texts (y : nat) (l : list nat) :
  (forall x, In x l -> is_char "-" (glyph lines y x) = true) ->
  (fold_right (fun x rest => (text_of (glyph lines y x) ++ rest)%string)
     EmptyString l ++ "+")%string
  = dashes (length l) "+".
Proof.
  induction l as [| x l IH]; intros H; [reflexivity |].
  cbn [fold_right length dashes].
  rewrite (is_char_true _ _ (H x (or_introl eq_refl))). cbn [text_of].
  rewrite Wrap.string_append_assoc.
  rewrite IH by (intros x' Hx'; apply H; right; exact Hx').
  reflexivity.
Qed.

Lemma edge_row (y x1 x2 : nat) :
  (x1 + 2 <= x2)%nat ->
  is_char "+" (glyph lines y x1) = true ->
  is_char "+" (glyph lines y x2) = true ->
  (forall x, In x (range (x1 + 1) x2) -> is_char "-" (glyph lines y x) = true) ->
  row_text lines y x1 x2 = edge (x2 - (x1 + 1)).
Proof.
  intros H H1 H2 Hmid. rewrite (row_text_ends y x1 x2 H).
  rewrite (is_char_true _ _ H1), (is_char_true _ _ H2). cbn [text_of].
  rewrite (dashes_texts y _ Hmid). unfold range. rewrite length_seq.
  reflexivity.
Qed.

Lemma inner_texts (y : nat) (l : list nat) :
  (forall x, In x l -> exists c, glyph lines y x = Some c) ->
  String.length
    (fold_right (fun x rest => (text_of (glyph lines y x) ++ rest)%string)
       EmptyString l)
  = length l.
Proof.
  induction l as [| x l IH]; intros H; [reflexivity |].
  cbn [fold_right length].
  destruct (H x (or_introl eq_refl)) as [c ->]. cbn [text_of].
  change (String c "" ++ ?s)%string with (String c s). cbn [String.length].
  rewrite IH by (intros x' Hx'; apply H; right; exact Hx').
  reflexivity.
Qed.

(** The text between the bars of row [y]. *)
Definition inner_text (y x1 x2 : nat) : string :=
  fold_right (fun x rest => (text_of (glyph lines y x) ++ rest)%string)
    EmptyString (range (x1 + 1) x2).

Lemma bar_row (y x1 x2 : nat) :
  (x1 + 2 <= x2)%nat ->
  is_char "|" (glyph lines y x1) = true ->
  is_char "|" (glyph lines y x2) = true ->
  row_text lines y x1 x2 = ("|" ++ inner_text y x1 x2 ++ "|")%string
  /\ String.length (inner_text y x1 x2) = (x2 - (x1 + 1))%nat.
Proof.
  intros H H1 H2. rewrite (row_text_ends y x1 x2 H).
  apply is_char_true in H1, H2. rewrite H1, H2. cbn [text_of].
  split; [reflexivity |].
  unfold inner_text. rewrite inner_texts; [unfold range; apply length_seq |].
  intros x Hx. unfold range in Hx. apply in_seq in Hx.
  unfold glyph in *. destruct (lines !! y) as [line |]; [| discriminate].
  apply (get_below line x2 x "|"); [exact H2 | lia].
Qed.

Lemma rectangle_framed (x1 y1 x2 y2 : nat) :
  (x1 + 2 <= x2)%nat -> (y1 + 2 <= y2)%nat ->
  isRectangle lines x1 y1 x2 y2 = true ->
  framed (getRectangleString lines x1 y1 x2 y2).
Proof.
  intros Hx Hy. unfold isRectangle.
  destruct ((width lines <=? x2)%nat || (height lines <=? y2)%nat);
    [discriminate |].
  destruct (is_char "+" (glyph lines y1 x1)) eqn:C1; [| discriminate].
  destruct (is_char "+" (glyph lines y1 x2)) eqn:C2; [| discriminate].
  destruct (is_char "+" (glyph lines y2 x1)) eqn:C3; [| discriminate].
  destruct (is_char "+" (glyph lines y2 x2)) eqn:C4; [| discriminate].
  cbn [negb orb].
  destruct (forallb _ (range (x1 + 1) x2)) eqn:Hedges; [| discriminate].
  cbn [negb]. intros Hbars.
  rewrite forallb_forall in Hedges, Hbars.
  exists (x2 - (x1 + 1))%nat,
         (map (fun y => inner_text y x1 x2) (range (y1 + 1) y2)).
  split; [lia |]. split; [| split].
  - unfold range. replace (y2 - (y1 + 1))%nat with (S (y2 - (y1 + 2))) by lia.
    discriminate.
  - apply List.Forall_forall. intros s (y & <- & Hin)%in_map_iff.
    destruct (andb_prop _ _ (Hbars y Hin)) as [B1 B2].
    apply (bar_row y x1 x2 Hx B1 B2).
  - unfold getRectangleString. rewrite (range_ends y1 y2 Hy).
    cbn [map]. rewrite map_app. cbn [map].
    rewrite (edge_row y1 x1 x2 Hx C1 C2)
      by (intros x Hin; destruct (andb_prop _ _ (Hedges x Hin)) as [E _]; exact E).
    rewrite (edge_row y2 x1 x2 Hx C3 C4)
      by (intros x Hin; destruct (andb_prop _ _ (Hedges x Hin)) as [_ E]; exact E).
    rewrite map_map.
    rewrite (map_ext_in (fun y => row_text lines y x1 x2)
               (fun y => ("|" ++ inner_text y x1 x2 ++ "|")%string)).
    + reflexivity.
    + intros y Hin. destruct (andb_prop _ _ (Hbars y Hin)) as [B1 B2].
      apply (bar_row y x1 x2 Hx B1 B2).
Qed.

Lemma fold_left_keeps {A B : Type} (P : A -> Prop) (f : A -> B -> A) (l : list B) :
  (forall st x, In x l -> P st -> P (f st x)) ->
  forall st, P st -> P (fold_left f l st).
Proof.
  induction l as [| x l IH]; intros Hstep st Hst; [exact Hst |].
  cbn [fold_left]. apply IH.
  - intros st' x' Hin. apply Hstep. right. exact Hin.
  - apply Hstep; [left; reflexivity | exact Hst].
Qed.

Lemma try_row_framed (st : search_state) (y1 : nat) :
  Forall framed st.2 -> Forall framed (try_row lines st y1).2.
Proof.
  unfold try_row. revert st.
  apply (fold_left_keeps (fun st : search_state => Forall framed st.2)).
  intros st x1 _ Hst. unfold try_start.
  destruct (negb _ || _); [exact Hst |].
  revert st Hst.
  apply (fold_left_keeps (fun st : search_state => Forall framed st.2)).
  intros st y2 Hy2 Hst. unfold try_bottom.
  revert st Hst.
  apply (fold_left_keeps (fun st : search_state => Forall framed st.2)).
  intros st x2 Hx2 Hst. unfold try_corner.
  destruct (isRectangle lines x1 y1 x2 y2) eqn:Hrect; [| exact Hst].
  cbn [snd]. apply Forall_app. split; [exact Hst |].
  constructor; [| constructor].
  unfold range in Hx2, Hy2. apply in_seq in Hx2, Hy2.
  apply rectangle_framed; [lia | lia | exact Hrect].
Qed.

End Frames.

(** Every string getFigureRectangles yields is the text of a frame: an edge
    of a plus sign, one or more minus signs and a plus sign, one or more
    lines that start and end with a vertical bar, and the same edge again,
    all of one width and each ended by a line break. *)
Theorem getFigureRectangles_yields_frames (figure r : string) :
  In r (getFigureRectangles figure) -> framed r.
Proof.
  unfold getFigureRectangles, search. intros Hin.
  eapply (proj1 (List.Forall_forall framed _)); [| exact Hin].
  apply (fold_left_keeps (fun st : search_state => Forall framed st.2)).
  - intros st y1 _. apply try_row_framed.
  - constructor.
Qed.

(** A figure of one frame. *)
Definition small_frame : string :=
  ("+--+" ++ line_break ++ "|  |" ++ line_break ++ "+--+" ++ line_break)%string.

Lemma getFigureRectangles_yields_frames_witness :
  In small_frame (getFigureRectangles small_frame) /\ framed small_frame.
Proof.
  assert (H : In small_frame (getFigureRectangles small_frame))
    by (vm_compute; left; reflexivity).
  split; [exact H |].
  apply (getFigureRectangles_yields_frames small_frame small_frame H).
Defined.

End Figure.
